(** * Crossword CSP solver (3-optimization/crossword/generate.py)

    A shallow embedding of [CrosswordCreator]: node consistency, AC-3 and
    backtracking search, with Python's exceptions and the mutable
    [self.domains] made explicit.

    - [self.domains] is a [gmap Var (gset string)]; Python sets are [gset]s
      and are iterated in the order of [elements].
    - Assignments are Python dicts: insertion-ordered association lists kept
      in a store and passed around by handle, so that aliasing is visible.
    - Methods live in a state-and-exception monad [M]; loops that Python
      writes as [while] take fuel, and the entry points compute enough of it.
    - The [Crossword] object itself (crossword.py) is the input of the
      solver and is taken as a parameter record. *)

From stdpp Require Import gmap strings list fin_maps fin_sets.
From Stdlib Require Import ZArith Lia Sorted.

(** ** Data model *)

Inductive Direction := ACROSS | DOWN.

(** A slot of the grid: [Variable(i, j, direction, length)]. *)
Record Var := mkVar {
  v_i : nat;
  v_j : nat;
  v_direction : Direction;
  v_length : nat
}.

#[global] Instance Direction_eq_dec : EqDecision Direction.
Proof. solve_decision. Defined.

#[global] Instance Var_eq_dec : EqDecision Var.
Proof. solve_decision. Defined.

Definition Var_to_tuple (v : Var) : nat * nat * bool * nat :=
  (v_i v, v_j v, match v_direction v with ACROSS => true | DOWN => false end,
   v_length v).

Definition Var_of_tuple (t : nat * nat * bool * nat) : Var :=
  match t with
  | (a, b, d, l) => mkVar a b (if d then ACROSS else DOWN) l
  end.

#[global] Instance Var_countable : Countable Var.
Proof.
  refine (inj_countable' Var_to_tuple Var_of_tuple _).
  intros [a b [] l]; reflexivity.
Defined.

(** The parsed puzzle handed to [CrosswordCreator.__init__]:
    [crossword.variables], [crossword.words] and the dictionary
    [crossword.overlaps], whose value is [None] or a pair of offsets. *)
Record Crossword := mkCrossword {
  variables : gset Var;
  words : gset string;
  overlaps : gmap (Var * Var) (option (nat * nat))
}.

(** Modelled from the spec: the test behind [Crossword.neighbors], which is
    not part of generate.py. Two slots share a cell when their entry in
    [crossword.overlaps] is a pair of offsets rather than [None]. *)
Definition shares_cell (cw : Crossword) (v var : Var) : bool :=
  match overlaps cw !! (v, var) with
  | Some (Some _) => true
  | _ => false
  end.

(** Modelled from the spec: [Crossword.neighbors] is not part of
    generate.py; the grid model "exposes neighbors(slot): all other slots
    sharing a cell with it". It builds a fresh set on every call. *)
Definition neighbors (cw : Crossword) (var : Var) : gset Var :=
  filter (λ v, v ≠ var ∧ shares_cell cw v var) (variables cw).

(** A Python dict from slots to words, in insertion order. *)
Fixpoint dict_get (a : list (Var * string)) (k : Var) : option string :=
  match a with
  | [] => None
  | (k', w) :: a' => if decide (k' = k) then Some w else dict_get a' k
  end.

Fixpoint dict_set (a : list (Var * string)) (k : Var) (w : string)
  : list (Var * string) :=
  match a with
  | [] => [(k, w)]
  | (k', w') :: a' =>
      if decide (k' = k) then (k, w) :: a' else (k', w') :: dict_set a' k w
  end.

Definition dict_keys (a : list (Var * string)) : list Var := fst <$> a.

(** ** Exceptions, state and the monad of methods *)

Inductive exn := KeyError | IndexError.

Inductive outcome (A : Type) :=
  | Ok (a : A)
  | Raise (e : exn)
  | OutOfFuel.
Arguments Ok {A} a.
Arguments Raise {A} e.
Arguments OutOfFuel {A}.

Definition obind {A B} (m : outcome A) (k : A → outcome B) : outcome B :=
  match m with
  | Ok a => k a
  | Raise e => Raise e
  | OutOfFuel => OutOfFuel
  end.

(** The mutable part of a [CrosswordCreator]: [self.domains], the store of
    assignment dicts (a handle is an index into it), and a ghost counter of
    the calls to [backtrack]. *)
Record state := mkState {
  domains : gmap Var (gset string);
  heap : list (list (Var * string));
  backtrack_calls : nat
}.

Definition M (A : Type) : Type := state → outcome A * state.

Definition ret {A} (a : A) : M A := λ s, (Ok a, s).

Definition bind {A B} (m : M A) (k : A → M B) : M B :=
  λ s, match m s with
       | (Ok a, s') => k a s'
       | (Raise e, s') => (Raise e, s')
       | (OutOfFuel, s') => (OutOfFuel, s')
       end.

Definition lift {A} (o : outcome A) : M A := λ s, (o, s).

Notation "x <- m ;; k" := (bind m (λ x, k))
  (at level 100, m at level 99, k at level 200, right associativity).
Notation "x <~ m ;; k" := (obind m (λ x, k))
  (at level 100, m at level 99, k at level 200, right associativity).

Definition with_domains (f : gmap Var (gset string) → gmap Var (gset string))
  (s : state) : state :=
  mkState (f (domains s)) (heap s) (backtrack_calls s).

(** [self.domains[v]] *)
Definition domain_of (v : Var) : M (gset string) :=
  λ s, match domains s !! v with
       | Some d => (Ok d, s)
       | None => (Raise KeyError, s)
       end.

(** [self.domains[v].remove(w)]: [set.remove] raises on a missing element. *)
Definition domain_remove (v : Var) (w : string) : M unit :=
  d <- domain_of v ;;
  if decide (w ∈ d)
  then λ s, (Ok tt, with_domains (insert v (d ∖ {[w]})) s)
  else lift (Raise KeyError).

(** [self.domains[v] -= r] *)
Definition domain_subtract (v : Var) (r : gset string) : M unit :=
  d <- domain_of v ;;
  λ s, (Ok tt, with_domains (insert v (d ∖ r)) s).

(** [word[k]] for a non-negative offset. *)
Definition index (w : string) (k : nat) : outcome Ascii.ascii :=
  match String.get k w with
  | Some c => Ok c
  | None => Raise IndexError
  end.

(** [self.crossword.overlaps[x, y]] *)
Definition overlaps_get (cw : Crossword) (x y : Var)
  : outcome (option (nat * nat)) :=
  match overlaps cw !! (x, y) with
  | Some o => Ok o
  | None => Raise KeyError
  end.

(** A [for] loop whose body has no result. *)
Fixpoint for_each {A} (l : list A) (body : A → M unit) : M unit :=
  match l with
  | [] => ret tt
  | a :: l' => _ <- body a ;; for_each l' body
  end.

(** ** [__init__] *)

Definition init (cw : Crossword) : state :=
  mkState (gset_to_gmap (words cw) (variables cw)) [] 0.

(** ** [enforce_node_consistency] *)

Definition enforce_node_consistency (cw : Crossword) : M unit :=
  for_each (elements (variables cw)) (λ variable,
    for_each (elements (words cw)) (λ word,
      if decide (String.length word ≠ v_length variable)
      then domain_remove variable word
      else ret tt)).

(** ** [revise] *)

(** The inner loop of [revise]: is there [y_domain] with
    [x_domain != y_domain and x_domain[a] == y_domain[b]]? *)
Fixpoint overlap_possible (a b : nat) (x_domain : string)
  (ys : list string) : outcome bool :=
  match ys with
  | [] => Ok false
  | y_domain :: ys' =>
      if decide (x_domain ≠ y_domain) then
        c1 <~ index x_domain a ;;
        c2 <~ index y_domain b ;;
        if decide (c1 = c2) then Ok true
        else overlap_possible a b x_domain ys'
      else overlap_possible a b x_domain ys'
  end.

(** The outer loop of [revise], collecting [domains_to_remove]. *)
Fixpoint revise_scan (a b : nat) (y : Var) (xs : list string)
  (domains_to_remove : gset string) : M (gset string) :=
  match xs with
  | [] => ret domains_to_remove
  | x_domain :: xs' =>
      dy <- domain_of y ;;
      possible <- lift (overlap_possible a b x_domain (elements dy)) ;;
      revise_scan a b y xs'
        (if possible then domains_to_remove
         else domains_to_remove ∪ {[x_domain]})
  end.

Definition revise (cw : Crossword) (x y : Var) : M bool :=
  overlap <- lift (overlaps_get cw x y) ;;
  match overlap with
  | Some (a, b) =>
      dx <- domain_of x ;;
      domains_to_remove <- revise_scan a b y (elements dx) ∅ ;;
      if decide (domains_to_remove ≠ ∅) then
        _ <- domain_subtract x domains_to_remove ;;
        ret true
      else ret false
  | None => ret false
  end.

(** ** [ac3] *)

(** The initial queue when no arcs are given. *)
Definition all_arcs (cw : Crossword) : list (Var * Var) :=
  variable1 ← elements (variables cw);
  (λ variable2, (variable1, variable2)) <$> elements (neighbors cw variable1).

(** The [while queue] loop. *)
Fixpoint ac3_loop (cw : Crossword) (fuel : nat) (queue : list (Var * Var))
  : M bool :=
  match fuel with
  | O => lift OutOfFuel
  | S fuel' =>
      match queue with
      | [] => ret true
      | (x, y) :: rest =>
          revised <- revise cw x y ;;
          if revised : bool then
            dx <- domain_of x ;;
            if decide (size dx = 0) then ret false
            else ac3_loop cw fuel'
                   (rest ++ ((λ z, (z, x)) <$> elements (neighbors cw x ∖ {[y]})))
          else ac3_loop cw fuel' rest
      end
  end.

Definition total_size (d : gmap Var (gset string)) : nat :=
  sum_list_with (λ kv, size kv.2) (map_to_list d).

(** Every revision that re-fills the queue removes a word, so this many
    iterations are never exceeded. *)
Definition ac3_fuel (cw : Crossword) (queue : list (Var * Var)) (s : state)
  : nat :=
  S (length queue + size (variables cw) * total_size (domains s)).

Definition ac3_queue (cw : Crossword) (arcs : option (list (Var * Var)))
  : list (Var * Var) :=
  match arcs with
  | None | Some [] => all_arcs cw
  | Some l => l
  end.

Definition ac3 (cw : Crossword) (arcs : option (list (Var * Var))) : M bool :=
  λ s, ac3_loop cw (ac3_fuel cw (ac3_queue cw arcs) s) (ac3_queue cw arcs) s.

(** ** The store of assignment dicts *)

(** [dict()] / a dict literal: a fresh object, named by its handle. *)
Definition push_dict (a : list (Var * string)) (s : state) : state :=
  mkState (domains s) (heap s ++ [a]) (backtrack_calls s).

Definition new_dict (a : list (Var * string)) : M nat :=
  λ s, (Ok (length (heap s)), push_dict a s).

(** The contents of the dict behind a handle. Handles are only made by
    [new_dict], so the lookup never misses. *)
Definition deref (r : nat) : M (list (Var * string)) :=
  λ s, (Ok (default [] (heap s !! r)), s).

(** [assignment.copy()] *)
Definition dict_copy (r : nat) : M nat :=
  a <- deref r ;; new_dict a.

(** [assignment[k] = w], in place. *)
Definition dict_setitem (r : nat) (k : Var) (w : string) : M unit :=
  λ s, (Ok tt,
        mkState (domains s) (alter (λ a, dict_set a k w) r (heap s))
                (backtrack_calls s)).

(** Ghost: note one more entry into [backtrack]. *)
Definition enter_backtrack : M unit :=
  λ s, (Ok tt, mkState (domains s) (heap s) (S (backtrack_calls s))).

(** ** [assignment_complete] *)

Definition complete_items (cw : Crossword) (a : list (Var * string)) : bool :=
  forallb (λ variable,
             match dict_get a variable with
             | None => false
             | Some w => bool_decide (w ∈ words cw)
             end)
          (elements (variables cw)).

Definition assignment_complete (cw : Crossword) (assignment : nat) : M bool :=
  a <- deref assignment ;; ret (complete_items cw a).

(** ** [consistent] *)

(** The loop over [y]; [Ok false] stands for the [return False] inside. *)
Fixpoint consistent_inner (cw : Crossword) (x : Var) (word1 : string)
  (ys : list (Var * string)) : outcome bool :=
  match ys with
  | [] => Ok true
  | (y, word2) :: ys' =>
      if decide (x ≠ y) then
        if decide (word1 = word2) then Ok false
        else
          overlap <~ overlaps_get cw x y ;;
          match overlap with
          | Some (a, b) =>
              c1 <~ index word1 a ;;
              c2 <~ index word2 b ;;
              if decide (c1 ≠ c2) then Ok false
              else consistent_inner cw x word1 ys'
          | None => consistent_inner cw x word1 ys'
          end
      else consistent_inner cw x word1 ys'
  end.

Fixpoint consistent_outer (cw : Crossword) (xs all : list (Var * string))
  : outcome bool :=
  match xs with
  | [] => Ok true
  | (x, word1) :: xs' =>
      if decide (v_length x ≠ String.length word1) then Ok false
      else
        ok <~ consistent_inner cw x word1 all ;;
        if ok : bool then consistent_outer cw xs' all else Ok false
  end.

Definition consistent (cw : Crossword) (assignment : nat) : M bool :=
  a <- deref assignment ;; lift (consistent_outer cw a a).

(** ** Sorting: [list.sort(key=...)] is stable *)

Fixpoint insert_by {A} (le : A → A → bool) (x : A) (l : list A) : list A :=
  match l with
  | [] => [x]
  | y :: l' => if le x y then x :: y :: l' else y :: insert_by le x l'
  end.

Definition sort_by {A} (le : A → A → bool) (l : list A) : list A :=
  foldr (insert_by le) [] l.

(** ** [order_domain_values] *)

(** [neighbors = self.crossword.neighbors(var)] with the assigned ones
    removed. *)
Definition unassigned_neighbors (cw : Crossword) (var : Var)
  (a : list (Var * string)) : gset Var :=
  foldl (λ ns i, if decide (i ∈ ns) then ns ∖ {[i]} else ns)
        (neighbors cw var) (dict_keys a).

Fixpoint ruled_out_in (cw : Crossword) (var var2 : Var) (val : string)
  (vals2 : list string) (total_ruled_out : nat) : outcome nat :=
  match vals2 with
  | [] => Ok total_ruled_out
  | val2 :: vals2' =>
      overlap <~ overlaps_get cw var var2 ;;
      match overlap with
      | Some (a, b) =>
          c1 <~ index val a ;;
          c2 <~ index val2 b ;;
          ruled_out_in cw var var2 val vals2'
            (if decide (c1 ≠ c2) then S total_ruled_out else total_ruled_out)
      | None => ruled_out_in cw var var2 val vals2' total_ruled_out
      end
  end.

Fixpoint ruled_out (cw : Crossword) (var : Var) (val : string)
  (var2s : list Var) (total_ruled_out : nat) : M nat :=
  match var2s with
  | [] => ret total_ruled_out
  | var2 :: var2s' =>
      d2 <- domain_of var2 ;;
      t <- lift (ruled_out_in cw var var2 val (elements d2) total_ruled_out) ;;
      ruled_out cw var val var2s' t
  end.

Fixpoint lcv_scan (cw : Crossword) (var : Var) (ns : list Var)
  (vals : list string) : M (list (string * nat)) :=
  match vals with
  | [] => ret []
  | val :: vals' =>
      t <- ruled_out cw var val ns 0 ;;
      result <- lcv_scan cw var ns vals' ;;
      ret ((val, t) :: result)
  end.

Definition order_domain_values (cw : Crossword) (var : Var) (assignment : nat)
  : M (list string) :=
  a <- deref assignment ;;
  d <- domain_of var ;;
  result <- lcv_scan cw var (elements (unassigned_neighbors cw var a))
              (elements d) ;;
  ret (fst <$> sort_by (λ p q, bool_decide (p.2 ≤ q.2)) result).

(** ** [select_unassigned_variable] *)

Fixpoint list_of_variables (cw : Crossword) (a : list (Var * string))
  (vars : list Var) : M (list (Var * nat * nat)) :=
  match vars with
  | [] => ret []
  | var :: vars' =>
      if decide (dict_get a var = None) then
        d <- domain_of var ;;
        rest <- list_of_variables cw a vars' ;;
        ret ((var, size d, size (neighbors cw var)) :: rest)
      else list_of_variables cw a vars'
  end.

(** The sort key [(x[1], -x[2])], compared as Python compares tuples. *)
Definition mrv_key (x : Var * nat * nat) : Z * Z :=
  (Z.of_nat x.1.2, (- Z.of_nat x.2)%Z).

Definition mrv_le (p q : Var * nat * nat) : bool :=
  bool_decide ((mrv_key p).1 < (mrv_key q).1
               ∨ ((mrv_key p).1 = (mrv_key q).1
                  ∧ (mrv_key p).2 ≤ (mrv_key q).2))%Z.

Definition select_unassigned_variable (cw : Crossword) (assignment : nat)
  : M (option Var) :=
  a <- deref assignment ;;
  l <- list_of_variables cw a (elements (variables cw)) ;;
  ret (match sort_by mrv_le l with
       | [] => None
       | x :: _ => Some x.1.1
       end).

(** ** [backtrack] *)

(** [if result:] — [None] and the empty dict are falsy. *)
Definition truthy (result : option nat) : M bool :=
  match result with
  | None => ret false
  | Some r => a <- deref r ;; ret (bool_decide (a ≠ []))
  end.

(** The [for val in ...] loop of [backtrack]; [rec] is the recursive call. *)
Fixpoint try_values (cw : Crossword) (rec : nat → M (option nat))
  (assignment : nat) (var : Var) (vals : list string) : M (option nat) :=
  match vals with
  | [] => ret None
  | val :: vals' =>
      new_assigment <- dict_copy assignment ;;
      _ <- dict_setitem new_assigment var val ;;
      ok <- consistent cw new_assigment ;;
      if ok : bool then
        result <- rec new_assigment ;;
        t <- truthy result ;;
        if t : bool then ret result
        else try_values cw rec assignment var vals'
      else try_values cw rec assignment var vals'
  end.

(** The recursion adds one slot per level; [fuel] bounds its depth. When
    every slot is assigned but the assignment is not complete,
    [select_unassigned_variable] gives [None] and
    [order_domain_values(None, ...)] fails on [self.domains[None]]. *)
Fixpoint backtrack (cw : Crossword) (fuel : nat) (assignment : nat)
  : M (option nat) :=
  match fuel with
  | O => lift OutOfFuel
  | S fuel' =>
      _ <- enter_backtrack ;;
      complete <- assignment_complete cw assignment ;;
      if complete : bool then ret (Some assignment)
      else
        var <- select_unassigned_variable cw assignment ;;
        match var with
        | None => lift (Raise KeyError)
        | Some var =>
            vals <- order_domain_values cw var assignment ;;
            try_values cw (backtrack cw fuel') assignment var vals
        end
  end.

(** ** [solve] *)

Definition solve (cw : Crossword) : M (option nat) :=
  _ <- enforce_node_consistency cw ;;
  _ <- ac3 cw None ;;
  assignment <- new_dict [] ;;
  backtrack cw (S (size (variables cw))) assignment.

(** ** Vocabulary of the specification *)

(** The unary constraint: the word has the length of the slot. *)
Definition fits (variable : Var) (word : string) : Prop :=
  String.length word = v_length variable.

#[global] Instance fits_dec v w : Decision (fits v w).
Proof. unfold fits. apply _. Defined.
#[global] Typeclasses Opaque fits.

(** The domains in which every slot keeps exactly the words that fit. *)
Definition node_consistent_domains (cw : Crossword) : gmap Var (gset string) :=
  map_imap (λ v d, Some (filter (fits v) d))
           (gset_to_gmap (words cw) (variables cw)).

(** The binary constraint as [revise] tests it: [w], a candidate of [y],
    supports [v], a candidate of [x], across the offsets [(a, b)] when the
    two words differ and [v[a] == w[b]]. *)
Definition supports (a b : nat) (v w : string) : Prop :=
  v ≠ w ∧ ∃ c, String.get a v = Some c ∧ String.get b w = Some c.

#[global] Instance supports_dec a b v w : Decision (supports a b v w).
Proof.
  unfold supports.
  destruct (String.get a v) as [c|] eqn:Ha.
  - destruct (String.get b w) as [c'|] eqn:Hb.
    + destruct (decide (v ≠ w)); [|right; tauto].
      destruct (decide (c = c')) as [->|Hc]; [left; eauto|].
      right. intros [_ (c0 & ? & ?)]. congruence.
    + right. intros [_ (c0 & ? & ?)]. congruence.
  - right. intros [_ (c0 & ? & ?)]. congruence.
Defined.
#[global] Typeclasses Opaque supports.

(** What [revise] leaves of [dx] when [y] has the candidates [dy]. *)
Definition supported (a b : nat) (dx dy : gset string) : gset string :=
  filter (λ v, set_Exists (supports a b v) dy) dx.

(** What [revise(x, y)] leaves of [dx]. *)
Definition revised (cw : Crossword) (x y : Var) (dx dy : gset string)
  : gset string :=
  match overlaps cw !! (x, y) with
  | Some (Some (a, b)) => supported a b dx dy
  | _ => dx
  end.

(** The candidates of a slot, empty when the slot has no entry. *)
Definition dom_at (D : gmap Var (gset string)) (v : Var) : gset string :=
  default ∅ (D !! v).

(** [x] is arc consistent with [y]: every candidate of [x] has a support
    among the candidates of [y]. *)
Definition arc_consistent (cw : Crossword) (D : gmap Var (gset string))
  (x y : Var) : Prop :=
  match overlaps cw !! (x, y) with
  | Some (Some (a, b)) =>
      set_Forall (λ v, set_Exists (supports a b v) (dom_at D y)) (dom_at D x)
  | _ => True
  end.

#[global] Instance arc_consistent_dec cw D x y :
  Decision (arc_consistent cw D x y).
Proof.
  unfold arc_consistent.
  destruct (overlaps cw !! (x, y)) as [[[a b]|]|]; apply _.
Defined.

(** Every word of every domain fits its slot. *)
Definition node_consistent (s : state) : Prop :=
  map_Forall (λ v d, set_Forall (fits v) d) (domains s).

#[global] Instance node_consistent_dec s : Decision (node_consistent s).
Proof. unfold node_consistent. apply _. Defined.

(** Every slot of the crossword has a domain. *)
Definition domains_cover (cw : Crossword) (s : state) : Prop :=
  set_Forall (λ v, is_Some (domains s !! v)) (variables cw).

#[global] Instance domains_cover_dec cw s : Decision (domains_cover cw s).
Proof. unfold domains_cover. apply _. Defined.

(** What the grid model guarantees about [crossword.overlaps]: offsets lie
    inside the two slots, every pair of distinct slots has an entry, and
    the entry of [(y, x)] mirrors the entry of [(x, y)]. *)
Definition overlaps_in_bounds (cw : Crossword) : Prop :=
  map_Forall (λ xy o, match o with
                      | Some (a, b) => a < v_length xy.1 ∧ b < v_length xy.2
                      | None => True
                      end) (overlaps cw).

#[global] Instance overlaps_in_bounds_dec cw : Decision (overlaps_in_bounds cw).
Proof.
  unfold overlaps_in_bounds. apply map_Forall_dec.
  intros [x y] [[a b]|]; apply _.
Defined.

Definition overlaps_total (cw : Crossword) : Prop :=
  set_Forall (λ x, set_Forall (λ y, x ≠ y → is_Some (overlaps cw !! (x, y)))
                              (variables cw)) (variables cw).

#[global] Instance overlaps_total_dec cw : Decision (overlaps_total cw).
Proof. unfold overlaps_total. apply _. Defined.

Definition overlaps_symmetric (cw : Crossword) : Prop :=
  map_Forall (λ xy o, match o with
                      | Some (a, b) =>
                          overlaps cw !! (xy.2, xy.1) = Some (Some (b, a))
                      | None => True
                      end) (overlaps cw).

#[global] Instance overlaps_symmetric_dec cw : Decision (overlaps_symmetric cw).
Proof.
  unfold overlaps_symmetric. apply map_Forall_dec.
  intros [x y] [[a b]|]; apply _.
Defined.

(** The arcs of a queue join distinct slots of the crossword. *)
Definition valid_arcs (cw : Crossword) (queue : list (Var * Var)) : Prop :=
  Forall (λ xy, xy.1 ∈ variables cw ∧ xy.2 ∈ variables cw ∧ xy.1 ≠ xy.2) queue.

#[global] Instance valid_arcs_dec cw queue : Decision (valid_arcs cw queue).
Proof. unfold valid_arcs. apply _. Defined.

(** The runs of the [while queue] loop, one rule per way through its body. *)
Inductive ac3_run (cw : Crossword)
  : list (Var * Var) → state → bool → state → Prop :=
  | ac3_run_empty s :
      ac3_run cw [] s true s
  | ac3_run_unrevised x y rest s s1 b s' :
      revise cw x y s = (Ok false, s1) →
      ac3_run cw rest s1 b s' →
      ac3_run cw ((x, y) :: rest) s b s'
  | ac3_run_emptied x y rest s s1 dx :
      revise cw x y s = (Ok true, s1) →
      domains s1 !! x = Some dx → size dx = 0 →
      ac3_run cw ((x, y) :: rest) s false s1
  | ac3_run_revised x y rest s s1 dx b s' :
      revise cw x y s = (Ok true, s1) →
      domains s1 !! x = Some dx → size dx ≠ 0 →
      ac3_run cw
        (rest ++ ((λ z, (z, x)) <$> elements (neighbors cw x ∖ {[y]})))
        s1 b s' →
      ac3_run cw ((x, y) :: rest) s b s'.

(** ** Fixtures *)

Definition across3 : Var := mkVar 0 0 ACROSS 3.
Definition down3 : Var := mkVar 0 1 DOWN 3.
Definition across4 : Var := mkVar 0 0 ACROSS 4.

(** Two crossing slots of length 3 (ACROSS offset 1, DOWN offset 0). *)
Definition crossing : Crossword :=
  mkCrossword {[ across3; down3 ]} {[ "cat"; "art"; "dog" ]}%string
    (<[ (across3, down3) := Some (1, 0) ]>
       (<[ (down3, across3) := Some (0, 1) ]> ∅)).

(** One slot of length 3 and a word list with a longer word. *)
Definition single3 : Crossword :=
  mkCrossword {[ across3 ]} {[ "cat"; "horse" ]}%string ∅.

(** One slot of length 4 that no word fits. *)
Definition single4 : Crossword :=
  mkCrossword {[ across4 ]} {[ "cat" ]}%string ∅.

(** An ACROSS slot of length 4 crossed by two DOWN slots of length 3, and
    only words of length 3. *)
Definition top4 : Var := mkVar 0 0 ACROSS 4.
Definition left3 : Var := mkVar 0 0 DOWN 3.
Definition right3 : Var := mkVar 0 2 DOWN 3.

Definition arch : Crossword :=
  mkCrossword {[ top4; left3; right3 ]} {[ "cat"; "dog" ]}%string
    (<[ (left3, top4) := Some (0, 0) ]>
       (<[ (top4, left3) := Some (0, 0) ]>
          (<[ (right3, top4) := Some (0, 2) ]>
             (<[ (top4, right3) := Some (2, 0) ]>
                (<[ (left3, right3) := None ]>
                   (<[ (right3, left3) := None ]> ∅)))))).

(** An ACROSS slot of length 3 crossed by a DOWN slot of length 4 at its
    first cell and by a DOWN slot of length 5 at its last cell. *)
Definition bar3 : Var := mkVar 0 0 ACROSS 3.
Definition leg4 : Var := mkVar 0 0 DOWN 4.
Definition leg5 : Var := mkVar 0 2 DOWN 5.

Definition fork : Crossword :=
  mkCrossword {[ bar3; leg4; leg5 ]}
    {[ "cat"; "dog"; "cold"; "tiger"; "zebra" ]}%string
    (<[ (bar3, leg4) := Some (0, 0) ]>
       (<[ (leg4, bar3) := Some (0, 0) ]>
          (<[ (bar3, leg5) := Some (2, 0) ]>
             (<[ (leg5, bar3) := Some (0, 2) ]>
                (<[ (leg4, leg5) := None ]>
                   (<[ (leg5, leg4) := None ]> ∅)))))).

(** The state of a creator after [enforce_node_consistency]. *)
Definition after_node_consistency (cw : Crossword) : state :=
  mkState (node_consistent_domains cw) [] 0.

(** Every pair of distinct slots is either waiting in the queue or already
    arc consistent. *)
Definition pending (cw : Crossword) (queue : list (Var * Var)) (s : state)
  : Prop :=
  ∀ x y, x ∈ variables cw → y ∈ variables cw → x ≠ y →
         (x, y) ∈ queue ∨ arc_consistent cw (domains s) x y.

(** A computation that only reads the state. *)
Definition read_only {A} (m : M A) : Prop := ∀ s, (m s).2 = s.

(** [s'] has the domains of [s] and all its dicts, unchanged, and maybe
    new dicts after them. *)
Definition extends (s s' : state) : Prop :=
  domains s' = domains s ∧ heap s `prefix_of` heap s'.

(** The contents of a dict, as [deref] reads them. *)
Abbreviation contents s r := (default [] (heap s !! r)).

(** What a handle returned by [backtrack] stands for: a dict that is still
    there, is complete, and either is the dict the call was given or has
    passed [consistent]. *)
Definition returned_ok (cw : Crossword) (r : nat) (s' : state) (r' : nat)
  : Prop :=
  r' < length (heap s')
  ∧ complete_items cw (contents s' r') = true
  ∧ (r' = r ∨ consistent_outer cw (contents s' r') (contents s' r') = Ok true).

(** A complete assignment that satisfies every constraint: each slot gets a
    word of the list that fits it, distinct slots get distinct words, and
    crossing slots agree on the shared letter. *)
Definition valid_solution (cw : Crossword) (σ : Var → string) : Prop :=
  ∀ x, x ∈ variables cw →
    σ x ∈ words cw ∧ fits x (σ x)
    ∧ ∀ y, y ∈ variables cw → x ≠ y →
        σ x ≠ σ y
        ∧ ∀ p q, overlaps cw !! (x, y) = Some (Some (p, q)) →
                 ∃ c, String.get p (σ x) = Some c ∧ String.get q (σ y) = Some c.

(** A partial assignment that is part of [σ]. *)
Definition within (cw : Crossword) (σ : Var → string)
  (a : list (Var * string)) : Prop :=
  ∀ x w, (x, w) ∈ a → x ∈ variables cw ∧ w = σ x.

(** Every slot still has the word that [σ] gives it. *)
Definition keeps (cw : Crossword) (σ : Var → string) (s : state) : Prop :=
  ∀ x, x ∈ variables cw → σ x ∈ dom_at (domains s) x.

(** A computation that never runs out of fuel: it returns or raises. *)
Definition fueled {A} (m : M A) : Prop := ∀ s, (m s).1 ≠ OutOfFuel.

(** ** [letter_grid] *)

(** Modelled from the spec: what [letter_grid] reads of the [Crossword]
    object besides the slots. The grid is "fixed width × height";
    [crossword.width] and [crossword.height] are its two sizes. *)
Record Grid := mkGrid {
  width : nat;
  height : nat
}.

(** The cell [(i, j)] of the [k]-th letter of a slot. *)
Definition cell_of (variable : Var) (k : nat) : nat * nat :=
  (v_i variable + (if decide (v_direction variable = DOWN) then k else 0),
   v_j variable + (if decide (v_direction variable = ACROSS) then k else 0)).

(** [letters[i][j] = c]: both subscripts raise when out of range. *)
Definition grid_set {A} (letters : list (list A)) (i j : nat) (c : A)
  : outcome (list (list A)) :=
  match letters !! i with
  | None => Raise IndexError
  | Some row =>
      if decide (j < length row) then Ok (<[i := <[j := c]> row]> letters)
      else Raise IndexError
  end.

(** The loop [for k in range(len(word))]. *)
Fixpoint place_word (variable : Var) (word : string) (ks : list nat)
  (letters : list (list (option Ascii.ascii)))
  : outcome (list (list (option Ascii.ascii))) :=
  match ks with
  | [] => Ok letters
  | k :: ks' =>
      c <~ index word k ;;
      letters' <~ grid_set letters (cell_of variable k).1
                    (cell_of variable k).2 (Some c) ;;
      place_word variable word ks' letters'
  end.

(** The loop [for variable, word in assignment.items()]. *)
Fixpoint place_items (items : list (Var * string))
  (letters : list (list (option Ascii.ascii)))
  : outcome (list (list (option Ascii.ascii))) :=
  match items with
  | [] => Ok letters
  | (variable, word) :: items' =>
      letters' <~ place_word variable word (seq 0 (String.length word))
                    letters ;;
      place_items items' letters'
  end.

Definition letter_grid (g : Grid) (assignment : nat)
  : M (list (list (option Ascii.ascii))) :=
  a <- deref assignment ;;
  lift (place_items a (replicate (height g) (replicate (width g) None))).

(** ** Vocabulary of the further properties *)

(** [s'] differs from [s] by words removed from domains: same slots with a
    domain, each domain a subset of what it was, same dicts. *)
Definition pruned (s s' : state) : Prop :=
  heap s' = heap s ∧ backtrack_calls s' = backtrack_calls s
  ∧ (∀ v, is_Some (domains s' !! v) ↔ is_Some (domains s !! v))
  ∧ (∀ v, dom_at (domains s') v ⊆ dom_at (domains s) v).

(** What [consistent] asks of an entry [(x, word1)] against the entries
    [ys]: the other slots hold other words, the pair has an entry in
    [crossword.overlaps], and the letters at an overlap are the same. *)
Definition compatible (cw : Crossword) (x : Var) (word1 : string)
  (ys : list (Var * string)) : Prop :=
  ∀ y word2, (y, word2) ∈ ys → x ≠ y →
    word1 ≠ word2
    ∧ ∃ o, overlaps cw !! (x, y) = Some o
           ∧ ∀ p q, o = Some (p, q) →
                    ∃ c, String.get p word1 = Some c
                         ∧ String.get q word2 = Some c.

(** The slots without a word in the dict [a]. *)
Definition unassigned (cw : Crossword) (a : list (Var * string)) : gset Var :=
  filter (λ v, dict_get a v = None) (variables cw).

(** The count that [order_domain_values] sorts by: the candidates [val2]
    of the slots [ns] whose letter at the overlap differs from [val]'s. *)
Definition conflicts (cw : Crossword) (D : gmap Var (gset string))
  (var : Var) (ns : list Var) (val : string) : nat :=
  sum_list_with
    (λ var2, match overlaps cw !! (var, var2) with
             | Some (Some (a, b)) =>
                 length (filter (λ val2, String.get a val ≠ String.get b val2)
                                (elements (dom_at D var2)))
             | _ => 0
             end) ns.

(** Every entry of the dict gives a slot of the crossword one of its
    current candidates. *)
Definition drawn (cw : Crossword) (s : state) (a : list (Var * string))
  : Prop :=
  ∀ x w, (x, w) ∈ a → x ∈ variables cw ∧ w ∈ dom_at (domains s) x.

(** Every candidate is a word of the list. *)
Definition domains_in_words (cw : Crossword) (s : state) : Prop :=
  map_Forall (λ _ d, d ⊆ words cw) (domains s).

(** No exception. *)
Definition no_raise {A} (o : outcome A) : Prop := ∀ e, o ≠ Raise e.

(** The cell lies inside the grid. *)
Definition in_range (g : Grid) (ij : nat * nat) : Prop :=
  ij.1 < height g ∧ ij.2 < width g.

#[global] Instance in_range_dec g ij : Decision (in_range g ij).
Proof. unfold in_range. apply _. Defined.

(** The word lies inside the grid when written from the slot's first cell. *)
Definition in_grid (g : Grid) (vw : Var * string) : Prop :=
  Forall (λ k, in_range g (cell_of vw.1 k)) (seq 0 (String.length vw.2)).

#[global] Instance in_grid_dec g vw : Decision (in_grid g vw).
Proof. unfold in_grid. apply _. Defined.

(** [letters[i][j]], when both subscripts are in range. *)
Definition cell_at {A} (letters : list (list A)) (ij : nat * nat) : option A :=
  row ← letters !! ij.1; row !! ij.2.

(** The grid has [height] rows of [width] cells. *)
Definition grid_shape {A} (g : Grid) (letters : list (list A)) : Prop :=
  length letters = height g ∧ Forall (λ row, length row = width g) letters.

(** The dict [a] puts the letter [c] on the cell [ij]. *)
Definition puts (a : list (Var * string)) (ij : nat * nat) (c : Ascii.ascii)
  : Prop :=
  ∃ v w k, (v, w) ∈ a ∧ cell_of v k = ij ∧ String.get k w = Some c.

(** The dict [a'] keeps every entry of [a], and what it adds gives slots
    of the crossword candidates from the domains of [s]. *)
Definition completes (cw : Crossword) (s : state) (a a' : list (Var * string))
  : Prop :=
  (∀ x w, dict_get a x = Some w → dict_get a' x = Some w)
  ∧ (∀ x w, dict_get a' x = Some w →
            dict_get a x = Some w
            ∨ (x ∈ variables cw ∧ w ∈ dom_at (domains s) x)).

(** The state the search expects: every slot has a domain, and every
    candidate is a word of the list that fits its slot. *)
Definition ready (cw : Crossword) (s : state) : Prop :=
  node_consistent s ∧ domains_cover cw s ∧ domains_in_words cw s.

(** The grid shows the letters that [P] puts on the cells and nothing
    else: a cell is blank when [P] puts no letter on it, and holds one of
    the letters that [P] puts on it otherwise. *)
Definition shows (g : Grid) (P : nat * nat → Ascii.ascii → Prop)
  (letters : list (list (option Ascii.ascii))) : Prop :=
  ∀ ij, in_range g ij →
    (cell_at letters ij = Some None ∧ ∀ c, ¬ P ij c)
    ∨ ∃ c, cell_at letters ij = Some (Some c) ∧ P ij c.

(** What the grid model guarantees about [crossword.overlaps] and the
    cells: when two distinct slots cover the same cell, their entry is the
    pair of offsets of that cell. *)
Definition overlaps_geometric (cw : Crossword) : Prop :=
  set_Forall (λ x, set_Forall (λ y, x ≠ y →
    Forall (λ k, Forall (λ k',
      cell_of x k = cell_of y k' →
      overlaps cw !! (x, y) = Some (Some (k, k')))
      (seq 0 (v_length y))) (seq 0 (v_length x)))
    (variables cw)) (variables cw).

#[global] Instance overlaps_geometric_dec cw : Decision (overlaps_geometric cw).
Proof. unfold overlaps_geometric. apply _. Defined.

(** * Properties *)

(** ** The monad *)

Lemma bind_Ok {A B} (m : M A) (k : A → M B) s a s' :
  m s = (Ok a, s') → (x <- m ;; k x) s = k a s'.
Proof. unfold bind. by intros ->. Qed.

Lemma bind_Raise {A B} (m : M A) (k : A → M B) s e s' :
  m s = (Raise e, s') → (x <- m ;; k x) s = (Raise e, s').
Proof. unfold bind. by intros ->. Qed.

Lemma bind_inv_Ok {A B} (m : M A) (k : A → M B) s b s2 :
  (x <- m ;; k x) s = (Ok b, s2) →
  ∃ a s1, m s = (Ok a, s1) ∧ k a s1 = (Ok b, s2).
Proof.
  unfold bind. destruct (m s) as [[a| |] s1]; intros H; try discriminate.
  by exists a, s1.
Qed.

Lemma state_eta s : mkState (domains s) (heap s) (backtrack_calls s) = s.
Proof. by destruct s. Qed.

Lemma with_domains_id s d v :
  domains s !! v = Some d → with_domains (insert v d) s = s.
Proof.
  intros H. unfold with_domains. rewrite insert_id by done. apply state_eta.
Qed.

(** ** Node consistency *)

(** One slot: the inner loop over the word list. *)
Lemma node_inner_fresh (variable : Var) (l : list string) s (d : gset string) :
  NoDup l → (∀ w, w ∈ l → w ∈ d) → domains s !! variable = Some d →
  for_each l (λ word,
      if decide (String.length word ≠ v_length variable)
      then domain_remove variable word else ret tt) s
  = (Ok tt,
     with_domains
       (insert variable (d ∖ list_to_set (filter (λ w, ¬ fits variable w) l))) s).
Proof.
  intros Hnd. revert s d. induction Hnd as [|w l Hw Hnd IH]; intros s d Hin Hs.
  - simpl. unfold ret. rewrite difference_empty_L. by rewrite with_domains_id.
  - simpl. case_decide as Hlen.
    + erewrite bind_Ok; last first.
      { unfold domain_remove. erewrite bind_Ok; last by (unfold domain_of; rewrite Hs).
        rewrite decide_True; [reflexivity|]. apply Hin. left. }
      rewrite (IH _ (d ∖ {[w]})).
      * f_equal. unfold with_domains. simpl. f_equal.
        rewrite insert_insert_eq. f_equal.
        rewrite filter_cons_True by done. simpl. set_solver.
      * intros w' Hw'. apply elem_of_difference. split; [apply Hin; by right|].
        set_solver.
      * simpl. apply lookup_insert_eq.
    + erewrite bind_Ok; last reflexivity.
      rewrite (IH _ d); [|set_solver|done].
      rewrite filter_cons_False; [done|]. unfold fits. intros H. apply H. lia.
Qed.

Lemma node_inner_result (variable : Var) (ws : gset string) :
  ws ∖ list_to_set (filter (λ w, ¬ fits variable w) (elements ws))
  = filter (fits variable) ws.
Proof.
  apply set_eq. intros w.
  rewrite elem_of_difference, elem_of_filter, elem_of_list_to_set,
    list_elem_of_filter, elem_of_elements.
  destruct (decide (fits variable w)); naive_solver.
Qed.

(** All slots: the outer loop, from domains that still hold every word. *)
Lemma node_outer_fresh (cw : Crossword) (l : list Var) s :
  NoDup l → (∀ v, v ∈ l → domains s !! v = Some (words cw)) →
  ∃ s', for_each l (λ variable,
          for_each (elements (words cw)) (λ word,
            if decide (String.length word ≠ v_length variable)
            then domain_remove variable word else ret tt)) s = (Ok tt, s')
        ∧ heap s' = heap s ∧ backtrack_calls s' = backtrack_calls s
        ∧ ∀ u, domains s' !! u =
               if decide (u ∈ l) then Some (filter (fits u) (words cw))
               else domains s !! u.
Proof.
  intros Hnd. revert s. induction Hnd as [|v l Hv Hnd IH]; intros s Hs.
  - exists s. simpl. repeat split; done.
  - simpl.
    pose proof (node_inner_fresh v (elements (words cw)) s (words cw)
                  (NoDup_elements _)) as Hin.
    rewrite node_inner_result in Hin.
    specialize (Hin ltac:(intros w; by rewrite elem_of_elements)
                    ltac:(apply Hs; left)).
    destruct (IH (with_domains (insert v (filter (fits v) (words cw))) s))
      as (s' & Hrun & Hh & Hc & Hd).
    { intros u Hu. simpl. rewrite lookup_insert_ne; [apply Hs; by right|].
      intros ->. done. }
    exists s'. split; [by erewrite bind_Ok|]. repeat split; try done.
    intros u. rewrite Hd. simpl.
    destruct (decide (u = v)) as [->|Hne].
    + rewrite decide_False by done. rewrite lookup_insert_eq.
      rewrite decide_True; [done|left].
    + rewrite lookup_insert_ne by done.
      destruct (decide (u ∈ l)).
      * rewrite decide_True; [done|by right].
      * rewrite decide_False; [done|]. rewrite elem_of_cons. naive_solver.
Qed.

Lemma enforce_node_consistency_init (cw : Crossword) :
  enforce_node_consistency cw (init cw)
  = (Ok tt, mkState (node_consistent_domains cw) [] 0).
Proof.
  destruct (node_outer_fresh cw (elements (variables cw)) (init cw)
              (NoDup_elements _)) as (s' & Hrun & Hh & Hc & Hd).
  { intros v Hv. simpl. apply lookup_gset_to_gmap_Some.
    split; [by apply elem_of_elements|done]. }
  unfold enforce_node_consistency. rewrite Hrun. f_equal.
  destruct s' as [d h c]. simpl in *. subst. f_equal.
  apply map_eq. intros u. rewrite Hd. unfold node_consistent_domains.
  rewrite map_lookup_imap, lookup_gset_to_gmap.
  destruct (decide (u ∈ elements (variables cw))) as [Hu|Hu];
    rewrite elem_of_elements in Hu.
  - by rewrite option_guard_True.
  - by rewrite option_guard_False.
Qed.

(** On domains that are already filtered, [remove] has nothing to remove. *)
Lemma node_inner_again (variable : Var) (ws : gset string) (l : list string) s :
  domains s !! variable = Some (filter (fits variable) ws) →
  for_each l (λ word,
      if decide (String.length word ≠ v_length variable)
      then domain_remove variable word else ret tt) s
  = (if decide (Forall (fits variable) l) then Ok tt else Raise KeyError, s).
Proof.
  intros Hs. induction l as [|w l IH]; simpl.
  - done.
  - destruct (decide (String.length w ≠ v_length variable)) as [Hlen|Hlen].
    + erewrite bind_Raise; last first.
      { unfold domain_remove. erewrite bind_Ok; last by (unfold domain_of; rewrite Hs).
        rewrite decide_False; [reflexivity|].
        rewrite elem_of_filter. unfold fits. naive_solver. }
      rewrite decide_False; [done|]. intros H. inversion H. done.
    + erewrite bind_Ok; last reflexivity. rewrite IH.
      assert (fits variable w) by (unfold fits; lia).
      destruct (decide (Forall (fits variable) l)).
      * rewrite decide_True; [done|by constructor].
      * rewrite decide_False; [done|]. intros H'. by inversion H'.
Qed.

Lemma node_outer_again (cw : Crossword) (l : list Var) s :
  (∀ v, v ∈ l → domains s !! v = Some (filter (fits v) (words cw))) →
  for_each l (λ variable,
    for_each (elements (words cw)) (λ word,
      if decide (String.length word ≠ v_length variable)
      then domain_remove variable word else ret tt)) s
  = (if decide (Forall (λ v, Forall (fits v) (elements (words cw))) l)
     then Ok tt else Raise KeyError, s).
Proof.
  induction l as [|v l IH]; intros Hs; simpl.
  - done.
  - pose proof (node_inner_again v (words cw) (elements (words cw)) s
                  (Hs v ltac:(left))) as Hin.
    destruct (decide (Forall (fits v) (elements (words cw)))) as [Hv|Hv].
    + erewrite bind_Ok; last exact Hin.
      rewrite IH by (intros u Hu; apply Hs; by right).
      destruct (decide (Forall (λ v, Forall (fits v) (elements (words cw))) l)).
      * rewrite decide_True; [done|by constructor].
      * rewrite decide_False; [done|]. intros H'. by inversion H'.
    + erewrite bind_Raise; last exact Hin.
      rewrite decide_False; [done|]. intros H'. by inversion H'.
Qed.

(** ** [revise] *)

Lemma get_is_Some (w : string) (k : nat) :
  k < String.length w → ∃ c, String.get k w = Some c.
Proof.
  revert k. induction w as [|c w IH]; intros k Hk; simpl in *; [lia|].
  destruct k as [|k]; [by eexists|]. apply IH. lia.
Qed.

Lemma index_in_bounds (w : string) (k : nat) :
  k < String.length w → ∃ c, index w k = Ok c ∧ String.get k w = Some c.
Proof.
  intros Hk. destruct (get_is_Some w k Hk) as [c Hc].
  exists c. unfold index. by rewrite Hc.
Qed.

(** The inner loop never runs out of fuel and, when it returns, it has
    found a support exactly if there is one. *)
Lemma overlap_possible_Ok a b v ys r :
  overlap_possible a b v ys = Ok r →
  (r = true ↔ Exists (supports a b v) ys).
Proof.
  induction ys as [|w ys IH]; simpl.
  - intros [= <-]. split; [done|]. by rewrite Exists_nil.
  - destruct (decide (v ≠ w)) as [Hne|Heq].
    + unfold index. destruct (String.get a v) as [c1|] eqn:H1; simpl; [|done].
      destruct (String.get b w) as [c2|] eqn:H2; simpl; [|done].
      destruct (decide (c1 = c2)) as [->|Hc].
      * intros [= <-]. split; [|done]. intros _. left. split; eauto.
      * intros Hr. rewrite (IH Hr), Exists_cons. split; [by right|].
        intros [[_ (c & ? & ?)]|?]; [congruence|done].
    + intros Hr. rewrite (IH Hr), Exists_cons. split; [by right|].
      intros [[? _]|?]; done.
Qed.

Lemma overlap_possible_safe a b v ys :
  a < String.length v → Forall (λ w, b < String.length w) ys →
  ∃ r, overlap_possible a b v ys = Ok r.
Proof.
  intros Ha. induction 1 as [|w ys Hb _ IH]; simpl; [by eexists|].
  destruct (decide (v ≠ w)); [|done].
  destruct (index_in_bounds v a Ha) as (c1 & -> & _).
  destruct (index_in_bounds w b Hb) as (c2 & -> & _). simpl.
  destruct (decide (c1 = c2)); [by eexists|done].
Qed.

Lemma overlap_possible_not_IndexError a b v ys :
  a < String.length v → Forall (λ w, b < String.length w) ys →
  overlap_possible a b v ys ≠ Raise IndexError.
Proof.
  intros Ha Hb. destruct (overlap_possible_safe a b v ys Ha Hb) as [r ->]. done.
Qed.

Lemma Exists_elements_set (P : string → Prop) (d : gset string) :
  Exists P (elements d) ↔ set_Exists P d.
Proof.
  rewrite Exists_exists. unfold set_Exists.
  split; intros (w & Hw & HP); exists w; split; try done;
    by apply elem_of_elements.
Qed.

(** The outer loop reads the state and adds the unsupported words. *)
Lemma revise_scan_Ok a b y xs acc s r s' :
  revise_scan a b y xs acc s = (Ok r, s') →
  s' = s ∧
  (xs = [] ∨ ∃ dy, domains s !! y = Some dy ∧
     r = acc ∪ list_to_set (filter (λ v, ¬ set_Exists (supports a b v) dy) xs))
  ∧ (xs = [] → r = acc).
Proof.
  revert acc. induction xs as [|v xs IH]; intros acc; simpl.
  - intros [= <- <-]. auto.
  - intros H. apply bind_inv_Ok in H as (dy & s1 & Hdy & H).
    unfold domain_of in Hdy. destruct (domains s !! y) as [dy'|] eqn:Hy; [|done].
    injection Hdy as <- <-.
    apply bind_inv_Ok in H as (p & s1 & Hp & H).
    unfold lift in Hp. injection Hp as Hp <-.
    apply overlap_possible_Ok in Hp. rewrite Exists_elements_set in Hp.
    apply IH in H as (-> & Hr & Hnil). split; [done|]. split; [|done].
    right. exists dy'. split; [done|].
    assert (r = (if p then acc else acc ∪ {[v]})
                ∪ list_to_set (filter (λ v, ¬ set_Exists (supports a b v) dy') xs))
      as ->.
    { destruct Hr as [->|(dy2 & Hdy2 & ->)].
      - rewrite Hnil by done. simpl. set_solver.
      - by simplify_eq. }
    destruct p.
    + rewrite filter_cons_False; [done|]. intros Hn. apply Hn. by apply Hp.
    + rewrite filter_cons_True; [simpl; set_solver|].
      intros He. apply Hp in He. done.
Qed.

Lemma revise_scan_safe a b y xs acc s dy :
  domains s !! y = Some dy →
  Forall (λ v, a < String.length v) xs →
  set_Forall (λ w, b < String.length w) dy →
  ∃ r, revise_scan a b y xs acc s = (Ok r, s).
Proof.
  intros Hy Hxs Hdy. revert acc.
  induction Hxs as [|v xs Ha _ IH]; intros acc; simpl; [by eexists|].
  erewrite bind_Ok; last by (unfold domain_of; rewrite Hy).
  destruct (overlap_possible_safe a b v (elements dy) Ha) as [p Hp].
  { apply Forall_forall. intros w Hw. apply Hdy. by apply elem_of_elements. }
  erewrite bind_Ok; last by (unfold lift; rewrite Hp).
  apply IH.
Qed.

Lemma revise_scan_not_IndexError a b y xs acc s :
  Forall (λ v, a < String.length v) xs →
  (∀ dy, domains s !! y = Some dy → set_Forall (λ w, b < String.length w) dy) →
  (revise_scan a b y xs acc s).1 ≠ Raise IndexError.
Proof.
  intros Hxs Hdy. destruct (domains s !! y) as [dy|] eqn:Hy.
  - destruct (revise_scan_safe a b y xs acc s dy Hy Hxs (Hdy _ eq_refl)) as [r ->].
    done.
  - destruct xs as [|v xs]; simpl; [done|].
    erewrite bind_Raise; last by (unfold domain_of; rewrite Hy). done.
Qed.

Lemma unsupported_difference a b (dx dy : gset string) :
  dx ∖ list_to_set (filter (λ v, ¬ set_Exists (supports a b v) dy) (elements dx))
  = supported a b dx dy.
Proof.
  apply set_eq. intros v. unfold supported.
  rewrite elem_of_difference, elem_of_filter, elem_of_list_to_set,
    list_elem_of_filter, elem_of_elements.
  destruct (decide (set_Exists (supports a b v) dy)); naive_solver.
Qed.

Lemma unsupported_empty a b (dx dy : gset string) :
  list_to_set (C:=gset string)
    (filter (λ v, ¬ set_Exists (supports a b v) dy) (elements dx)) = ∅
  ↔ supported a b dx dy = dx.
Proof.
  rewrite <- unsupported_difference. split.
  - intros ->. set_solver.
  - intros H. apply set_eq. intros v. split; [|set_solver].
    rewrite elem_of_list_to_set, list_elem_of_filter, elem_of_elements.
    intros [Hn Hv]. assert (v ∈ dx ∖ list_to_set
      (filter (λ v, ¬ set_Exists (supports a b v) dy) (elements dx))) as Hv'
      by (by rewrite H).
    apply elem_of_difference in Hv' as [_ Hv'']. exfalso. apply Hv''.
    rewrite elem_of_list_to_set, list_elem_of_filter, elem_of_elements. done.
Qed.

(** What [revise] does whenever it returns. *)
Lemma revise_Ok cw x y s r s' dx dy :
  domains s !! x = Some dx → domains s !! y = Some dy →
  revise cw x y s = (Ok r, s') →
  match overlaps cw !! (x, y) with
  | Some (Some (a, b)) =>
      s' = with_domains (insert x (supported a b dx dy)) s
      ∧ (r = true ↔ supported a b dx dy ≠ dx)
  | Some None => s' = s ∧ r = false
  | None => False
  end.
Proof.
  intros Hx Hy. unfold revise, overlaps_get.
  destruct (overlaps cw !! (x, y)) as [[[a b]|]|] eqn:Ho; simpl.
  - intros H. apply bind_inv_Ok in H as (o & s0 & [= <- <-] & H).
    apply bind_inv_Ok in H as (dx' & s1 & Hdx & H).
    unfold domain_of in Hdx. rewrite Hx in Hdx. injection Hdx as <- <-.
    apply bind_inv_Ok in H as (rem & s1 & Hscan & H).
    apply revise_scan_Ok in Hscan as (-> & Hrem & Hnil).
    assert (rem = list_to_set
              (filter (λ v, ¬ set_Exists (supports a b v) dy) (elements dx)))
      as Hrem'.
    { destruct Hrem as [Hel|(dy' & Hdy' & ->)].
      - rewrite Hel. simpl. by apply Hnil.
      - simplify_eq. set_solver. }
    clear Hrem Hnil.
    destruct (decide (rem ≠ ∅)) as [Hne|He].
    + apply bind_inv_Ok in H as ([] & s1 & Hsub & [= <- <-]).
      unfold domain_subtract in Hsub.
      erewrite bind_Ok in Hsub; last by (unfold domain_of; rewrite Hx).
      injection Hsub as <-. subst rem. rewrite unsupported_difference.
      split; [done|]. split; [|done]. intros _ Hs. apply Hne.
      by apply unsupported_empty.
    + injection H as <- <-.
      assert (rem = ∅) as He' by (by apply dec_stable).
      rewrite Hrem' in He'. apply unsupported_empty in He'. rewrite He'.
      split; [by rewrite with_domains_id|]. split; [done|]. intros H; by destruct H.
  - intros H. apply bind_inv_Ok in H as (o & s0 & [= <- <-] & H).
    by injection H as <- <-.
  - intros H. apply bind_inv_Ok in H as (o & s0 & [=] & H).
Qed.

(** ** Domains that shrink *)

Lemma supported_subseteq a b (dx dy : gset string) : supported a b dx dy ⊆ dx.
Proof. unfold supported. intros v. rewrite elem_of_filter. tauto. Qed.

Lemma revised_subseteq cw x y (dx dy : gset string) : revised cw x y dx dy ⊆ dx.
Proof.
  unfold revised. destruct (overlaps cw !! (x, y)) as [[[a b]|]|]; try done.
  apply supported_subseteq.
Qed.

Lemma total_size_insert (D : gmap Var (gset string)) x (dx d' : gset string) :
  D !! x = Some dx →
  total_size (<[x:=d']> D) + size dx = total_size D + size d'.
Proof.
  intros Hx. unfold total_size.
  rewrite <- (map_to_list_delete D x dx Hx).
  rewrite <- insert_delete_eq.
  rewrite (map_to_list_insert (delete x D) x d') by apply lookup_delete_eq.
  simpl. lia.
Qed.

Lemma node_consistent_insert s x (dx d' : gset string) :
  node_consistent s → domains s !! x = Some dx → d' ⊆ dx →
  node_consistent (with_domains (insert x d') s).
Proof.
  unfold node_consistent. intros Hn Hx Hsub. simpl.
  apply map_Forall_insert_2; [|done].
  intros w Hw. apply (Hn x dx Hx). by apply Hsub.
Qed.

Lemma domains_cover_insert cw s x (d' : gset string) :
  domains_cover cw s → domains_cover cw (with_domains (insert x d') s).
Proof.
  intros Hc v Hv. simpl. destruct (decide (x = v)) as [->|Hne].
  - rewrite lookup_insert_eq. by eexists.
  - rewrite lookup_insert_ne by done. by apply Hc.
Qed.

Section Wellformed.
Context (cw : Crossword).
Hypothesis Hbounds : overlaps_in_bounds cw.
Hypothesis Htotal : overlaps_total cw.

(** On node-consistent domains and between distinct slots [revise]
    returns, with the domain of [x] cut down to its supported words. *)
Lemma revise_good x y s :
  node_consistent s → domains_cover cw s →
  x ∈ variables cw → y ∈ variables cw → x ≠ y →
  ∃ r dx dy,
    domains s !! x = Some dx ∧ domains s !! y = Some dy
    ∧ revise cw x y s
      = (Ok r, with_domains (insert x (revised cw x y dx dy)) s)
    ∧ (r = true ↔ revised cw x y dx dy ≠ dx).
Proof using Hbounds Htotal.
  intros Hn Hc Hx Hy Hxy.
  destruct (Hc x Hx) as [dx Hdx]. destruct (Hc y Hy) as [dy Hdy].
  destruct (Htotal x Hx y Hy Hxy) as [o Ho].
  assert (∃ r s', revise cw x y s = (Ok r, s')) as (r & s' & Hrev).
  { unfold revise, overlaps_get. rewrite Ho.
    erewrite bind_Ok; last reflexivity.
    destruct o as [[a b]|]; [|by eexists _, _].
    pose proof (Hbounds (x, y) _ Ho) as [Ha Hb]. simpl in Ha, Hb.
    erewrite bind_Ok; last by (unfold domain_of; rewrite Hdx).
    destruct (revise_scan_safe a b y (elements dx) ∅ s dy Hdy) as [rem Hrem].
    { apply Forall_forall. intros v Hv. apply elem_of_elements in Hv.
      pose proof (Hn x dx Hdx v Hv) as Hf. unfold fits in Hf. lia. }
    { intros w Hw. pose proof (Hn y dy Hdy w Hw) as Hf. unfold fits in Hf. lia. }
    erewrite bind_Ok; last exact Hrem.
    destruct (decide (rem ≠ ∅)); [|by eexists _, _].
    erewrite bind_Ok; last first.
    { unfold domain_subtract.
      erewrite bind_Ok; last by (unfold domain_of; rewrite Hdx).
      reflexivity. }
    by eexists _, _. }
  exists r, dx, dy. split; [done|]. split; [done|].
  pose proof (revise_Ok cw x y s r s' dx dy Hdx Hdy Hrev) as Hspec.
  unfold revised. rewrite Ho in Hspec |- *.
  destruct o as [[a b]|].
  - destruct Hspec as [-> Hr]. by rewrite Hrev.
  - destruct Hspec as [-> ->]. rewrite Hrev, with_domains_id by done.
    split; [done|]. split; [done|]. intros H; by destruct H.
Qed.

(** ** The loop of [ac3] and its runs *)

Lemma ac3_loop_run fuel queue s b s' :
  ac3_loop cw fuel queue s = (Ok b, s') → ac3_run cw queue s b s'.
Proof.
  revert queue s. induction fuel as [|fuel IH]; intros queue s; simpl; [done|].
  destruct queue as [|[x y] rest].
  - intros [= <- <-]. constructor.
  - intros H. apply bind_inv_Ok in H as (r & s1 & Hrev & H).
    destruct r.
    + apply bind_inv_Ok in H as (dx & s2 & Hdx & H).
      unfold domain_of in Hdx.
      destruct (domains s1 !! x) as [dx'|] eqn:Hx1; [|done].
      injection Hdx as <- <-.
      destruct (decide (size dx' = 0)) as [Hz|Hnz].
      * injection H as <- <-. eapply ac3_run_emptied; eauto.
      * eapply ac3_run_revised; eauto.
    + eapply ac3_run_unrevised; eauto.
Qed.

Lemma neighbors_variables x z : z ∈ neighbors cw x → z ∈ variables cw ∧ z ≠ x.
Proof. unfold neighbors. rewrite elem_of_filter. tauto. Qed.

Lemma size_neighbors_le x y :
  length (elements (neighbors cw x ∖ {[y]})) ≤ size (variables cw).
Proof.
  change (size (neighbors cw x ∖ {[y]}) ≤ size (variables cw)).
  apply subseteq_size. intros z Hz.
  apply elem_of_difference in Hz as [Hz _]. by apply neighbors_variables in Hz as [? ?].
Qed.

Lemma valid_arcs_push x y rest :
  valid_arcs cw ((x, y) :: rest) →
  valid_arcs cw
    (rest ++ ((λ z, (z, x)) <$> elements (neighbors cw x ∖ {[y]}))).
Proof.
  unfold valid_arcs. intros Hv. inversion Hv as [|? ? [Hx _] Hrest]; subst.
  apply Forall_app. split; [done|].
  apply Forall_forall. intros [z x'] Hz.
  apply list_elem_of_fmap in Hz as (z' & [= -> ->] & Hz).
  apply elem_of_elements, elem_of_difference in Hz as [Hz _].
  apply neighbors_variables in Hz as [Hz Hne]. simpl in *. done.
Qed.

(** The loop stops within [ac3_fuel] iterations. *)
Lemma ac3_loop_terminates fuel queue s :
  node_consistent s → domains_cover cw s → valid_arcs cw queue →
  length queue + size (variables cw) * total_size (domains s) < fuel →
  ∃ b s', ac3_loop cw fuel queue s = (Ok b, s').
Proof using Hbounds Htotal.
  revert queue s. induction fuel as [|fuel IH]; intros queue s Hn Hc Hq Hf;
    [lia|].
  simpl. destruct queue as [|[x y] rest]; [by eexists _, _|].
  pose proof Hq as Hq'.
  inversion Hq' as [|? ? (Hx & Hy & Hxy) Hrest]; subst. simpl in *.
  destruct (revise_good x y s Hn Hc Hx Hy Hxy)
    as (r & dx & dy & Hdx & Hdy & Hrev & Hr).
  pose proof (revised_subseteq cw x y dx dy) as Hsub.
  pose proof (total_size_insert (domains s) x dx (revised cw x y dx dy) Hdx)
    as Hsize.
  pose proof (subseteq_size _ _ Hsub) as Hle.
  erewrite bind_Ok; last exact Hrev.
  destruct r.
  - erewrite bind_Ok; last by (unfold domain_of; simpl; rewrite lookup_insert_eq).
    destruct (decide (size (revised cw x y dx dy) = 0)); [by eexists _, _|].
    apply IH.
    + by eapply node_consistent_insert.
    + by apply domains_cover_insert.
    + by apply valid_arcs_push.
    + assert (revised cw x y dx dy ⊂ dx) as Hstrict.
      { split; [done|]. intros Hsup. apply Hr; [done|]. set_solver. }
      apply subset_size in Hstrict.
      rewrite length_app, length_fmap. simpl.
      pose proof (size_neighbors_le x y). nia.
  - apply IH.
    + by eapply node_consistent_insert.
    + by apply domains_cover_insert.
    + done.
    + simpl. nia.
Qed.
End Wellformed.

Lemma dom_at_insert (D : gmap Var (gset string)) x d v :
  dom_at (<[x:=d]> D) v = if decide (x = v) then d else dom_at D v.
Proof.
  unfold dom_at. destruct (decide (x = v)) as [->|Hne].
  - by rewrite lookup_insert_eq.
  - by rewrite lookup_insert_ne.
Qed.

Lemma dom_at_Some (D : gmap Var (gset string)) x d :
  D !! x = Some d → dom_at D x = d.
Proof. unfold dom_at. by intros ->. Qed.

Lemma supported_fixed a b (dx dy : gset string) :
  supported a b dx dy = dx ↔ set_Forall (λ v, set_Exists (supports a b v) dy) dx.
Proof.
  unfold supported. split.
  - intros H v Hv. rewrite <- H in Hv. by apply elem_of_filter in Hv as [? _].
  - intros H. apply set_eq. intros v. rewrite elem_of_filter. naive_solver.
Qed.

Lemma revised_fixed cw x y D dx dy :
  D !! x = Some dx → D !! y = Some dy →
  revised cw x y dx dy = dx ↔ arc_consistent cw D x y.
Proof.
  intros Hx Hy. unfold revised, arc_consistent.
  rewrite (dom_at_Some D x dx Hx), (dom_at_Some D y dy Hy).
  destruct (overlaps cw !! (x, y)) as [[[a b]|]|]; try done.
  apply supported_fixed.
Qed.

Section Runs.
Context (cw : Crossword).
Hypothesis Hbounds : overlaps_in_bounds cw.
Hypothesis Htotal : overlaps_total cw.

(** Induction on the runs that start from node-consistent domains: each
    revision is known to cut [x]'s domain down to [revised]. *)
Lemma ac3_run_good_ind (P : list (Var * Var) → state → bool → state → Prop) :
  (∀ s, P [] s true s) →
  (∀ x y rest s dx dy b s',
      node_consistent s → domains_cover cw s →
      valid_arcs cw ((x, y) :: rest) →
      domains s !! x = Some dx → domains s !! y = Some dy →
      revised cw x y dx dy = dx →
      ac3_run cw rest s b s' → P rest s b s' →
      P ((x, y) :: rest) s b s') →
  (∀ x y rest s dx dy,
      node_consistent s → domains_cover cw s →
      valid_arcs cw ((x, y) :: rest) →
      domains s !! x = Some dx → domains s !! y = Some dy →
      revised cw x y dx dy ≠ dx → revised cw x y dx dy = ∅ →
      P ((x, y) :: rest) s false
        (with_domains (insert x (revised cw x y dx dy)) s)) →
  (∀ x y rest s dx dy b s',
      node_consistent s → domains_cover cw s →
      valid_arcs cw ((x, y) :: rest) →
      domains s !! x = Some dx → domains s !! y = Some dy →
      revised cw x y dx dy ≠ dx → revised cw x y dx dy ≠ ∅ →
      let s1 := with_domains (insert x (revised cw x y dx dy)) s in
      let queue := rest ++ ((λ z, (z, x)) <$> elements (neighbors cw x ∖ {[y]})) in
      ac3_run cw queue s1 b s' → P queue s1 b s' →
      P ((x, y) :: rest) s b s') →
  ∀ queue s b s',
    ac3_run cw queue s b s' →
    node_consistent s → domains_cover cw s → valid_arcs cw queue →
    P queue s b s'.
Proof using Hbounds Htotal.
  intros Hempty Hunrev Hemptied Hrev queue s b s' Hrun.
  induction Hrun as [s|x y rest s s1 b s' Hr Hrun IH|x y rest s s1 dx1 Hr Hd Hz
                     |x y rest s s1 dx1 b s' Hr Hd Hnz Hrun IH];
    intros Hn Hc Hq.
  - apply Hempty.
  - pose proof Hq as Hq'.
    inversion Hq' as [|? ? (Hx & Hy & Hxy) Hrest]; subst. simpl in *.
    destruct (revise_good cw Hbounds Htotal x y s Hn Hc Hx Hy Hxy)
      as (r & dx & dy & Hdx & Hdy & Hrev' & Hiff).
    rewrite Hr in Hrev'. injection Hrev' as <- ->.
    assert (revised cw x y dx dy = dx) as Hfix.
    { apply dec_stable. intros Hne. apply Hiff in Hne. done. }
    rewrite Hfix, with_domains_id in Hrun, IH by done.
    eapply Hunrev; eauto.
  - pose proof Hq as Hq'.
    inversion Hq' as [|? ? (Hx & Hy & Hxy) Hrest]; subst. simpl in *.
    destruct (revise_good cw Hbounds Htotal x y s Hn Hc Hx Hy Hxy)
      as (r & dx & dy & Hdx & Hdy & Hrev' & Hiff).
    rewrite Hr in Hrev'. injection Hrev' as <- ->.
    simpl in Hd. rewrite lookup_insert_eq in Hd. injection Hd as <-.
    apply size_empty_iff, leibniz_equiv in Hz.
    eapply Hemptied; eauto. by apply Hiff.
  - pose proof Hq as Hq'.
    inversion Hq' as [|? ? (Hx & Hy & Hxy) Hrest]; subst. simpl in *.
    destruct (revise_good cw Hbounds Htotal x y s Hn Hc Hx Hy Hxy)
      as (r & dx & dy & Hdx & Hdy & Hrev' & Hiff).
    rewrite Hr in Hrev'. injection Hrev' as <- ->.
    simpl in Hd. rewrite lookup_insert_eq in Hd. injection Hd as <-.
    assert (revised cw x y dx dy ≠ ∅) as Hne.
    { intros He. apply Hnz. rewrite He. apply size_empty. }
    eapply Hrev; eauto; [by apply Hiff|].
    apply IH.
    + eapply node_consistent_insert; eauto. apply revised_subseteq.
    + by apply domains_cover_insert.
    + by apply valid_arcs_push.
Qed.

(** A run only shrinks domains, and touches nothing else. *)
Lemma ac3_run_shrinks queue s b s' :
  ac3_run cw queue s b s' →
  node_consistent s → domains_cover cw s → valid_arcs cw queue →
  heap s' = heap s ∧ backtrack_calls s' = backtrack_calls s
  ∧ (∀ v, is_Some (domains s' !! v) ↔ is_Some (domains s !! v))
  ∧ (∀ v, dom_at (domains s') v ⊆ dom_at (domains s) v).
Proof using Hbounds Htotal.
  revert queue s b s'.
  apply (ac3_run_good_ind (λ queue s b s',
    heap s' = heap s ∧ backtrack_calls s' = backtrack_calls s
    ∧ (∀ v, is_Some (domains s' !! v) ↔ is_Some (domains s !! v))
    ∧ (∀ v, dom_at (domains s') v ⊆ dom_at (domains s) v))).
  - done.
  - done.
  - intros x y rest s dx dy Hn Hc Hq Hdx Hdy Hne He. simpl.
    repeat split; try done.
    + destruct (decide (x = v)) as [->|]; [rewrite lookup_insert_eq|
        by rewrite lookup_insert_ne]. by rewrite Hdx.
    + destruct (decide (x = v)) as [->|]; [rewrite lookup_insert_eq|
        by rewrite lookup_insert_ne]. done.
    + intros v. rewrite dom_at_insert. case_decide; [|done]. subst.
      rewrite (dom_at_Some _ _ _ Hdx). apply revised_subseteq.
  - intros x y rest s dx dy b s' Hn Hc Hq Hdx Hdy Hne Hne' s1 queue Hrun
      (Hh & Hcalls & Hkeys & Hsub).
    repeat split; try done.
    + rewrite Hkeys. subst s1. simpl.
      destruct (decide (x = v)) as [->|]; [rewrite lookup_insert_eq|
        by rewrite lookup_insert_ne]. by rewrite Hdx.
    + rewrite Hkeys. subst s1. simpl.
      destruct (decide (x = v)) as [->|]; [rewrite lookup_insert_eq|
        by rewrite lookup_insert_ne]. done.
    + intros v. etrans; [apply Hsub|]. subst s1. simpl.
      rewrite dom_at_insert. case_decide; [|done]. subst.
      rewrite (dom_at_Some _ _ _ Hdx). apply revised_subseteq.
Qed.

(** [False] comes from a revision that empties a domain; [True] leaves
    every domain that had a word with a word. *)
Lemma ac3_run_result queue s b s' :
  ac3_run cw queue s b s' →
  node_consistent s → domains_cover cw s → valid_arcs cw queue →
  if b then ∀ v, dom_at (domains s) v ≠ ∅ → dom_at (domains s') v ≠ ∅
  else ∃ v, dom_at (domains s) v ≠ ∅ ∧ dom_at (domains s') v = ∅.
Proof using Hbounds Htotal.
  revert queue s b s'.
  apply (ac3_run_good_ind (λ queue s b s',
    if b then ∀ v, dom_at (domains s) v ≠ ∅ → dom_at (domains s') v ≠ ∅
    else ∃ v, dom_at (domains s) v ≠ ∅ ∧ dom_at (domains s') v = ∅)).
  - done.
  - done.
  - intros x y rest s dx dy Hn Hc Hq Hdx Hdy Hne He. exists x. simpl.
    rewrite dom_at_insert, decide_True by done.
    rewrite (dom_at_Some _ _ _ Hdx). split; [|done]. congruence.
  - intros x y rest s dx dy b s' Hn Hc Hq Hdx Hdy Hne Hne' s1 queue Hrun IH.
    assert (∀ v, dom_at (domains s1) v
                 = if decide (x = v) then revised cw x y dx dy
                   else dom_at (domains s) v) as Hs1.
    { intros v. subst s1. simpl. apply dom_at_insert. }
    destruct b.
    + intros v Hv. apply IH. rewrite Hs1. by case_decide.
    + destruct IH as (v & Hv & Hv'). exists v. split; [|done].
      rewrite Hs1 in Hv. case_decide; [|done]. subst.
      rewrite (dom_at_Some _ _ _ Hdx). intros ->.
      pose proof (revised_subseteq cw v y ∅ dy). set_solver.
Qed.

(** Domains that are arc consistent below the start stay below the run. *)
Lemma ac3_run_above (F : gmap Var (gset string)) queue s b s' :
  ac3_run cw queue s b s' →
  node_consistent s → domains_cover cw s → valid_arcs cw queue →
  (∀ x y, x ∈ variables cw → y ∈ variables cw → x ≠ y →
          arc_consistent cw F x y) →
  (∀ v, dom_at F v ⊆ dom_at (domains s) v) →
  ∀ v, dom_at F v ⊆ dom_at (domains s') v.
Proof using Hbounds Htotal.
  intros Hrun Hn Hc Hq HF. revert queue s b s' Hrun Hn Hc Hq.
  assert (∀ x y s dx dy,
    valid_arcs cw [(x, y)] →
    domains s !! x = Some dx → domains s !! y = Some dy →
    (∀ v, dom_at F v ⊆ dom_at (domains s) v) →
    ∀ v, dom_at F v
         ⊆ dom_at (domains (with_domains (insert x (revised cw x y dx dy)) s)) v)
    as Hstep.
  { intros x y s dx dy Hq Hdx Hdy Hle v. simpl. rewrite dom_at_insert.
    case_decide; [subst v|apply Hle].
    inversion Hq as [|? ? (Hx & Hy & Hxy) _]; subst. simpl in *.
    specialize (HF x y Hx Hy Hxy). unfold arc_consistent in HF.
    unfold revised. pose proof (Hle x) as Hlx. pose proof (Hle y) as Hly.
    rewrite (dom_at_Some _ _ _ Hdx) in Hlx.
    rewrite (dom_at_Some _ _ _ Hdy) in Hly.
    destruct (overlaps cw !! (x, y)) as [[[a b0]|]|]; try done.
    intros v Hv. unfold supported. apply elem_of_filter. split; [|by apply Hlx].
    destruct (HF v Hv) as (w & Hw & Hsup). exists w. split; [by apply Hly|done]. }
  apply (ac3_run_good_ind (λ queue s b s',
    (∀ v, dom_at F v ⊆ dom_at (domains s) v) →
    ∀ v, dom_at F v ⊆ dom_at (domains s') v)).
  - done.
  - intros x y rest s dx dy b s' Hn Hc Hq Hdx Hdy Hfix Hrun IH Hle. by apply IH.
  - intros x y rest s dx dy Hn Hc Hq Hdx Hdy Hne He Hle.
    apply (Hstep x y s dx dy); try done.
    inversion Hq; subst. by constructor.
  - intros x y rest s dx dy b s' Hn Hc Hq Hdx Hdy Hne Hne' s1 queue Hrun IH Hle.
    apply IH. apply (Hstep x y s dx dy); try done.
    inversion Hq; subst. by constructor.
Qed.
End Runs.

Lemma supports_sym a b v w : supports a b v w → supports b a w v.
Proof. intros [Hne (c & Hv & Hw)]. split; [done|]. eauto. Qed.

Lemma arc_consistent_shrink cw (D1 D2 : gmap Var (gset string)) x y :
  dom_at D2 x ⊆ dom_at D1 x → dom_at D2 y = dom_at D1 y →
  arc_consistent cw D1 x y → arc_consistent cw D2 x y.
Proof.
  unfold arc_consistent. intros Hx Hy.
  destruct (overlaps cw !! (x, y)) as [[[a b]|]|]; try done.
  rewrite Hy. intros H v Hv. apply H. by apply Hx.
Qed.

Section Consistency.
Context (cw : Crossword).
Hypothesis Hbounds : overlaps_in_bounds cw.
Hypothesis Htotal : overlaps_total cw.
Hypothesis Hsym : overlaps_symmetric cw.

Lemma pending_revised x y rest s dx dy :
  valid_arcs cw ((x, y) :: rest) →
  domains s !! x = Some dx → domains s !! y = Some dy →
  pending cw ((x, y) :: rest) s →
  pending cw
    (rest ++ ((λ z, (z, x)) <$> elements (neighbors cw x ∖ {[y]})))
    (with_domains (insert x (revised cw x y dx dy)) s).
Proof using Hsym.
  clear Hbounds Htotal. intros Hq Hdx Hdy Hp p q Hpv Hqv Hpq.
  inversion Hq as [|? ? (Hx & Hy & Hxy) _]; subst. simpl in *.
  pose proof (revised_subseteq cw x y dx dy) as Hsub.
  set (D1 := <[x:=revised cw x y dx dy]> (domains s)).
  assert (∀ v, v ≠ x → dom_at D1 v = dom_at (domains s) v) as Hother.
  { intros v Hv. unfold D1. rewrite dom_at_insert, decide_False; done. }
  assert (dom_at D1 x = revised cw x y dx dy) as Hatx.
  { unfold D1. by rewrite dom_at_insert, decide_True. }
  destruct (decide (q = x)) as [->|Hqx].
  - (* arcs into [x] *)
    destruct (decide (p = y)) as [->|Hpy].
    + destruct (Hp y x Hpv Hqv Hpq) as [Hin|Hac].
      * left. apply elem_of_app. left.
        apply elem_of_cons in Hin as [[= ? ?]|Hin]; [congruence|done].
      * right. unfold arc_consistent in *.
        destruct (overlaps cw !! (y, x)) as [[[b a]|]|] eqn:Hyx; try done.
        pose proof (Hsym (y, x) _ Hyx) as Hxy'. simpl in Hxy'.
        rewrite Hatx, (Hother y) by done. unfold revised. rewrite Hxy'.
        rewrite (dom_at_Some _ _ _ Hdx), (dom_at_Some _ _ _ Hdy) in Hac.
        rewrite (dom_at_Some _ _ _ Hdy).
        intros w Hw. destruct (Hac w Hw) as (v & Hv & Hsup).
        exists v. split; [|done]. unfold supported. apply elem_of_filter.
        split; [|done]. exists w. split; [done|]. by apply supports_sym.
    + destruct (overlaps cw !! (p, x)) as [[[a b]|]|] eqn:Hpx.
      * left. apply elem_of_app. right.
        apply list_elem_of_fmap. exists p. split; [done|].
        apply elem_of_elements, elem_of_difference. split; [|set_solver].
        unfold neighbors. apply elem_of_filter. split; [|done].
        split; [done|]. unfold shares_cell. by rewrite Hpx.
      * right. unfold arc_consistent. by rewrite Hpx.
      * right. unfold arc_consistent. by rewrite Hpx.
  - destruct (Hp p q Hpv Hqv Hpq) as [Hin|Hac].
    + apply elem_of_cons in Hin as [[= -> ->]|Hin].
      * (* the arc just revised *)
        right. unfold arc_consistent.
        rewrite Hatx, (Hother y) by done. rewrite (dom_at_Some _ _ _ Hdy).
        unfold revised.
        destruct (overlaps cw !! (x, y)) as [[[a b]|]|]; try done.
        intros v Hv. unfold supported in Hv. by apply elem_of_filter in Hv as [? _].
      * left. apply elem_of_app. by left.
    + right. eapply arc_consistent_shrink; [| |exact Hac].
      * destruct (decide (p = x)) as [->|Hpx].
        -- rewrite Hatx, (dom_at_Some _ _ _ Hdx). done.
        -- by rewrite Hother.
      * by rewrite Hother.
Qed.

(** When the loop runs to the end of the queue, every arc that was waiting
    has been made consistent and none has been broken. *)
Lemma ac3_run_consistent queue s s' :
  ac3_run cw queue s true s' →
  node_consistent s → domains_cover cw s → valid_arcs cw queue →
  pending cw queue s →
  ∀ x y, x ∈ variables cw → y ∈ variables cw → x ≠ y →
         arc_consistent cw (domains s') x y.
Proof using Hbounds Htotal Hsym.
  intros Hrun Hn Hc Hq. remember true as b eqn:Hb.
  revert Hb. revert queue s b s' Hrun Hn Hc Hq.
  apply (ac3_run_good_ind cw Hbounds Htotal (λ queue s b s',
    b = true → pending cw queue s →
    ∀ x y, x ∈ variables cw → y ∈ variables cw → x ≠ y →
           arc_consistent cw (domains s') x y)).
  - intros s _ Hp x y Hx Hy Hxy.
    destruct (Hp x y Hx Hy Hxy) as [Hin|]; [|done]. by apply elem_of_nil in Hin.
  - intros x y rest s dx dy b s' Hn Hc Hq Hdx Hdy Hfix Hrun IH Hb Hp.
    apply IH; [done|]. intros p q Hpv Hqv Hpq.
    destruct (Hp p q Hpv Hqv Hpq) as [Hin|Hac]; [|by right].
    apply elem_of_cons in Hin as [[= -> ->]|Hin]; [|by left].
    right. by apply (revised_fixed cw x y (domains s) dx dy).
  - done.
  - intros x y rest s dx dy b s' Hn Hc Hq Hdx Hdy Hne Hne' s1 queue Hrun IH Hb Hp.
    apply IH; [done|]. by apply pending_revised.
Qed.

Lemma all_arcs_spec x y :
  (x, y) ∈ all_arcs cw ↔ x ∈ variables cw ∧ y ∈ neighbors cw x.
Proof.
  unfold all_arcs. rewrite list_elem_of_bind. split.
  - intros (v & Hin & Hv). apply list_elem_of_fmap in Hin as (z & Heq & Hz).
    injection Heq as -> ->. apply elem_of_elements in Hv, Hz. done.
  - intros [Hx Hy]. exists x. split; [|by apply elem_of_elements].
    apply list_elem_of_fmap. exists y. split; [done|by apply elem_of_elements].
Qed.

Lemma all_arcs_valid : valid_arcs cw (all_arcs cw).
Proof.
  apply Forall_forall. intros [x y] Hxy. apply all_arcs_spec in Hxy as [Hx Hy].
  apply neighbors_variables in Hy as [Hy Hne]. simpl. done.
Qed.

(** A queue that holds every arc of the problem leaves nothing unchecked. *)
Lemma pending_full queue s :
  (∀ xy, xy ∈ all_arcs cw → xy ∈ queue) → pending cw queue s.
Proof using Hsym.
  clear Hbounds Htotal. intros Hfull x y Hx Hy Hxy. unfold arc_consistent.
  destruct (overlaps cw !! (x, y)) as [[[a b]|]|] eqn:Ho; auto.
  left. apply Hfull, all_arcs_spec. split; [done|].
  unfold neighbors. apply elem_of_filter. split; [|done]. split; [done|].
  pose proof (Hsym (x, y) _ Ho) as Hyx. simpl in Hyx.
  unfold shares_cell. by rewrite Hyx.
Qed.
End Consistency.

(** ** [ac3] as a whole *)

Lemma ac3_returns cw arcs s :
  overlaps_in_bounds cw → overlaps_total cw →
  node_consistent s → domains_cover cw s →
  valid_arcs cw (ac3_queue cw arcs) →
  ∃ b s', ac3 cw arcs s = (Ok b, s')
          ∧ ac3_run cw (ac3_queue cw arcs) s b s'.
Proof.
  intros Hb Ht Hn Hc Hq.
  destruct (ac3_loop_terminates cw Hb Ht
              (ac3_fuel cw (ac3_queue cw arcs) s) (ac3_queue cw arcs) s Hn Hc Hq)
    as (b & s' & Hrun); [unfold ac3_fuel; lia|].
  exists b, s'. split; [done|]. by eapply ac3_loop_run.
Qed.

Lemma state_eq s1 s2 :
  domains s1 = domains s2 → heap s1 = heap s2 →
  backtrack_calls s1 = backtrack_calls s2 → s1 = s2.
Proof. destruct s1, s2. simpl. by intros -> -> ->. Qed.

Lemma domains_eq (D1 D2 : gmap Var (gset string)) :
  (∀ v, is_Some (D1 !! v) ↔ is_Some (D2 !! v)) →
  (∀ v, dom_at D1 v = dom_at D2 v) → D1 = D2.
Proof.
  intros Hk Hd. apply map_eq. intros v. specialize (Hk v). specialize (Hd v).
  unfold dom_at in Hd.
  destruct (D1 !! v) as [d1|], (D2 !! v) as [d2|]; simpl in *; try done.
  - by subst.
  - destruct Hk as [Hk _]. by destruct Hk.
  - destruct Hk as [_ Hk]. by destruct Hk.
Qed.

(** Two complete runs from the same domains, both over every arc of the
    problem, end in the same domains. *)
Lemma ac3_run_unique cw q1 q2 s s1 s2 :
  overlaps_in_bounds cw → overlaps_total cw → overlaps_symmetric cw →
  node_consistent s → domains_cover cw s →
  valid_arcs cw q1 → valid_arcs cw q2 →
  (∀ xy, xy ∈ all_arcs cw → xy ∈ q1) → (∀ xy, xy ∈ all_arcs cw → xy ∈ q2) →
  ac3_run cw q1 s true s1 → ac3_run cw q2 s true s2 → s1 = s2.
Proof.
  intros Hb Ht Hsym Hn Hc Hq1 Hq2 Hf1 Hf2 Hr1 Hr2.
  destruct (ac3_run_shrinks cw Hb Ht q1 s true s1 Hr1 Hn Hc Hq1)
    as (Hh1 & Hc1 & Hk1 & Hs1).
  destruct (ac3_run_shrinks cw Hb Ht q2 s true s2 Hr2 Hn Hc Hq2)
    as (Hh2 & Hc2 & Hk2 & Hs2).
  pose proof (ac3_run_consistent cw Hb Ht Hsym q1 s s1 Hr1 Hn Hc Hq1
                (pending_full cw Hsym q1 s Hf1)) as Hac1.
  pose proof (ac3_run_consistent cw Hb Ht Hsym q2 s s2 Hr2 Hn Hc Hq2
                (pending_full cw Hsym q2 s Hf2)) as Hac2.
  pose proof (ac3_run_above cw Hb Ht (domains s1) q2 s true s2 Hr2 Hn Hc Hq2
                Hac1 Hs1) as H12.
  pose proof (ac3_run_above cw Hb Ht (domains s2) q1 s true s1 Hr1 Hn Hc Hq1
                Hac2 Hs2) as H21.
  apply state_eq; [|congruence..].
  apply domains_eq.
  - intros v. by rewrite Hk1, Hk2.
  - intros v. apply set_eq. intros w. split; [apply H12|apply H21].
Qed.

(** A run over every arc cannot fail where another one succeeds. *)
Lemma ac3_run_same_result cw q1 q2 s s1 s2 :
  overlaps_in_bounds cw → overlaps_total cw → overlaps_symmetric cw →
  node_consistent s → domains_cover cw s →
  valid_arcs cw q1 → valid_arcs cw q2 →
  (∀ xy, xy ∈ all_arcs cw → xy ∈ q1) →
  ac3_run cw q1 s true s1 → ac3_run cw q2 s false s2 → False.
Proof.
  intros Hb Ht Hsym Hn Hc Hq1 Hq2 Hf1 Hr1 Hr2.
  destruct (ac3_run_shrinks cw Hb Ht q1 s true s1 Hr1 Hn Hc Hq1)
    as (Hh1 & Hc1 & Hk1 & Hs1).
  pose proof (ac3_run_consistent cw Hb Ht Hsym q1 s s1 Hr1 Hn Hc Hq1
                (pending_full cw Hsym q1 s Hf1)) as Hac1.
  pose proof (ac3_run_above cw Hb Ht (domains s1) q2 s false s2 Hr2 Hn Hc Hq2
                Hac1 Hs1) as H12.
  pose proof (ac3_run_result cw Hb Ht q1 s true s1 Hr1 Hn Hc Hq1) as Hres1.
  destruct (ac3_run_result cw Hb Ht q2 s false s2 Hr2 Hn Hc Hq2)
    as (v & Hv & Hv2).
  apply (Hres1 v Hv). specialize (H12 v). rewrite Hv2 in H12. set_solver.
Qed.

(** ** The search reads the domains and only adds dicts *)

Lemma read_only_ret {A} (a : A) : read_only (ret a).
Proof. done. Qed.

Lemma read_only_lift {A} (o : outcome A) : read_only (lift o).
Proof. done. Qed.

Lemma read_only_bind {A B} (m : M A) (k : A → M B) :
  read_only m → (∀ a, read_only (k a)) → read_only (x <- m ;; k x).
Proof.
  intros Hm Hk s. unfold bind. specialize (Hm s).
  destruct (m s) as [[a| |] s1]; simpl in *; subst; try done. apply Hk.
Qed.

Lemma read_only_domain_of v : read_only (domain_of v).
Proof. intros s. unfold domain_of. by destruct (domains s !! v). Qed.

Lemma read_only_deref r : read_only (deref r).
Proof. done. Qed.

Lemma read_only_inv {A} (m : M A) s o s' : read_only m → m s = (o, s') → s' = s.
Proof. intros Hm Hs. specialize (Hm s). by rewrite Hs in Hm. Qed.

Create HintDb read_only.
#[global] Hint Resolve read_only_ret read_only_lift read_only_domain_of
  read_only_deref : read_only.

Ltac read_only_tac :=
  repeat first
    [ progress eauto with read_only
    | apply read_only_bind; [|intros ?]
    | match goal with
      | |- read_only (if ?b then _ else _) => destruct b
      | |- read_only (match ?o with _ => _ end) => destruct o
      end ].

Lemma read_only_assignment_complete cw r : read_only (assignment_complete cw r).
Proof. unfold assignment_complete. read_only_tac. Qed.

Lemma read_only_consistent cw r : read_only (consistent cw r).
Proof. unfold consistent. read_only_tac. Qed.

Lemma read_only_truthy o : read_only (truthy o).
Proof. unfold truthy. read_only_tac. Qed.

Lemma read_only_ruled_out cw var val var2s t : read_only (ruled_out cw var val var2s t).
Proof. revert t. induction var2s; intros t; simpl; read_only_tac. Qed.

Lemma read_only_lcv_scan cw var ns vals : read_only (lcv_scan cw var ns vals).
Proof.
  induction vals; simpl; read_only_tac. apply read_only_ruled_out.
Qed.

Lemma read_only_order_domain_values cw var r :
  read_only (order_domain_values cw var r).
Proof.
  unfold order_domain_values. read_only_tac. apply read_only_lcv_scan.
Qed.

Lemma read_only_list_of_variables cw a vars :
  read_only (list_of_variables cw a vars).
Proof. induction vars; simpl; read_only_tac. Qed.

Lemma read_only_select_unassigned_variable cw r :
  read_only (select_unassigned_variable cw r).
Proof.
  unfold select_unassigned_variable. read_only_tac.
  apply read_only_list_of_variables.
Qed.

#[global] Hint Resolve read_only_assignment_complete read_only_consistent
  read_only_truthy read_only_order_domain_values
  read_only_select_unassigned_variable : read_only.

Lemma extends_refl s : extends s s.
Proof. by split. Qed.

Lemma extends_trans s1 s2 s3 : extends s1 s2 → extends s2 s3 → extends s1 s3.
Proof. intros [Hd1 Hh1] [Hd2 Hh2]. split; [congruence|by etrans]. Qed.

Lemma extends_lookup s s' h a :
  extends s s' → heap s !! h = Some a → heap s' !! h = Some a.
Proof. intros [_ Hp] Hh. by eapply prefix_lookup_Some. Qed.

Lemma extends_length s s' : extends s s' → length (heap s) ≤ length (heap s').
Proof. intros [_ Hp]. by apply prefix_length. Qed.

Lemma bind_extends {A B} (m : M A) (k : A → M B) s :
  extends s (m s).2 → (∀ a s1, m s = (Ok a, s1) → extends s1 (k a s1).2) →
  extends s ((x <- m ;; k x) s).2.
Proof.
  intros Hm Hk. unfold bind. destruct (m s) as [[a| |] s1] eqn:Hs; simpl in *;
    try done.
  eapply extends_trans; [exact Hm|]. by apply Hk.
Qed.

Lemma read_only_extends {A} (m : M A) s : read_only m → extends s (m s).2.
Proof. intros Hm. rewrite Hm. apply extends_refl. Qed.

(** A fresh copy with one more entry: the dicts that were there stay. *)
Lemma copy_setitem_extends r var val s :
  extends s ((new <- dict_copy r ;; _ <- dict_setitem new var val ;; ret new) s).2.
Proof.
  unfold dict_copy, deref, new_dict, dict_setitem, bind, ret. simpl.
  split; [done|]. simpl.
  rewrite alter_app_r_alt, Nat.sub_diag by lia. by apply prefix_app_r.
Qed.

Lemma copy_setitem_run {A} r var val (k : nat → M A) s :
  (new <- dict_copy r ;; _ <- dict_setitem new var val ;; k new) s
  = k (length (heap s)) (push_dict (dict_set (contents s r) var val) s).
Proof.
  unfold dict_copy, deref, new_dict, dict_setitem, bind, push_dict. simpl.
  rewrite alter_app_r_alt, Nat.sub_diag by lia. done.
Qed.

Lemma push_dict_extends a s : extends s (push_dict a s).
Proof. split; [done|]. simpl. by apply prefix_app_r. Qed.

Lemma push_dict_contents a s : contents (push_dict a s) (length (heap s)) = a.
Proof.
  simpl. rewrite lookup_app_r, Nat.sub_diag by lia. done.
Qed.

Lemma extends_contents s s' r :
  extends s s' → r < length (heap s) → contents s' r = contents s r.
Proof.
  intros He Hr. destruct (lookup_lt_is_Some_2 _ _ Hr) as [a Ha].
  by rewrite (extends_lookup _ _ _ _ He Ha), Ha.
Qed.

(** One turn of the [for val] loop. *)
Lemma try_values_cons cw rec r var val vals s :
  try_values cw rec r var (val :: vals) s
  = let new := length (heap s) in
    let a1 := dict_set (contents s r) var val in
    let s1 := push_dict a1 s in
    match consistent_outer cw a1 a1 with
    | Ok true =>
        match rec new s1 with
        | (Ok result, s2) =>
            if match result with
               | None => false
               | Some r' => bool_decide (contents s2 r' ≠ [])
               end
            then (Ok result, s2)
            else try_values cw rec r var vals s2
        | (Raise e, s2) => (Raise e, s2)
        | (OutOfFuel, s2) => (OutOfFuel, s2)
        end
    | Ok false => try_values cw rec r var vals s1
    | Raise e => (Raise e, s1)
    | OutOfFuel => (OutOfFuel, s1)
    end.
Proof.
  cbn [try_values]. rewrite copy_setitem_run. cbv zeta.
  unfold bind at 1. unfold consistent at 1. unfold bind at 1, deref, lift.
  rewrite push_dict_contents.
  destruct (consistent_outer cw _ _) as [[]| |]; try done.
  unfold bind at 1. destruct (rec _ _) as [[result| |] s2]; try done.
  unfold bind at 1. unfold truthy.
  destruct result as [r'|]; simpl; [|done].
  unfold bind, deref, ret. by destruct (bool_decide _).
Qed.

Section Search.
Context (cw : Crossword).

Lemma try_values_extends rec r var vals s :
  (∀ r s, extends s (rec r s).2) →
  extends s (try_values cw rec r var vals s).2.
Proof.
  intros Hrec. revert s. induction vals as [|val vals IH]; intros s.
  - apply extends_refl.
  - rewrite try_values_cons. cbv zeta.
    set (s1 := push_dict _ s).
    assert (extends s s1) as H1 by apply push_dict_extends.
    destruct (consistent_outer cw _ _) as [[]| |]; try done.
    + pose proof (Hrec (length (heap s)) s1) as H2.
      destruct (rec (length (heap s)) s1) as [[result| |] s2]; simpl in *;
        try by eapply extends_trans.
      destruct (match result with None => false | Some _ => _ end).
      * by eapply extends_trans.
      * eapply extends_trans; [|apply IH]. by eapply extends_trans.
    + eapply extends_trans; [exact H1|apply IH].
Qed.

Lemma enter_backtrack_extends s : extends s (enter_backtrack s).2.
Proof. by split. Qed.

Lemma backtrack_extends fuel r s : extends s (backtrack cw fuel r s).2.
Proof.
  revert r s. induction fuel as [|fuel IH]; intros r s; simpl.
  - apply extends_refl.
  - apply bind_extends; [apply enter_backtrack_extends|]. intros [] s1 _.
    apply bind_extends; [apply read_only_extends; eauto with read_only|].
    intros complete s2 _. destruct complete; [apply extends_refl|].
    apply bind_extends; [apply read_only_extends; eauto with read_only|].
    intros [var|] s3 _; [|apply extends_refl].
    apply bind_extends; [apply read_only_extends; eauto with read_only|].
    intros vals s4 _. by apply try_values_extends.
Qed.

(** *** Soundness *)

Lemma try_values_sound rec r var vals s r' s' :
  (∀ r s, extends s (rec r s).2) →
  (∀ r s r' s', r < length (heap s) → rec r s = (Ok (Some r'), s') →
                returned_ok cw r s' r') →
  r < length (heap s) →
  try_values cw rec r var vals s = (Ok (Some r'), s') →
  r' < length (heap s')
  ∧ complete_items cw (contents s' r') = true
  ∧ consistent_outer cw (contents s' r') (contents s' r') = Ok true.
Proof.
  intros Hext Hrec. revert s. induction vals as [|val vals IH]; intros s Hr.
  - done.
  - rewrite try_values_cons. cbv zeta.
    set (s1 := push_dict _ s). set (new := length (heap s)).
    assert (extends s s1) as H1 by apply push_dict_extends.
    assert (new < length (heap s1)) as Hnew.
    { unfold s1, new. simpl. rewrite length_app. simpl. lia. }
    pose proof (extends_length _ _ H1) as Hlen1.
    assert (contents s1 new = dict_set (contents s r) var val) as Hc1
      by apply push_dict_contents.
    destruct (consistent_outer cw (dict_set (contents s r) var val) _)
      as [[]| |] eqn:Hcons; try done.
    + pose proof (Hext new s1) as H2.
      destruct (rec new s1) as [[result| |] s2] eqn:Hres; simpl in H2;
        try done.
      pose proof (extends_length _ _ H2) as Hlen2.
      destruct result as [r''|].
      * case_bool_decide as Hne.
        -- intros [= -> ->].
           destruct (Hrec new s1 r' s' Hnew Hres) as (Hv & Hcomp & Hc).
           split; [done|]. split; [done|].
           destruct Hc as [->|Hc]; [|done].
           by rewrite (extends_contents s1 s' new H2 Hnew), Hc1.
        -- apply IH. lia.
      * apply IH. lia.
    + apply IH. lia.
Qed.

Lemma backtrack_sound fuel r s r' s' :
  r < length (heap s) →
  backtrack cw fuel r s = (Ok (Some r'), s') → returned_ok cw r s' r'.
Proof.
  revert r s r' s'. induction fuel as [|fuel IH]; intros r s r' s' Hr; simpl;
    [done|].
  intros H. apply bind_inv_Ok in H as ([] & s1 & Henter & H).
  injection Henter as <-.
  apply bind_inv_Ok in H as (complete & s2 & Hcomp & H).
  unfold assignment_complete, deref, bind, ret in Hcomp.
  injection Hcomp as <- <-.
  destruct (complete_items cw _) eqn:Hci.
  - injection H as <- <-. split; [done|]. split; [done|]. by left.
  - apply bind_inv_Ok in H as (var & s3 & Hsel & H).
    pose proof (read_only_inv _ _ _ _
                  (read_only_select_unassigned_variable cw r) Hsel) as ->.
    destruct var as [var|]; [|done].
    apply bind_inv_Ok in H as (vals & s4 & Hord & H).
    pose proof (read_only_inv _ _ _ _
                  (read_only_order_domain_values cw var r) Hord) as ->.
    apply (try_values_sound (backtrack cw fuel) r var vals _ r' s'
             (backtrack_extends fuel) IH) in H as (? & ? & ?); [|exact Hr].
    split; [done|]. split; [done|]. by right.
Qed.
End Search.

(** ** What [consistent] and [assignment_complete] check *)

Lemma dict_get_elem a x w : dict_get a x = Some w → (x, w) ∈ a.
Proof.
  induction a as [|[k w'] a IH]; simpl; [done|].
  case_decide as Hk; [intros [= <-]; subst; left|intros Hg; right; auto].
Qed.

Lemma dict_get_None a x : dict_get a x = None ↔ x ∉ dict_keys a.
Proof.
  unfold dict_keys. induction a as [|[k w'] a IH]; simpl.
  - split; [intros _; apply not_elem_of_nil|done].
  - rewrite not_elem_of_cons. case_decide; [subst|]; naive_solver.
Qed.

Lemma dict_set_elem a k w x w' :
  (x, w') ∈ dict_set a k w → (x, w') ∈ a ∨ (x, w') = (k, w).
Proof.
  induction a as [|[k0 w0] a IH]; simpl.
  - rewrite list_elem_of_singleton. auto.
  - case_decide; rewrite !elem_of_cons; naive_solver.
Qed.

Lemma dict_set_keys a k w :
  k ∉ dict_keys a → dict_keys (dict_set a k w) = dict_keys a ++ [k].
Proof.
  unfold dict_keys. induction a as [|[k0 w0] a IH]; simpl; [done|].
  rewrite not_elem_of_cons. intros [Hne Hk].
  rewrite decide_False by done. csimpl. f_equal. by apply IH.
Qed.

Lemma complete_items_spec cw a :
  complete_items cw a = true ↔
  ∀ x, x ∈ variables cw → ∃ w, dict_get a x = Some w ∧ w ∈ words cw.
Proof.
  unfold complete_items. rewrite forallb_forall. split.
  - intros H x Hx. specialize (H x).
    rewrite <- list_elem_of_In, elem_of_elements in H. specialize (H Hx).
    destruct (dict_get a x) as [w|]; [|done].
    exists w. split; [done|]. by apply bool_decide_eq_true in H.
  - intros H x Hx. rewrite <- list_elem_of_In, elem_of_elements in Hx.
    destruct (H x Hx) as (w & -> & Hw). by apply bool_decide_eq_true.
Qed.

(** The pairwise part of [consistent], for one [x]. *)
Lemma consistent_inner_true cw x word1 ys :
  consistent_inner cw x word1 ys = Ok true →
  ∀ y word2, (y, word2) ∈ ys → x ≠ y →
    word1 ≠ word2
    ∧ ∃ o, overlaps cw !! (x, y) = Some o
           ∧ ∀ p q, o = Some (p, q) →
                    ∃ c, String.get p word1 = Some c
                         ∧ String.get q word2 = Some c.
Proof.
  induction ys as [|[y0 w0] ys IH]; simpl; intros H y word2 Hin Hxy.
  - by apply elem_of_nil in Hin.
  - destruct (decide (x ≠ y0)) as [Hne|Heq].
    + destruct (decide (word1 = w0)); [done|].
      unfold overlaps_get in H.
      destruct (overlaps cw !! (x, y0)) as [o|] eqn:Ho; [|done]. simpl in H.
      assert (∀ p q, o = Some (p, q) →
                ∃ c, String.get p word1 = Some c ∧ String.get q w0 = Some c)
        as Hhere.
      { intros p q ->. unfold index in H.
        destruct (String.get p word1) as [c1|]; [|done]. simpl in H.
        destruct (String.get q w0) as [c2|]; [|done]. simpl in H.
        destruct (decide (c1 ≠ c2)) as [|Hc]; [done|].
        apply dec_stable in Hc. subst. eauto. }
      assert (consistent_inner cw x word1 ys = Ok true) as Hrest.
      { destruct o as [[p q]|]; [|done]. unfold index in H.
        destruct (String.get p word1) as [c1|]; [|done]. simpl in H.
        destruct (String.get q w0) as [c2|]; [|done]. simpl in H.
        by destruct (decide (c1 ≠ c2)). }
      apply elem_of_cons in Hin as [[= -> ->]|Hin]; [|by apply IH].
      split; [done|]. eauto.
    + apply elem_of_cons in Hin as [[= -> ->]|Hin]; [|by apply IH].
      by destruct Heq.
Qed.

Lemma consistent_outer_true cw xs all :
  consistent_outer cw xs all = Ok true →
  ∀ x word1, (x, word1) ∈ xs →
    String.length word1 = v_length x
    ∧ consistent_inner cw x word1 all = Ok true.
Proof.
  induction xs as [|[x0 w0] xs IH]; simpl; intros H x word1 Hin.
  - by apply elem_of_nil in Hin.
  - destruct (decide (v_length x0 ≠ String.length w0)) as [|Hlen]; [done|].
    destruct (consistent_inner cw x0 w0 all) as [[]| |] eqn:Hi; try done.
    simpl in H. apply elem_of_cons in Hin as [[= -> ->]|Hin]; [|by apply IH].
    split; [|done]. destruct (decide (String.length w0 = v_length x0)); [done|].
    destruct Hlen. congruence.
Qed.

(** A part of a valid solution passes [consistent], unless a lookup in
    [overlaps] fails. *)
Lemma consistent_inner_within cw σ x ys c :
  valid_solution cw σ → x ∈ variables cw → within cw σ ys →
  consistent_inner cw x (σ x) ys = Ok c → c = true.
Proof.
  intros Hσ Hx. induction ys as [|[y w] ys IH]; simpl; intros Hys H.
  - by injection H.
  - assert (within cw σ ys) as Hys' by (intros ???; apply Hys; by right).
    destruct (Hys y w ltac:(left)) as [Hy ->].
    destruct (decide (x ≠ y)) as [Hne|]; [|by apply IH].
    destruct (Hσ x Hx) as (_ & _ & Hpair).
    destruct (Hpair y Hy Hne) as [Hdiff Hov].
    destruct (decide (σ x = σ y)); [done|].
    unfold overlaps_get in H.
    destruct (overlaps cw !! (x, y)) as [[[p q]|]|] eqn:Ho; simpl in H;
      [|by apply IH|done].
    destruct (Hov p q eq_refl) as (ch & Hp & Hq).
    unfold index in H. rewrite Hp, Hq in H. simpl in H.
    destruct (decide (ch ≠ ch)); [done|]. by apply IH.
Qed.

Lemma consistent_outer_within cw σ xs all c :
  valid_solution cw σ → within cw σ xs → within cw σ all →
  consistent_outer cw xs all = Ok c → c = true.
Proof.
  intros Hσ. induction xs as [|[x w] xs IH]; simpl; intros Hxs Hall H.
  - by injection H.
  - assert (within cw σ xs) as Hxs' by (intros ???; apply Hxs; by right).
    destruct (Hxs x w ltac:(left)) as [Hx ->].
    destruct (Hσ x Hx) as (_ & Hfit & _). unfold fits in Hfit.
    destruct (decide (v_length x ≠ String.length (σ x))); [lia|].
    destruct (consistent_inner cw x (σ x) all) as [ci| |] eqn:Hi; try done.
    apply (consistent_inner_within cw σ x all ci Hσ Hx Hall) in Hi as ->.
    simpl in H. by apply IH.
Qed.

(** ** Sorting keeps the elements *)

Lemma insert_by_perm {A} (le : A → A → bool) x l : insert_by le x l ≡ₚ x :: l.
Proof.
  induction l as [|y l IH]; simpl; [done|].
  destruct (le x y); [done|]. rewrite IH. apply perm_swap.
Qed.

Lemma sort_by_perm {A} (le : A → A → bool) l : sort_by le l ≡ₚ l.
Proof.
  unfold sort_by. induction l as [|x l IH]; simpl; [done|].
  by rewrite insert_by_perm, IH.
Qed.

(** ** The two heuristics *)

Lemma list_of_variables_spec cw a vars s l s' :
  list_of_variables cw a vars s = (Ok l, s') →
  ∀ t, t ∈ l → t.1.1 ∈ vars ∧ dict_get a t.1.1 = None
               ∧ domains s !! t.1.1 = Some (dom_at (domains s) t.1.1)
               ∧ t.1.2 = size (dom_at (domains s) t.1.1).
Proof.
  revert l. induction vars as [|var vars IH]; simpl; intros l H t Ht.
  - injection H as <- <-. by apply elem_of_nil in Ht.
  - destruct (decide (dict_get a var = None)) as [Hnone|].
    + apply bind_inv_Ok in H as (d & s1 & Hd & H).
      unfold domain_of in Hd.
      destruct (domains s !! var) as [d'|] eqn:Hv; [|done].
      injection Hd as <- <-.
      apply bind_inv_Ok in H as (rest & s1 & Hrest & H).
      pose proof (read_only_inv _ _ _ _ (read_only_list_of_variables cw a vars)
                    Hrest) as ->.
      injection H as <- <-.
      apply elem_of_cons in Ht as [->|Ht].
      * simpl. unfold dom_at. rewrite Hv. simpl. split; [left|done].
      * destruct (IH rest Hrest t Ht) as (? & ? & ? & ?).
        split; [by right|done].
    + destruct (IH l H t Ht) as (? & ? & ? & ?). split; [by right|done].
Qed.

Lemma select_unassigned_variable_spec cw r s var s' :
  select_unassigned_variable cw r s = (Ok (Some var), s') →
  var ∈ variables cw ∧ dict_get (contents s r) var = None.
Proof.
  unfold select_unassigned_variable. intros H.
  apply bind_inv_Ok in H as (a & s1 & [= <- <-] & H).
  apply bind_inv_Ok in H as (l & s1 & Hl & H).
  injection H as H _.
  destruct (sort_by mrv_le l) as [|t ts] eqn:Hsort; [done|].
  injection H as <-.
  assert (t ∈ l) as Ht.
  { rewrite <- (sort_by_perm mrv_le l), Hsort. left. }
  destruct (list_of_variables_spec _ _ _ _ _ _ Hl t Ht) as (Hin & Hnone & _).
  split; [by apply elem_of_elements in Hin|done].
Qed.

Lemma lcv_scan_spec cw var ns vals s result s' :
  lcv_scan cw var ns vals s = (Ok result, s') → fst <$> result = vals.
Proof.
  revert result. induction vals as [|val vals IH]; simpl; intros result H.
  - by injection H as <- <-.
  - apply bind_inv_Ok in H as (t & s1 & Ht & H).
    pose proof (read_only_inv _ _ _ _ (read_only_ruled_out cw var val ns 0) Ht)
      as ->.
    apply bind_inv_Ok in H as (rest & s1 & Hrest & H).
    injection H as <- <-. csimpl. f_equal. by eapply IH.
Qed.

Lemma order_domain_values_spec cw var r s vals s' :
  order_domain_values cw var r s = (Ok vals, s') →
  ∃ d, domains s !! var = Some d ∧ vals ≡ₚ elements d.
Proof.
  unfold order_domain_values. intros H.
  apply bind_inv_Ok in H as (a & s1 & [= <- <-] & H).
  apply bind_inv_Ok in H as (d & s1 & Hd & H).
  unfold domain_of in Hd. destruct (domains s !! var) as [d'|] eqn:Hv; [|done].
  injection Hd as <- <-.
  apply bind_inv_Ok in H as (result & s1 & Hres & H).
  injection H as <- <-. exists d'. split; [done|].
  apply lcv_scan_spec in Hres. rewrite <- Hres.
  by rewrite sort_by_perm.
Qed.

(** ** Completeness of the search *)

Section Complete.
Context (cw : Crossword) (σ : Var → string).
Hypothesis Hσ : valid_solution cw σ.

Lemma within_dict_set a var :
  within cw σ a → var ∈ variables cw → within cw σ (dict_set a var (σ var)).
Proof.
  intros Ha Hvar x w Hin.
  apply dict_set_elem in Hin as [Hin|[= -> ->]]; [by apply Ha|done].
Qed.

Lemma complete_nonempty a var :
  var ∈ variables cw → complete_items cw a = true → a ≠ [].
Proof.
  intros Hvar Hc ->.
  pose proof (proj1 (complete_items_spec cw []) Hc var Hvar) as (w & ? & _).
  done.
Qed.

(** If the word of [σ] is among the candidates, the loop cannot end in
    failure. *)
Lemma try_values_complete rec r var vals s s' :
  (∀ r s, extends s (rec r s).2) →
  (∀ r s r' s', r < length (heap s) → rec r s = (Ok (Some r'), s') →
                returned_ok cw r s' r') →
  (∀ r s s', r < length (heap s) → within cw σ (contents s r) →
             keeps cw σ s → rec r s = (Ok None, s') → False) →
  r < length (heap s) → within cw σ (contents s r) → keeps cw σ s →
  var ∈ variables cw → σ var ∈ vals →
  try_values cw rec r var vals s = (Ok None, s') → False.
Proof using Hσ.
  intros Hext Hsound Hcompl. revert s.
  induction vals as [|val vals IH]; intros s Hr Hin Hkeep Hvar Hval.
  - by apply elem_of_nil in Hval.
  - rewrite try_values_cons. cbv zeta.
    set (a1 := dict_set (contents s r) var val).
    set (s1 := push_dict a1 s). set (new := length (heap s)).
    assert (extends s s1) as H1 by apply push_dict_extends.
    assert (new < length (heap s1)) as Hnew.
    { unfold s1, new. simpl. rewrite length_app. simpl. lia. }
    assert (contents s1 new = a1) as Hc1 by apply push_dict_contents.
    pose proof (extends_length _ _ H1) as Hlen1.
    assert (∀ s2, extends s s2 →
              σ var ∈ vals →
              try_values cw rec r var vals s2 = (Ok None, s') → False)
      as Hnext.
    { intros s2 H2 Hv. apply IH; try done.
      - pose proof (extends_length _ _ H2). lia.
      - by rewrite (extends_contents s s2 r H2 Hr).
      - intros x Hx. destruct H2 as [-> _]. by apply Hkeep. }
    destruct (decide (val = σ var)) as [->|Hother].
    + (* the word of the solution *)
      assert (within cw σ a1) as Hin1 by by apply within_dict_set.
      destruct (consistent_outer cw a1 a1) as [c| |] eqn:Hcons; try done.
      apply (consistent_outer_within cw σ a1 a1 c Hσ Hin1 Hin1) in Hcons as ->.
      pose proof (Hext new s1) as H2.
      destruct (rec new s1) as [[result| |] s2] eqn:Hres; simpl in H2;
        try done.
      destruct result as [r''|].
      * destruct (Hsound new s1 r'' s2 Hnew Hres) as (_ & Hcomp & _).
        rewrite bool_decide_eq_true_2; [done|].
        by eapply complete_nonempty.
      * intros _. apply (Hcompl new s1 s2); [done| |  |done].
        -- by rewrite Hc1.
        -- intros x Hx. destruct H1 as [-> _]. by apply Hkeep.
    + assert (σ var ∈ vals) as Hv.
      { apply elem_of_cons in Hval as [?|?]; [congruence|done]. }
      destruct (consistent_outer cw a1 a1) as [[]| |]; try done.
      * pose proof (Hext new s1) as H2.
        destruct (rec new s1) as [[result| |] s2] eqn:Hres; simpl in H2;
          try done.
        destruct (match result with None => false | Some _ => _ end) eqn:Ht.
        -- destruct result; [done|]. done.
        -- apply Hnext; [by eapply extends_trans|done].
      * by apply Hnext.
Qed.

Lemma backtrack_complete fuel r s s' :
  r < length (heap s) → within cw σ (contents s r) → keeps cw σ s →
  backtrack cw fuel r s = (Ok None, s') → False.
Proof using Hσ.
  revert r s s'. induction fuel as [|fuel IH]; intros r s s' Hr Hin Hkeep;
    simpl; [done|].
  intros H. apply bind_inv_Ok in H as ([] & s1 & Henter & H).
  injection Henter as <-.
  apply bind_inv_Ok in H as (complete & s2 & Hcomp & H).
  unfold assignment_complete, deref, bind, ret in Hcomp.
  injection Hcomp as <- <-.
  destruct (complete_items cw _); [done|].
  apply bind_inv_Ok in H as (var & s3 & Hsel & H).
  pose proof (read_only_inv _ _ _ _
                (read_only_select_unassigned_variable cw r) Hsel) as ->.
  destruct var as [var|]; [|done].
  apply select_unassigned_variable_spec in Hsel as [Hvar Hfree].
  apply bind_inv_Ok in H as (vals & s4 & Hord & H).
  pose proof (read_only_inv _ _ _ _
                (read_only_order_domain_values cw var r) Hord) as ->.
  apply order_domain_values_spec in Hord as (d & Hd & Hperm).
  simpl in Hd.
  eapply (try_values_complete (backtrack cw fuel) r var vals); try exact H;
    try done.
  - apply backtrack_extends.
  - intros ????. apply backtrack_sound.
  - rewrite Hperm. apply elem_of_elements.
    pose proof (Hkeep var Hvar) as Hk. unfold dom_at in Hk.
    by rewrite Hd in Hk.
Qed.
End Complete.

(** ** Pruning never removes a word of a valid solution *)

Lemma node_consistent_domains_lookup cw v :
  node_consistent_domains cw !! v
  = if decide (v ∈ variables cw) then Some (filter (fits v) (words cw))
    else None.
Proof.
  unfold node_consistent_domains.
  rewrite map_lookup_imap, lookup_gset_to_gmap.
  destruct (decide (v ∈ variables cw)).
  - by rewrite option_guard_True.
  - by rewrite option_guard_False.
Qed.

Lemma after_node_consistency_cover cw :
  domains_cover cw (after_node_consistency cw).
Proof.
  intros v Hv. simpl. rewrite node_consistent_domains_lookup.
  rewrite decide_True by done. by eexists.
Qed.

Lemma after_node_consistency_node_consistent cw :
  node_consistent (after_node_consistency cw).
Proof.
  intros v d. simpl. rewrite node_consistent_domains_lookup.
  case_decide; [|done]. intros [= <-] w Hw.
  by apply elem_of_filter in Hw as [? _].
Qed.

Section Keeps.
Context (cw : Crossword) (σ : Var → string).
Hypothesis Hσ : valid_solution cw σ.

Lemma after_node_consistency_keeps : keeps cw σ (after_node_consistency cw).
Proof using Hσ.
  intros x Hx. unfold dom_at. simpl. rewrite node_consistent_domains_lookup.
  rewrite decide_True by done. simpl. apply elem_of_filter.
  destruct (Hσ x Hx) as (? & ? & _). done.
Qed.

Lemma revise_keeps x y s r s1 :
  domains_cover cw s → x ∈ variables cw → y ∈ variables cw → x ≠ y →
  keeps cw σ s → revise cw x y s = (Ok r, s1) →
  domains_cover cw s1 ∧ keeps cw σ s1.
Proof using Hσ.
  intros Hc Hx Hy Hxy Hk Hrev.
  destruct (Hc x Hx) as [dx Hdx]. destruct (Hc y Hy) as [dy Hdy].
  pose proof (revise_Ok cw x y s r s1 dx dy Hdx Hdy Hrev) as Hspec.
  destruct (overlaps cw !! (x, y)) as [[[p q]|]|] eqn:Ho; [| |done].
  - destruct Hspec as [-> _]. split; [by apply domains_cover_insert|].
    intros z Hz. simpl. rewrite dom_at_insert.
    case_decide; [subst z|by apply Hk].
    unfold supported. apply elem_of_filter.
    pose proof (Hk x Hx) as Hkx. rewrite (dom_at_Some _ _ _ Hdx) in Hkx.
    pose proof (Hk y Hy) as Hky. rewrite (dom_at_Some _ _ _ Hdy) in Hky.
    split; [|done]. exists (σ y). split; [done|].
    destruct (Hσ x Hx) as (_ & _ & Hpair).
    destruct (Hpair y Hy Hxy) as [Hne Hov]. split; [done|]. by apply Hov.
  - by destruct Hspec as [-> _].
Qed.

Lemma ac3_run_keeps queue s b s' :
  ac3_run cw queue s b s' →
  domains_cover cw s → valid_arcs cw queue → keeps cw σ s →
  keeps cw σ s'.
Proof using Hσ.
  induction 1 as [s|x y rest s s1 b s' Hr Hrun IH|x y rest s s1 dx1 Hr Hd Hz
                  |x y rest s s1 dx1 b s' Hr Hd Hnz Hrun IH];
    intros Hc Hq Hk; [done|..];
    pose proof Hq as Hq';
    inversion Hq' as [|? ? (Hx & Hy & Hxy) Hrest]; subst; simpl in *;
    destruct (revise_keeps x y s _ s1 Hc Hx Hy Hxy Hk Hr) as [Hc1 Hk1].
  - by apply IH.
  - done.
  - apply IH; [done| |done]. by apply valid_arcs_push.
Qed.
End Keeps.

(** ** [solve] *)

Lemma solve_steps cw s res s' :
  solve cw s = (Ok res, s') →
  ∃ s1 b s2,
    enforce_node_consistency cw s = (Ok tt, s1)
    ∧ ac3 cw None s1 = (Ok b, s2)
    ∧ backtrack cw (S (size (variables cw))) (length (heap s2))
        (push_dict [] s2) = (Ok res, s').
Proof.
  unfold solve. intros H.
  apply bind_inv_Ok in H as ([] & s1 & H1 & H).
  apply bind_inv_Ok in H as (b & s2 & H2 & H).
  apply bind_inv_Ok in H as (r & s3 & H3 & H).
  injection H3 as <- <-. by exists s1, b, s2.
Qed.

Lemma solve_returned cw s r s' :
  solve cw s = (Ok (Some r), s') →
  ∃ a, heap s' !! r = Some a
       ∧ complete_items cw a = true
       ∧ consistent_outer cw a a = Ok true.
Proof.
  intros H. apply solve_steps in H as (s1 & b & s2 & _ & _ & H).
  assert (length (heap s2) < length (heap (push_dict [] s2))) as Hnew.
  { simpl. rewrite length_app. simpl. lia. }
  pose proof (backtrack_extends cw (S (size (variables cw))) (length (heap s2))
                (push_dict [] s2)) as Hext.
  rewrite H in Hext. simpl in Hext.
  destruct (backtrack_sound cw _ _ _ _ _ Hnew H) as (Hr & Hcomp & Hcons).
  destruct (lookup_lt_is_Some_2 _ _ Hr) as [a Ha].
  rewrite Ha in Hcomp, Hcons. simpl in Hcomp, Hcons.
  exists a. split; [done|]. split; [done|].
  destruct Hcons as [->|Hcons]; [|done].
  rewrite (extends_lookup _ _ _ [] Hext) in Ha.
  - by injection Ha as <-.
  - simpl. by rewrite lookup_app_r, Nat.sub_diag by lia.
Qed.

(** ** The sorted list starts with a least element *)

Section Sorting.
Context {A : Type} (le : A → A → bool).
Hypothesis le_total : ∀ x y, le x y = true ∨ le y x = true.
Hypothesis le_trans : ∀ x y z, le x y = true → le y z = true → le x z = true.

Lemma insert_by_sorted x l :
  StronglySorted (λ a b, le a b = true) l →
  StronglySorted (λ a b, le a b = true) (insert_by le x l).
Proof using le_total le_trans.
  induction 1 as [|y l Hs IH Hall]; simpl.
  - repeat constructor.
  - destruct (le x y) eqn:Hxy.
    + constructor; [by constructor|]. constructor; [done|].
      eapply Forall_impl; [exact Hall|]. intros z Hz. by eapply le_trans.
    + constructor; [done|].
      rewrite (insert_by_perm le x l). constructor; [|done].
      destruct (le_total x y); congruence.
Qed.

Lemma sort_by_sorted l : StronglySorted (λ a b, le a b = true) (sort_by le l).
Proof using le_total le_trans.
  unfold sort_by. induction l as [|x l IH]; simpl; [constructor|].
  by apply insert_by_sorted.
Qed.

Lemma sort_by_head t0 ts l :
  sort_by le l = t0 :: ts → ∀ t, t ∈ l → le t0 t = true.
Proof using le_total le_trans.
  intros Hsort t Ht. pose proof (sort_by_sorted l) as Hs.
  rewrite Hsort in Hs. rewrite <- (sort_by_perm le l), Hsort in Ht.
  apply StronglySorted_inv in Hs as [_ Hall].
  apply elem_of_cons in Ht as [->|Ht].
  - by destruct (le_total t0 t0).
  - rewrite Forall_forall in Hall. by apply Hall.
Qed.
End Sorting.

Lemma mrv_le_total p q : mrv_le p q = true ∨ mrv_le q p = true.
Proof.
  unfold mrv_le. rewrite !bool_decide_eq_true.
  destruct p as [[? n1] d1], q as [[? n2] d2]. unfold mrv_key. simpl. lia.
Qed.

Lemma mrv_le_trans p q r :
  mrv_le p q = true → mrv_le q r = true → mrv_le p r = true.
Proof.
  unfold mrv_le. rewrite !bool_decide_eq_true.
  destruct p as [[? n1] d1], q as [[? n2] d2], r as [[? n3] d3].
  unfold mrv_key. simpl. lia.
Qed.


(** ** The search on a slot without candidates *)

Lemma list_of_variables_total cw a vars s :
  (∀ v, v ∈ vars → is_Some (domains s !! v)) →
  ∃ l, list_of_variables cw a vars s = (Ok l, s)
       ∧ ∀ v, v ∈ vars → dict_get a v = None →
              ∃ t, t ∈ l ∧ t.1.1 = v.
Proof.
  induction vars as [|var vars IH]; intros Hc; simpl.
  - exists []. split; [done|]. intros v Hv. by apply elem_of_nil in Hv.
  - destruct IH as (l & Hl & Hin); [intros v Hv; apply Hc; by right|].
    destruct (decide (dict_get a var = None)) as [Hnone|Hsome].
    + destruct (Hc var ltac:(left)) as [d Hd].
      exists ((var, size d, size (neighbors cw var)) :: l). split.
      * erewrite bind_Ok; last by (unfold domain_of; rewrite Hd).
        erewrite bind_Ok; last exact Hl. done.
      * intros v Hv Hv'. apply elem_of_cons in Hv as [->|Hv].
        -- eexists. split; [left|done].
        -- destruct (Hin v Hv Hv') as (t & ? & ?). exists t. split; [by right|done].
    + exists l. split; [done|]. intros v Hv Hv'.
      apply elem_of_cons in Hv as [->|Hv]; [done|]. by apply Hin.
Qed.


(** * Fuel is never exhausted *)

Lemma fueled_ret {A} (a : A) : fueled (ret a).
Proof. done. Qed.

Lemma fueled_lift {A} (o : outcome A) : o ≠ OutOfFuel → fueled (lift o).
Proof. intros Ho s. done. Qed.

Lemma fueled_bind {A B} (m : M A) (k : A → M B) :
  fueled m → (∀ a, fueled (k a)) → fueled (x <- m ;; k x).
Proof.
  intros Hm Hk s. unfold bind. specialize (Hm s).
  destruct (m s) as [[a| |] s1]; simpl in *; try done. apply Hk.
Qed.

Lemma obind_fueled {A B} (m : outcome A) (k : A → outcome B) :
  m ≠ OutOfFuel → (∀ a, k a ≠ OutOfFuel) → (x <~ m ;; k x) ≠ OutOfFuel.
Proof. destruct m; simpl; auto. Qed.

Lemma index_fueled w k : index w k ≠ OutOfFuel.
Proof. unfold index. by destruct (String.get k w). Qed.

Lemma overlaps_get_fueled cw x y : overlaps_get cw x y ≠ OutOfFuel.
Proof. unfold overlaps_get. by destruct (overlaps cw !! (x, y)). Qed.

Lemma fueled_domain_of v : fueled (domain_of v).
Proof. intros s. unfold domain_of. by destruct (domains s !! v). Qed.

Lemma fueled_deref r : fueled (deref r).
Proof. done. Qed.

Create HintDb fueled.
#[global] Hint Resolve fueled_ret fueled_domain_of fueled_deref
  index_fueled overlaps_get_fueled : fueled.

Ltac fueled_tac :=
  repeat first
    [ progress eauto with fueled
    | apply fueled_bind; [|intros ?]
    | apply fueled_lift
    | apply obind_fueled; [|intros ?]
    | match goal with
      | |- fueled (if ?b then _ else _) => destruct b
      | |- fueled (match ?o with _ => _ end) => destruct o
      | |- (if ?b then _ else _) ≠ OutOfFuel => destruct b
      | |- (match ?o with _ => _ end) ≠ OutOfFuel => destruct o
      end
    | done ].

Lemma overlap_possible_fueled a b v ys : overlap_possible a b v ys ≠ OutOfFuel.
Proof. induction ys; simpl; fueled_tac. Qed.

Lemma consistent_inner_fueled cw x w ys : consistent_inner cw x w ys ≠ OutOfFuel.
Proof. induction ys as [|[y w2] ys IH]; simpl; fueled_tac. Qed.

Lemma consistent_outer_fueled cw xs all : consistent_outer cw xs all ≠ OutOfFuel.
Proof.
  induction xs as [|[x w] xs IH]; simpl; fueled_tac.
  apply consistent_inner_fueled.
Qed.

Lemma ruled_out_in_fueled cw var var2 val vals2 t :
  ruled_out_in cw var var2 val vals2 t ≠ OutOfFuel.
Proof. revert t. induction vals2; intros t; simpl; fueled_tac. Qed.

Lemma fueled_revise_scan a b y xs acc : fueled (revise_scan a b y xs acc).
Proof.
  revert acc. induction xs; intros acc; simpl; fueled_tac.
  apply overlap_possible_fueled.
Qed.

Lemma fueled_domain_subtract v r : fueled (domain_subtract v r).
Proof. unfold domain_subtract. fueled_tac. Qed.

Lemma fueled_domain_remove v w : fueled (domain_remove v w).
Proof. unfold domain_remove. fueled_tac. Qed.

Lemma fueled_revise cw x y : fueled (revise cw x y).
Proof.
  unfold revise. fueled_tac. apply fueled_revise_scan.
Qed.

Lemma fueled_for_each {A} (l : list A) body :
  (∀ a, fueled (body a)) → fueled (for_each l body).
Proof. intros Hb. induction l; simpl; fueled_tac. Qed.

Lemma fueled_enforce_node_consistency cw : fueled (enforce_node_consistency cw).
Proof.
  unfold enforce_node_consistency. apply fueled_for_each. intros v.
  apply fueled_for_each. intros w. fueled_tac.
Qed.

Lemma fueled_ruled_out cw var val var2s t : fueled (ruled_out cw var val var2s t).
Proof.
  revert t. induction var2s; intros t; simpl; fueled_tac.
  apply ruled_out_in_fueled.
Qed.

Lemma fueled_lcv_scan cw var ns vals : fueled (lcv_scan cw var ns vals).
Proof. induction vals; simpl; fueled_tac. apply fueled_ruled_out. Qed.

Lemma fueled_order_domain_values cw var r : fueled (order_domain_values cw var r).
Proof. unfold order_domain_values. fueled_tac. apply fueled_lcv_scan. Qed.

Lemma fueled_list_of_variables cw a vars : fueled (list_of_variables cw a vars).
Proof. induction vars; simpl; fueled_tac. Qed.

Lemma fueled_select_unassigned_variable cw r :
  fueled (select_unassigned_variable cw r).
Proof.
  unfold select_unassigned_variable. fueled_tac.
  apply fueled_list_of_variables.
Qed.

(** A revision that returns [True] has made [x]'s domain strictly smaller;
    one that returns [False] has changed nothing. *)
Lemma revise_Ok_state cw x y s r s1 :
  revise cw x y s = (Ok r, s1) →
  (r = false ∧ s1 = s)
  ∨ (r = true ∧ ∃ dx d', domains s !! x = Some dx ∧ d' ⊂ dx
                         ∧ s1 = with_domains (insert x d') s).
Proof.
  unfold revise, overlaps_get.
  destruct (overlaps cw !! (x, y)) as [[[a b]|]|] eqn:Ho; simpl.
  - intros H. apply bind_inv_Ok in H as (o & s0 & [= <- <-] & H).
    apply bind_inv_Ok in H as (dx & s0 & Hdx & H).
    unfold domain_of in Hdx.
    destruct (domains s !! x) as [dx'|] eqn:Hx; [|done].
    injection Hdx as <- <-.
    apply bind_inv_Ok in H as (rem & s0 & Hscan & H).
    apply revise_scan_Ok in Hscan as (-> & Hrem & Hnil).
    destruct (decide (rem ≠ ∅)) as [Hne|He].
    + apply bind_inv_Ok in H as ([] & s0 & Hsub & [= <- <-]).
      unfold domain_subtract in Hsub.
      erewrite bind_Ok in Hsub; last by (unfold domain_of; rewrite Hx).
      injection Hsub as <-. right. split; [done|].
      exists dx', (dx' ∖ rem). split; [done|]. split; [|done].
      destruct Hrem as [Hel|(dy & _ & Hr)]; [by destruct Hne; apply Hnil|].
      apply set_choose_L in Hne as [v Hv].
      assert (v ∈ dx') as Hvx.
      { rewrite Hr in Hv. apply elem_of_union in Hv as [Hv|Hv]; [set_solver|].
        apply elem_of_list_to_set, list_elem_of_filter in Hv as [_ Hv].
        by apply elem_of_elements in Hv. }
      split; [set_solver|]. intros Hsub'. specialize (Hsub' v Hvx). set_solver.
    + injection H as <- <-. by left.
  - intros H. apply bind_inv_Ok in H as (o & s0 & [= <- <-] & H).
    injection H as <- <-. by left.
  - intros H. by apply bind_inv_Ok in H as (o & s0 & [=] & H).
Qed.

Lemma ac3_loop_fueled cw fuel queue s :
  length queue + size (variables cw) * total_size (domains s) < fuel →
  (ac3_loop cw fuel queue s).1 ≠ OutOfFuel.
Proof.
  revert queue s. induction fuel as [|fuel IH]; intros queue s Hf; [lia|].
  cbn [ac3_loop]. destruct queue as [|[x y] rest]; [done|].
  unfold bind at 1. pose proof (fueled_revise cw x y s) as Hrev.
  destruct (revise cw x y s) as [[r| |] s1] eqn:Hr; simpl in Hrev; try done.
  apply revise_Ok_state in Hr as [[-> ->]|(-> & dx & d' & Hdx & Hsub & ->)].
  - apply IH. simpl in Hf. lia.
  - unfold bind at 1, domain_of. simpl. rewrite lookup_insert_eq.
    destruct (decide (size d' = 0)); [done|].
    apply IH. simpl.
    pose proof (total_size_insert (domains s) x dx d' Hdx) as Hsize.
    apply subset_size in Hsub.
    rewrite length_app, length_fmap. simpl in Hf.
    pose proof (size_neighbors_le cw x y). nia.
Qed.

Lemma fueled_ac3 cw arcs : fueled (ac3 cw arcs).
Proof. intros s. unfold ac3. apply ac3_loop_fueled. unfold ac3_fuel. lia. Qed.

(** The slots of the crossword that a dict leaves without a word. *)
Lemma unassigned_dict_set cw a var val :
  var ∈ variables cw → var ∉ dict_keys a →
  size (variables cw ∖ list_to_set (dict_keys (dict_set a var val)))
  < size (variables cw ∖ list_to_set (dict_keys a)).
Proof.
  intros Hvar Hfree. rewrite dict_set_keys by done.
  apply subset_size. split.
  - intros x. rewrite !elem_of_difference, !elem_of_list_to_set, elem_of_app.
    naive_solver.
  - intros Hsub. specialize (Hsub var).
    rewrite !elem_of_difference, !elem_of_list_to_set, elem_of_app in Hsub.
    destruct Hsub as [_ Hn]; [done|]. apply Hn. right. left.
Qed.

Lemma try_values_fueled cw rec fuel r var vals s :
  (∀ r s, extends s (rec r s).2) →
  (∀ r' s', r' < length (heap s') →
            size (variables cw ∖ list_to_set (dict_keys (contents s' r')))
            < fuel → (rec r' s').1 ≠ OutOfFuel) →
  r < length (heap s) → var ∈ variables cw →
  var ∉ dict_keys (contents s r) →
  size (variables cw ∖ list_to_set (dict_keys (contents s r))) < S fuel →
  (try_values cw rec r var vals s).1 ≠ OutOfFuel.
Proof.
  intros Hext Hrec. revert s.
  induction vals as [|val vals IH]; intros s Hr Hvar Hfree Hsize; [done|].
  rewrite try_values_cons. cbv zeta.
  set (a1 := dict_set (contents s r) var val).
  set (s1 := push_dict a1 s). set (new := length (heap s)).
  assert (extends s s1) as H1 by apply push_dict_extends.
  assert (contents s1 new = a1) as Hc1 by apply push_dict_contents.
  assert (∀ s2, extends s s2 → (try_values cw rec r var vals s2).1 ≠ OutOfFuel)
    as Hnext.
  { intros s2 H2. pose proof (extends_length _ _ H2).
    apply IH; [lia|done|..]; by rewrite (extends_contents s s2 r H2 Hr). }
  pose proof (consistent_outer_fueled cw a1 a1) as Hcons.
  destruct (consistent_outer cw a1 a1) as [[]| |]; try done.
  - pose proof (Hext new s1) as H2.
    assert ((rec new s1).1 ≠ OutOfFuel) as Hres.
    { apply Hrec.
      { unfold s1, new. simpl. rewrite length_app. simpl. lia. }
      rewrite Hc1.
      pose proof (unassigned_dict_set cw (contents s r) var val Hvar Hfree).
      unfold a1. lia. }
    destruct (rec new s1) as [[result| |] s2]; simpl in *; try done.
    destruct (match result with None => false | Some _ => _ end); [done|].
    apply Hnext. by eapply extends_trans.
  - by apply Hnext.
Qed.

Lemma backtrack_fueled cw fuel r s :
  r < length (heap s) →
  size (variables cw ∖ list_to_set (dict_keys (contents s r))) < fuel →
  (backtrack cw fuel r s).1 ≠ OutOfFuel.
Proof.
  revert r s. induction fuel as [|fuel IH]; intros r s Hr Hsize; [lia|].
  cbn [backtrack]. unfold bind at 1, enter_backtrack.
  set (s1 := mkState (domains s) (heap s) (S (backtrack_calls s))).
  unfold bind at 1, assignment_complete, bind at 1, deref, ret.
  destruct (complete_items cw (contents s1 r)); [done|].
  unfold bind at 1.
  pose proof (fueled_select_unassigned_variable cw r s1) as Hsel.
  destruct (select_unassigned_variable cw r s1) as [[var| |] s2] eqn:Hs;
    simpl in Hsel; try done.
  pose proof (read_only_inv _ _ _ _
                (read_only_select_unassigned_variable cw r) Hs) as ->.
  destruct var as [var|]; [|done].
  apply select_unassigned_variable_spec in Hs as [Hvar Hfree].
  apply dict_get_None in Hfree.
  unfold bind at 1.
  pose proof (fueled_order_domain_values cw var r s1) as Hord.
  destruct (order_domain_values cw var r s1) as [[vals| |] s2] eqn:Ho;
    simpl in Hord; try done.
  pose proof (read_only_inv _ _ _ _
                (read_only_order_domain_values cw var r) Ho) as ->.
  apply (try_values_fueled cw (backtrack cw fuel) fuel);
    [apply backtrack_extends|apply IH|done..].
Qed.

(** [solve] never stops for lack of fuel: the bounds computed for the loop
    of [ac3] and for the depth of [backtrack] are enough on every input. *)
Lemma solve_fueled cw : fueled (solve cw).
Proof.
  unfold solve. apply fueled_bind; [apply fueled_enforce_node_consistency|].
  intros _. apply fueled_bind; [apply fueled_ac3|]. intros _ s.
  unfold bind, new_dict. apply backtrack_fueled.
  - simpl. rewrite length_app. simpl. lia.
  - rewrite push_dict_contents. simpl. rewrite difference_empty_L. lia.
Qed.

(** * Main results *)

Ltac decide_by_computation :=
  apply (bool_decide_unpack _); vm_compute; exact I.

(** C1. Soundness of the solver: when [solve] returns an assignment, that
    dict gives every slot a word of the slot's length, any two distinct
    assigned slots hold different words, and where the two slots have an
    overlap [(p, q)] their words carry the same letter at those offsets. *)
Theorem solve_sound cw s r s' :
  solve cw s = (Ok (Some r), s') →
  ∃ a, heap s' !! r = Some a
       ∧ (∀ x, x ∈ variables cw →
            ∃ w, dict_get a x = Some w ∧ String.length w = v_length x)
       ∧ (∀ x y wx wy,
            dict_get a x = Some wx → dict_get a y = Some wy → x ≠ y →
            wx ≠ wy
            ∧ ∀ p q, overlaps cw !! (x, y) = Some (Some (p, q)) →
                     ∃ c, String.get p wx = Some c ∧ String.get q wy = Some c).
Proof.
  intros H. apply solve_returned in H as (a & Ha & Hcomp & Hcons).
  exists a. split; [done|].
  pose proof (consistent_outer_true cw a a Hcons) as Hall. split.
  - intros x Hx.
    destruct (proj1 (complete_items_spec cw a) Hcomp x Hx) as (w & Hw & _).
    exists w. split; [done|].
    by destruct (Hall x w (dict_get_elem _ _ _ Hw)).
  - intros x y wx wy Hx Hy Hxy.
    destruct (Hall x wx (dict_get_elem _ _ _ Hx)) as [_ Hinner].
    destruct (consistent_inner_true cw x wx a Hinner y wy
                (dict_get_elem _ _ _ Hy) Hxy) as (Hne & o & Ho & Hov).
    split; [done|]. intros p q Hpq. rewrite Hpq in Ho. injection Ho as <-.
    by apply Hov.
Qed.

Lemma solve_sound_witness :
  solve crossing (init crossing)
  = (Ok (Some 2), (solve crossing (init crossing)).2)
  ∧ ∃ a, heap (solve crossing (init crossing)).2 !! 2 = Some a
       ∧ (∀ x, x ∈ variables crossing →
            ∃ w, dict_get a x = Some w ∧ String.length w = v_length x)
       ∧ (∀ x y wx wy,
            dict_get a x = Some wx → dict_get a y = Some wy → x ≠ y →
            wx ≠ wy
            ∧ ∀ p q, overlaps crossing !! (x, y) = Some (Some (p, q)) →
                     ∃ c, String.get p wx = Some c ∧ String.get q wy = Some c).
Proof.
  assert (solve crossing (init crossing)
          = (Ok (Some 2), (solve crossing (init crossing)).2)) as H
    by (vm_compute; reflexivity).
  split; [exact H|exact (solve_sound _ _ _ _ H)].
Defined.

(** C2. Completeness of the solver: when [solve], run on a fresh creator,
    returns failure, no valid complete assignment exists; and the pruning
    never removes the word a valid complete assignment gives to a slot,
    neither in [enforce_node_consistency] nor in [revise]. *)
Theorem solve_complete cw :
  (∀ s', solve cw (init cw) = (Ok None, s') → ¬ ∃ σ, valid_solution cw σ)
  ∧ (∀ σ, valid_solution cw σ →
          keeps cw σ (enforce_node_consistency cw (init cw)).2)
  ∧ (∀ σ x y s r s1,
        valid_solution cw σ → domains_cover cw s →
        x ∈ variables cw → y ∈ variables cw → x ≠ y →
        keeps cw σ s → revise cw x y s = (Ok r, s1) → keeps cw σ s1).
Proof.
  split; [|split].
  - intros s' H [σ Hσ].
    apply solve_steps in H as (s1 & b & s2 & Hnode & Hac3 & Hback).
    rewrite enforce_node_consistency_init in Hnode. injection Hnode as <-.
    assert (ac3_run cw (all_arcs cw) (after_node_consistency cw) b s2) as Hrun.
    { eapply ac3_loop_run. exact Hac3. }
    pose proof (ac3_run_keeps cw σ Hσ _ _ _ _ Hrun
                  (after_node_consistency_cover cw) (all_arcs_valid cw)
                  (after_node_consistency_keeps cw σ Hσ)) as Hk.
    eapply (backtrack_complete cw σ Hσ _ _ (push_dict [] s2)); [..|exact Hback].
    + simpl. rewrite length_app. simpl. lia.
    + rewrite push_dict_contents. intros x w Hin. by apply elem_of_nil in Hin.
    + exact Hk.
  - intros σ Hσ. rewrite enforce_node_consistency_init.
    by apply after_node_consistency_keeps.
  - intros σ x y s r s1 Hσ Hc Hx Hy Hxy Hk Hrev.
    by destruct (revise_keeps cw σ Hσ x y s r s1 Hc Hx Hy Hxy Hk Hrev).
Qed.

Lemma solve_complete_witness :
  solve single4 (init single4) = (Ok None, (solve single4 (init single4)).2)
  ∧ ¬ ∃ σ, valid_solution single4 σ.
Proof.
  assert (solve single4 (init single4)
          = (Ok None, (solve single4 (init single4)).2)) as H
    by (vm_compute; reflexivity).
  split; [exact H|exact (proj1 (solve_complete single4) _ H)].
Defined.

(** C3. Node consistency is not idempotent in the code. The first pass of
    [enforce_node_consistency] on a fresh creator completes and leaves each
    slot the words that fit it. A second pass changes no domain, but it
    completes only when every word of the list fits every slot: the loop
    runs over the whole word list, and [set.remove] raises [KeyError] on a
    word that the first pass has removed. *)
Theorem node_consistency_second_pass cw :
  enforce_node_consistency cw (init cw) = (Ok tt, after_node_consistency cw)
  ∧ (enforce_node_consistency cw (after_node_consistency cw)).2
    = after_node_consistency cw
  ∧ ((enforce_node_consistency cw (after_node_consistency cw)).1 = Ok tt
     ↔ ∀ v w, v ∈ variables cw → w ∈ words cw → fits v w)
  ∧ ((enforce_node_consistency cw (after_node_consistency cw)).1 = Ok tt
     ∨ (enforce_node_consistency cw (after_node_consistency cw)).1
       = Raise KeyError).
Proof.
  split; [apply enforce_node_consistency_init|].
  unfold enforce_node_consistency.
  rewrite node_outer_again; last first.
  { intros v Hv. apply elem_of_elements in Hv. simpl.
    rewrite node_consistent_domains_lookup. by rewrite decide_True. }
  simpl. split; [done|]. split.
  - case_decide as Hall; split; try done.
    + intros _ v w Hv Hw. rewrite Forall_forall in Hall.
      specialize (Hall v ltac:(by apply elem_of_elements)).
      rewrite Forall_forall in Hall. apply Hall. by apply elem_of_elements.
    + intros H. destruct Hall. apply Forall_forall. intros v Hv.
      apply Forall_forall. intros w Hw. apply elem_of_elements in Hv, Hw. auto.
  - case_decide; auto.
Qed.

Lemma node_consistency_second_pass_raises :
  enforce_node_consistency single3 (init single3)
  = (Ok tt, after_node_consistency single3)
  ∧ (enforce_node_consistency single3 (after_node_consistency single3)).1
    = Raise KeyError.
Proof. split; vm_compute; reflexivity. Qed.




(** C5 (amended). For an initial arc list that holds every arc of the
    problem, any two orderings make [ac3] return the same boolean, and when
    that boolean is [True] they leave the same domains. *)
Theorem ac3_full_queue_confluent cw arcs1 arcs2 s :
  overlaps_in_bounds cw → overlaps_total cw → overlaps_symmetric cw →
  node_consistent s → domains_cover cw s →
  arcs1 ≡ₚ arcs2 → valid_arcs cw arcs1 → all_arcs cw ⊆ arcs1 →
  ∃ b s1 s2,
    ac3 cw (Some arcs1) s = (Ok b, s1)
    ∧ ac3 cw (Some arcs2) s = (Ok b, s2)
    ∧ (b = true → s1 = s2).
Proof.
  intros Hb Ht Hsym Hn Hc Hperm Hq1 Hfull1.
  assert (valid_arcs cw arcs2) as Hq2.
  { unfold valid_arcs in *. by rewrite <- Hperm. }
  assert (all_arcs cw ⊆ arcs2) as Hfull2.
  { intros xy Hxy. rewrite <- Hperm. by apply Hfull1. }
  assert (∀ arcs, valid_arcs cw arcs → all_arcs cw ⊆ arcs →
            valid_arcs cw (ac3_queue cw (Some arcs))
            ∧ all_arcs cw ⊆ ac3_queue cw (Some arcs)) as Hqueue.
  { intros [|xy arcs] Hq Hf; simpl; [|done].
    split; [apply all_arcs_valid|done]. }
  destruct (Hqueue arcs1 Hq1 Hfull1) as [Hv1 Hf1].
  destruct (Hqueue arcs2 Hq2 Hfull2) as [Hv2 Hf2].
  destruct (ac3_returns cw (Some arcs1) s Hb Ht Hn Hc Hv1)
    as (b1 & s1 & Hr1 & Hrun1).
  destruct (ac3_returns cw (Some arcs2) s Hb Ht Hn Hc Hv2)
    as (b2 & s2 & Hr2 & Hrun2).
  destruct b1, b2.
  - exists true, s1, s2. split; [done|]. split; [done|]. intros _.
    exact (ac3_run_unique cw _ _ s s1 s2 Hb Ht Hsym Hn Hc Hv1 Hv2 Hf1 Hf2
             Hrun1 Hrun2).
  - destruct (ac3_run_same_result cw _ _ s s1 s2 Hb Ht Hsym Hn Hc Hv1 Hv2
                Hf1 Hrun1 Hrun2).
  - destruct (ac3_run_same_result cw _ _ s s2 s1 Hb Ht Hsym Hn Hc Hv2 Hv1
                Hf2 Hrun2 Hrun1).
  - exists false, s1, s2. done.
Qed.

Lemma ac3_full_queue_confluent_witness :
  let arcs1 := [(bar3, leg4); (bar3, leg5); (leg4, bar3); (leg5, bar3)] in
  let arcs2 := [(bar3, leg5); (bar3, leg4); (leg4, bar3); (leg5, bar3)] in
  let s := after_node_consistency fork in
  overlaps_in_bounds fork ∧ overlaps_total fork ∧ overlaps_symmetric fork
  ∧ node_consistent s ∧ domains_cover fork s
  ∧ arcs1 ≡ₚ arcs2 ∧ valid_arcs fork arcs1 ∧ all_arcs fork ⊆ arcs1
  ∧ ∃ b s1 s2,
      ac3 fork (Some arcs1) s = (Ok b, s1)
      ∧ ac3 fork (Some arcs2) s = (Ok b, s2)
      ∧ (b = true → s1 = s2).
Proof.
  intros arcs1 arcs2 s.
  assert (overlaps_in_bounds fork) as H1 by decide_by_computation.
  assert (overlaps_total fork) as H2 by decide_by_computation.
  assert (overlaps_symmetric fork) as H3 by decide_by_computation.
  assert (node_consistent s) as H4 by decide_by_computation.
  assert (domains_cover fork s) as H5 by decide_by_computation.
  assert (arcs1 ≡ₚ arcs2) as H6 by decide_by_computation.
  assert (valid_arcs fork arcs1) as H7 by decide_by_computation.
  assert (all_arcs fork ⊆ arcs1) as H8 by decide_by_computation.
  repeat (split; [assumption|]).
  exact (ac3_full_queue_confluent fork arcs1 arcs2 s H1 H2 H3 H4 H5 H6 H7 H8).
Defined.

(** Two orderings of a two-arc list: both runs return [True], and the
    domain of the third slot differs. *)
Lemma ac3_order_changes_domains :
  let arcs1 := [(bar3, leg5); (bar3, leg4)] in
  let arcs2 := [(bar3, leg4); (bar3, leg5)] in
  let s := after_node_consistency fork in
  arcs1 ≡ₚ arcs2
  ∧ (ac3 fork (Some arcs1) s).1 = Ok true
  ∧ (ac3 fork (Some arcs2) s).1 = Ok true
  ∧ domains (ac3 fork (Some arcs1) s).2 !! leg5
    = Some {[ "tiger"; "zebra" ]}%string
  ∧ domains (ac3 fork (Some arcs2) s).2 !! leg5 = Some {[ "tiger" ]}%string.
Proof.
  cbv zeta. split; [apply perm_swap|]. repeat split; vm_compute; reflexivity.
Qed.

(** Two orderings of the full arc list: both runs return [False], at
    different slots. *)
Lemma ac3_failure_depends_on_order :
  let arcs1 := [(left3, top4); (right3, top4); (top4, left3); (top4, right3)] in
  let arcs2 := [(right3, top4); (left3, top4); (top4, left3); (top4, right3)] in
  let s := after_node_consistency arch in
  arcs1 ≡ₚ arcs2
  ∧ (ac3 arch (Some arcs1) s).1 = Ok false
  ∧ (ac3 arch (Some arcs2) s).1 = Ok false
  ∧ domains (ac3 arch (Some arcs1) s).2 !! left3 = Some ∅
  ∧ domains (ac3 arch (Some arcs2) s).2 !! left3
    = Some {[ "cat"; "dog" ]}%string.
Proof.
  cbv zeta. split; [apply perm_swap|]. repeat split; vm_compute; reflexivity.
Qed.

Lemma subseteq_ne_witness (X Y : gset string) :
  X ⊆ Y → (X ≠ Y ↔ ∃ v, v ∈ Y ∧ v ∉ X).
Proof.
  intros Hsub. split.
  - intros Hne. destruct (decide (Y ∖ X = ∅)) as [He|Hd].
    + destruct Hne. apply set_eq. intros v. split; [apply Hsub|].
      intros Hv. destruct (decide (v ∈ X)); [done|].
      assert (v ∈ Y ∖ X) as Hin by set_solver. rewrite He in Hin. set_solver.
    + apply set_choose_L in Hd as [v Hv]. exists v. set_solver.
  - intros (v & HY & HX) ->. done.
Qed.

(** C6. [revise(x, y)] changes at most the domain of [x]. With an overlap
    [(a, b)] it removes exactly the words [v] of [x]'s domain for which no
    word [w] of [y]'s domain has [w ≠ v] and [v[a] == w[b]]; without an
    overlap it removes nothing; and it returns [True] exactly when a word
    was removed. *)
Theorem revise_removes_unsupported cw x y s r s' dx dy :
  domains s !! x = Some dx → domains s !! y = Some dy →
  revise cw x y s = (Ok r, s') →
  ∃ dx',
    s' = with_domains (insert x dx') s
    ∧ dx' ⊆ dx
    ∧ (r = true ↔ ∃ v, v ∈ dx ∧ v ∉ dx')
    ∧ match overlaps cw !! (x, y) with
      | Some (Some (a, b)) =>
          ∀ v, v ∈ dx →
               (v ∉ dx' ↔ ¬ ∃ w, w ∈ dy ∧ v ≠ w
                              ∧ ∃ c, String.get a v = Some c
                                     ∧ String.get b w = Some c)
      | _ => dx' = dx
      end.
Proof.
  intros Hx Hy Hrev.
  pose proof (revise_Ok cw x y s r s' dx dy Hx Hy Hrev) as Hspec.
  destruct (overlaps cw !! (x, y)) as [[[a b]|]|] eqn:Ho; [| |done].
  - destruct Hspec as [-> Hr]. exists (supported a b dx dy).
    pose proof (supported_subseteq a b dx dy) as Hsub.
    split; [done|]. split; [done|]. split.
    + by rewrite Hr, subseteq_ne_witness.
    + intros v Hv. unfold supported. rewrite elem_of_filter.
      unfold set_Exists, supports. naive_solver.
  - destruct Hspec as [-> ->]. exists dx. split; [by rewrite with_domains_id|].
    split; [done|]. split; [|done]. split; [done|]. intros (v & ? & ?). done.
Qed.

Lemma revise_removes_unsupported_witness :
  let s := after_node_consistency crossing in
  let ws : gset string := {[ "cat"; "art"; "dog" ]}%string in
  let s' := (revise crossing across3 down3 s).2 in
  domains s !! across3 = Some ws ∧ domains s !! down3 = Some ws
  ∧ revise crossing across3 down3 s = (Ok true, s')
  ∧ ∃ dx',
      s' = with_domains (insert across3 dx') s
      ∧ dx' ⊆ ws
      ∧ (true = true ↔ ∃ v, v ∈ ws ∧ v ∉ dx')
      ∧ match overlaps crossing !! (across3, down3) with
        | Some (Some (a, b)) =>
            ∀ v, v ∈ ws →
                 (v ∉ dx' ↔ ¬ ∃ w, w ∈ ws ∧ v ≠ w
                                ∧ ∃ c, String.get a v = Some c
                                       ∧ String.get b w = Some c)
        | _ => dx' = ws
        end.
Proof.
  intros s ws s'.
  assert (domains s !! across3 = Some ws) as H1 by (vm_compute; reflexivity).
  assert (domains s !! down3 = Some ws) as H2 by (vm_compute; reflexivity).
  assert (revise crossing across3 down3 s = (Ok true, s')) as H3
    by (vm_compute; reflexivity).
  repeat (split; [assumption|]).
  exact (revise_removes_unsupported crossing across3 down3 s true s' ws ws
           H1 H2 H3).
Defined.

(** C7 (amended). On node-consistent domains [ac3] terminates. It returns
    [False] exactly when a domain that had a word ends up empty, and it
    returns at the revision that empties it. Otherwise it runs until the
    queue is empty and returns [True]; then, if the initial queue held
    every arc of the problem, every slot is arc consistent with each of
    its neighbours. A revision that shrinks [x]'s domain without emptying
    it appends [(z, x)] for every neighbour [z] of [x] other than [y]. *)
Theorem ac3_outcome cw arcs s :
  overlaps_in_bounds cw → overlaps_total cw → overlaps_symmetric cw →
  node_consistent s → domains_cover cw s →
  valid_arcs cw (ac3_queue cw arcs) →
  ∃ b s',
    ac3 cw arcs s = (Ok b, s')
    ∧ (b = false
       ↔ ∃ v, dom_at (domains s) v ≠ ∅ ∧ dom_at (domains s') v = ∅)
    ∧ (b = true → all_arcs cw ⊆ ac3_queue cw arcs →
       ∀ x y, x ∈ variables cw → y ∈ neighbors cw x →
              arc_consistent cw (domains s') x y)
    ∧ (∀ fuel x y rest t t1 dx,
         revise cw x y t = (Ok true, t1) → domains t1 !! x = Some dx →
         ac3_loop cw (S fuel) ((x, y) :: rest) t
         = if decide (size dx = 0) then (Ok false, t1)
           else ac3_loop cw fuel
                  (rest ++ ((λ z, (z, x)) <$> elements (neighbors cw x ∖ {[y]})))
                  t1)
    ∧ (∀ fuel x y rest t t1,
         revise cw x y t = (Ok false, t1) →
         ac3_loop cw (S fuel) ((x, y) :: rest) t = ac3_loop cw fuel rest t1).
Proof.
  intros Hb Ht Hsym Hn Hc Hq.
  destruct (ac3_returns cw arcs s Hb Ht Hn Hc Hq) as (b & s' & Hres & Hrun).
  exists b, s'. split; [done|].
  pose proof (ac3_run_result cw Hb Ht _ _ _ _ Hrun Hn Hc Hq) as Hresult.
  split; [|split; [|split]].
  - destruct b; split; try done.
    + intros (v & Hv & Hv'). by destruct (Hresult v Hv).
  - intros -> Hfull x y Hx Hy.
    apply (neighbors_variables cw) in Hy as [Hy Hne].
    apply (ac3_run_consistent cw Hb Ht Hsym _ s s' Hrun Hn Hc Hq); try done.
    by apply pending_full.
  - intros fuel x y rest t t1 dx Hrev Hdx. cbn [ac3_loop].
    unfold bind at 1. rewrite Hrev. unfold bind at 1, domain_of. rewrite Hdx.
    by destruct (decide (size dx = 0)).
  - intros fuel x y rest t t1 Hrev. cbn [ac3_loop].
    unfold bind at 1. by rewrite Hrev.
Qed.

Lemma ac3_outcome_witness :
  let s := after_node_consistency crossing in
  overlaps_in_bounds crossing ∧ overlaps_total crossing
  ∧ overlaps_symmetric crossing
  ∧ node_consistent s ∧ domains_cover crossing s
  ∧ valid_arcs crossing (ac3_queue crossing None)
  ∧ ∃ b s', ac3 crossing None s = (Ok b, s')
            ∧ (b = false
               ↔ ∃ v, dom_at (domains s) v ≠ ∅ ∧ dom_at (domains s') v = ∅).
Proof.
  intros s.
  assert (overlaps_in_bounds crossing) as H1 by decide_by_computation.
  assert (overlaps_total crossing) as H2 by decide_by_computation.
  assert (overlaps_symmetric crossing) as H3 by decide_by_computation.
  assert (node_consistent s) as H4 by decide_by_computation.
  assert (domains_cover crossing s) as H5 by decide_by_computation.
  assert (valid_arcs crossing (ac3_queue crossing None)) as H6
    by decide_by_computation.
  repeat (split; [assumption|]).
  destruct (ac3_outcome crossing None s H1 H2 H3 H4 H5 H6)
    as (b & s' & Hres & Hfalse & _).
  exists b, s'. split; [exact Hres|exact Hfalse].
Defined.

(** With the arcs [(bar3, leg5); (bar3, leg4)] only, [ac3] returns [True]
    while [leg5] is not arc consistent with its neighbour [bar3]. *)
Lemma ac3_partial_arcs_not_consistent :
  let arcs := [(bar3, leg5); (bar3, leg4)] in
  let s := after_node_consistency fork in
  (ac3 fork (Some arcs) s).1 = Ok true
  ∧ leg5 ∈ variables fork ∧ bar3 ∈ neighbors fork leg5
  ∧ ¬ arc_consistent fork (domains (ac3 fork (Some arcs) s).2) leg5 bar3.
Proof.
  cbv zeta. split; [vm_compute; reflexivity|].
  split; [decide_by_computation|]. split; [decide_by_computation|].
  apply (bool_decide_eq_false_1 _). vm_compute. reflexivity.
Qed.

(** A slot that fits no word and has no neighbour: [ac3] returns [True]
    while its domain is empty. *)
Lemma ac3_true_with_empty_domain :
  ac3 single4 None (after_node_consistency single4)
  = (Ok true, after_node_consistency single4)
  ∧ across4 ∈ variables single4
  ∧ domains (after_node_consistency single4) !! across4 = Some ∅.
Proof. repeat split; vm_compute; reflexivity. Qed.

(** C8. The search does not touch the domains, and every dict that exists
    when [backtrack] is called, its argument among them, has the same
    contents afterwards: the call only adds dicts. The two heuristics leave
    the whole state as it is. *)
Theorem backtrack_frame cw fuel assignment s :
  domains (backtrack cw fuel assignment s).2 = domains s
  ∧ (∀ h a, heap s !! h = Some a →
            heap (backtrack cw fuel assignment s).2 !! h = Some a)
  ∧ (select_unassigned_variable cw assignment s).2 = s
  ∧ (∀ var, (order_domain_values cw var assignment s).2 = s).
Proof.
  pose proof (backtrack_extends cw fuel assignment s) as Hext.
  split; [by destruct Hext|]. split.
  - intros h a Ha. by eapply extends_lookup.
  - split; [apply read_only_select_unassigned_variable|].
    intros var. apply read_only_order_domain_values.
Qed.



(** With an empty arc list [ac3] does propagate: on the crossing it cuts
    both domains down to one word. *)
Lemma ac3_empty_arcs_propagates :
  let s' := (ac3 crossing (Some []) (after_node_consistency crossing)).2 in
  domains s' !! across3 = Some {[ "cat" ]}%string
  ∧ domains s' !! down3 = Some {[ "art" ]}%string.
Proof. split; vm_compute; reflexivity. Qed.

(** C10. On node-consistent domains and with offsets that lie inside the
    slots, [revise] never raises [IndexError], whatever arc it is given. *)
Theorem revise_index_safe cw x y s :
  node_consistent s → overlaps_in_bounds cw →
  (revise cw x y s).1 ≠ Raise IndexError.
Proof.
  intros Hn Hb. unfold revise, overlaps_get.
  destruct (overlaps cw !! (x, y)) as [[[a b]|]|] eqn:Ho; [| done..].
  destruct (Hb (x, y) _ Ho) as [Ha Hb']. simpl in Ha, Hb'.
  erewrite bind_Ok; last reflexivity.
  destruct (domains s !! x) as [dx|] eqn:Hx; last first.
  { erewrite bind_Raise; last by (unfold domain_of; rewrite Hx). done. }
  erewrite bind_Ok; last by (unfold domain_of; rewrite Hx).
  pose proof (revise_scan_not_IndexError a b y (elements dx) ∅ s) as Hscan.
  unfold bind at 1.
  destruct (revise_scan a b y (elements dx) ∅ s) as [[rem|e|] s1] eqn:Hrun;
    simpl in *.
  - destruct (decide (rem ≠ ∅)); [|done].
    apply revise_scan_Ok in Hrun as (-> & _).
    erewrite bind_Ok; last first.
    { unfold domain_subtract.
      erewrite bind_Ok; last by (unfold domain_of; rewrite Hx). reflexivity. }
    done.
  - intros [= ->]. apply Hscan; [| |done].
    + apply Forall_forall. intros v Hv. apply elem_of_elements in Hv.
      pose proof (Hn x dx Hx v Hv) as Hf. unfold fits in Hf. lia.
    + intros dy Hy w Hw. pose proof (Hn y dy Hy w Hw) as Hf.
      unfold fits in Hf. lia.
  - done.
Qed.

Lemma revise_index_safe_witness :
  let s := after_node_consistency crossing in
  node_consistent s ∧ overlaps_in_bounds crossing
  ∧ (revise crossing across3 down3 s).1 ≠ Raise IndexError.
Proof.
  intros s.
  assert (node_consistent s) as H1 by decide_by_computation.
  assert (overlaps_in_bounds crossing) as H2 by decide_by_computation.
  repeat (split; [assumption|]).
  exact (revise_index_safe crossing across3 down3 s H1 H2).
Defined.

(** * Further results *)

(** ** [revise] and [ac3] only prune *)

Lemma pruned_refl s : pruned s s.
Proof. by repeat split. Qed.

Lemma pruned_trans s1 s2 s3 : pruned s1 s2 → pruned s2 s3 → pruned s1 s3.
Proof.
  intros (Hh1 & Hc1 & Hk1 & Hd1) (Hh2 & Hc2 & Hk2 & Hd2).
  split; [congruence|]. split; [congruence|]. split.
  - intros v. by rewrite Hk2, Hk1.
  - intros v. etrans; [apply Hd2|apply Hd1].
Qed.

Lemma pruned_insert s x (dx d' : gset string) :
  domains s !! x = Some dx → d' ⊆ dx → pruned s (with_domains (insert x d') s).
Proof.
  intros Hdx Hsub. split; [done|]. split; [done|]. split.
  - intros v. simpl. destruct (decide (x = v)) as [->|Hne].
    + rewrite lookup_insert_eq, Hdx. split; by eexists.
    + by rewrite lookup_insert_ne.
  - intros v. simpl. rewrite dom_at_insert. case_decide; [subst v|done].
    by rewrite (dom_at_Some _ _ _ Hdx).
Qed.

Lemma read_only_revise_scan a b y xs acc : read_only (revise_scan a b y xs acc).
Proof.
  revert acc. induction xs as [|v xs IH]; intros acc; simpl; [done|].
  apply read_only_bind; [apply read_only_domain_of|]. intros dy.
  apply read_only_bind; [apply read_only_lift|]. intros p. apply IH.
Qed.

Lemma revise_state cw x y s o s1 :
  revise cw x y s = (o, s1) →
  (o ≠ Ok true ∧ s1 = s)
  ∨ (o = Ok true
     ∧ ∃ dx d', domains s !! x = Some dx ∧ d' ⊂ dx
                ∧ s1 = with_domains (insert x d') s).
Proof.
  destruct o as [r|e|].
  - intros H. apply revise_Ok_state in H as [[-> ->]|(-> & H)]; [by left|by right].
  - intros H. left. split; [done|]. revert H. unfold revise.
    unfold bind at 1, lift, overlaps_get.
    destruct (overlaps cw !! (x, y)) as [[[a b]|]|]; [|by intros [=]|by intros [= _ <-]].
    unfold bind at 1, domain_of.
    destruct (domains s !! x) as [dx|] eqn:Hx; [|by intros [= _ <-]].
    unfold bind at 1.
    destruct (revise_scan a b y (elements dx) ∅ s) as [[rem| |] s0] eqn:Hscan;
      pose proof (read_only_inv _ _ _ _ (read_only_revise_scan _ _ _ _ _) Hscan)
        as ->; [|by intros [= _ <-]|by intros [=]].
    destruct (decide (rem ≠ ∅)); [|by intros [=]].
    unfold bind at 1, domain_subtract, bind at 1, domain_of. rewrite Hx.
    by intros [=].
  - intros H. left. split; [done|]. revert H. unfold revise.
    unfold bind at 1, lift, overlaps_get.
    destruct (overlaps cw !! (x, y)) as [[[a b]|]|]; [|by intros [=]|by intros [=]].
    unfold bind at 1, domain_of.
    destruct (domains s !! x) as [dx|] eqn:Hx; [|by intros [=]].
    unfold bind at 1.
    destruct (revise_scan a b y (elements dx) ∅ s) as [[rem| |] s0] eqn:Hscan;
      pose proof (read_only_inv _ _ _ _ (read_only_revise_scan _ _ _ _ _) Hscan)
        as ->; [|by intros [=]|by intros [= <-]].
    destruct (decide (rem ≠ ∅)); [|by intros [=]].
    unfold bind at 1, domain_subtract, bind at 1, domain_of. rewrite Hx.
    by intros [=].
Qed.

Lemma ac3_loop_pruned cw fuel queue s : pruned s (ac3_loop cw fuel queue s).2.
Proof.
  revert queue s. induction fuel as [|fuel IH]; intros queue s;
    [apply pruned_refl|].
  cbn [ac3_loop]. destruct queue as [|[x y] rest]; [apply pruned_refl|].
  unfold bind at 1.
  destruct (revise cw x y s) as [o s1] eqn:Hr.
  apply revise_state in Hr as [[Ho ->]|(-> & dx & d' & Hdx & Hsub & ->)].
  - destruct o as [[]| |]; try apply pruned_refl; [done|apply IH].
  - unfold bind at 1, domain_of. simpl. rewrite lookup_insert_eq.
    assert (pruned s (with_domains (insert x d') s)) as Hp.
    { apply (pruned_insert s x dx d' Hdx). by destruct Hsub. }
    destruct (decide (size d' = 0)); [done|].
    eapply pruned_trans; [exact Hp|apply IH].
Qed.

(** X1. [revise(x, y)] changes the state only when it returns [True], and
    then by replacing the domain of [x] with a strictly smaller one. When
    it returns [False] or raises, the domains are as they were. *)
Theorem revise_changes_only_on_True cw x y s :
  ((revise cw x y s).1 = Ok true
   ∧ ∃ dx d', domains s !! x = Some dx ∧ d' ⊂ dx
              ∧ (revise cw x y s).2 = with_domains (insert x d') s)
  ∨ ((revise cw x y s).1 ≠ Ok true ∧ (revise cw x y s).2 = s).
Proof.
  destruct (revise cw x y s) as [o s1] eqn:Hr. simpl.
  apply revise_state in Hr as [[Ho ->]|(-> & dx & d' & Hdx & Hsub & ->)].
  - by right.
  - left. split; [done|]. by exists dx, d'.
Qed.

(** X2. Whatever the arcs and the state, and whether it returns or raises,
    [ac3] only removes words from domains: every slot that had a domain
    still has one, each domain is a subset of what it was, and no
    assignment dict is touched. *)
Theorem ac3_only_prunes cw arcs s :
  heap (ac3 cw arcs s).2 = heap s
  ∧ (∀ v, is_Some (domains (ac3 cw arcs s).2 !! v) ↔ is_Some (domains s !! v))
  ∧ (∀ v, dom_at (domains (ac3 cw arcs s).2) v ⊆ dom_at (domains s) v).
Proof.
  unfold ac3.
  destruct (ac3_loop_pruned cw (ac3_fuel cw (ac3_queue cw arcs) s)
              (ac3_queue cw arcs) s) as (Hh & _ & Hk & Hd).
  done.
Qed.

(** ** [revise] twice *)

Lemma revise_scan_each a b y xs acc s r s' dy :
  domains s !! y = Some dy →
  revise_scan a b y xs acc s = (Ok r, s') →
  Forall (λ v, ∃ p, overlap_possible a b v (elements dy) = Ok p) xs.
Proof.
  intros Hdy. revert acc. induction xs as [|v xs IH]; intros acc; simpl;
    [constructor|].
  intros H. apply bind_inv_Ok in H as (dy' & s0 & Hd & H).
  unfold domain_of in Hd. rewrite Hdy in Hd. injection Hd as <- <-.
  apply bind_inv_Ok in H as (p & s0 & Hp & H).
  unfold lift in Hp. injection Hp as Hp <-.
  constructor; [by exists p|]. by eapply IH.
Qed.

Lemma revise_scan_all_possible a b y xs acc s dy :
  domains s !! y = Some dy →
  Forall (λ v, overlap_possible a b v (elements dy) = Ok true) xs →
  revise_scan a b y xs acc s = (Ok acc, s).
Proof.
  intros Hdy Hall. revert acc. induction Hall as [|v xs Hv Hall IH];
    intros acc; simpl; [done|].
  unfold bind at 1, domain_of. rewrite Hdy.
  unfold bind at 1, lift. rewrite Hv. apply IH.
Qed.

Lemma revise_scan_no_domain a b y v xs acc s :
  domains s !! y = None →
  revise_scan a b y (v :: xs) acc s = (Raise KeyError, s).
Proof. intros Hdy. simpl. unfold bind at 1, domain_of. by rewrite Hdy. Qed.

(** X3. [revise] is idempotent: after [revise(x, y)] has returned, a second
    [revise(x, y)] on distinct slots finds nothing to remove, returns
    [False] and leaves the domains as they are. *)
Theorem revise_twice cw x y s r s1 :
  x ≠ y → revise cw x y s = (Ok r, s1) →
  revise cw x y s1 = (Ok false, s1).
Proof.
  intros Hxy H.
  destruct (revise_Ok_state _ _ _ _ _ _ H)
    as [[-> ->]|(-> & dx & d' & Hdx & Hsub & Hs1)]; [done|].
  assert (elements dx ≠ []) as Hne.
  { intros Hnil. apply elements_empty_inv in Hnil.
    apply leibniz_equiv in Hnil. subst dx.
    destruct Hsub as [_ Hn]. apply Hn. set_solver. }
  revert H. unfold revise. unfold bind at 1 3, lift, overlaps_get.
  destruct (overlaps cw !! (x, y)) as [[[a b]|]|] eqn:Ho; [|by intros [=]..].
  unfold bind at 1, domain_of at 1. rewrite Hdx.
  destruct (domains s !! y) as [dy|] eqn:Hdy; last first.
  { destruct (elements dx) as [|v xs] eqn:Hel; [done|].
    unfold bind at 1. by rewrite revise_scan_no_domain. }
  intros H. apply bind_inv_Ok in H as (rem & s0 & Hscan & H).
  pose proof (revise_scan_each _ _ _ _ _ _ _ _ _ Hdy Hscan) as Heach.
  apply revise_scan_Ok in Hscan as (-> & [Hnil|(dy' & Hdy' & Hrem)] & _);
    [done|].
  rewrite Hdy in Hdy'. injection Hdy' as <-.
  rewrite union_empty_l_L in Hrem.
  assert (dx ∖ rem = supported a b dx dy) as Hsupp
    by (rewrite Hrem; apply unsupported_difference).
  destruct (decide (rem ≠ ∅)) as [Hr|Hr]; [|by injection H].
  apply bind_inv_Ok in H as ([] & s0 & Hsub' & [= <-]).
  unfold domain_subtract in Hsub'.
  erewrite bind_Ok in Hsub'; last by (unfold domain_of; rewrite Hdx).
  injection Hsub' as <-.
  set (s2 := with_domains (insert x (dx ∖ rem)) s).
  assert (domains s2 !! y = Some dy) as Hdy2.
  { simpl. by rewrite lookup_insert_ne. }
  unfold bind at 1. unfold bind at 1, domain_of at 1. simpl.
  rewrite lookup_insert_eq.
  fold s2. unfold bind at 1.
  rewrite (revise_scan_all_possible a b y _ ∅ s2 dy Hdy2).
  - by rewrite decide_False by (intros Hn; by apply Hn).
  - apply Forall_forall. intros v Hv. apply elem_of_elements in Hv.
    rewrite Hsupp in Hv.
    apply elem_of_filter in Hv as [Hex Hv].
    rewrite Forall_forall in Heach.
    destruct (Heach v ltac:(by apply elem_of_elements)) as [p Hp].
    rewrite Hp. f_equal.
    apply (overlap_possible_Ok a b v (elements dy) p Hp).
    by apply Exists_elements_set.
Qed.

Lemma revise_twice_witness :
  across3 ≠ down3
  ∧ revise crossing across3 down3 (after_node_consistency crossing)
    = (Ok true, (revise crossing across3 down3
                   (after_node_consistency crossing)).2)
  ∧ revise crossing across3 down3
      (revise crossing across3 down3 (after_node_consistency crossing)).2
    = (Ok false, (revise crossing across3 down3
                    (after_node_consistency crossing)).2).
Proof.
  assert (across3 ≠ down3) as H1 by done.
  assert (revise crossing across3 down3 (after_node_consistency crossing)
          = (Ok true, (revise crossing across3 down3
                         (after_node_consistency crossing)).2)) as H2
    by (vm_compute; reflexivity).
  split; [exact H1|]. split; [exact H2|].
  exact (revise_twice crossing across3 down3 _ true _ H1 H2).
Defined.

(** ** The work of [ac3] is bounded *)

(** X4. The [while queue] loop of [ac3] ends, from every state and for
    every queue, after at most [len(queue)] plus (number of slots) times
    (number of candidate words in all domains) iterations. *)
Theorem ac3_loop_bounded cw fuel queue s :
  length queue + size (variables cw) * total_size (domains s) < fuel →
  ∃ o s', ac3_loop cw fuel queue s = (o, s') ∧ o ≠ OutOfFuel.
Proof.
  intros Hf. pose proof (ac3_loop_fueled cw fuel queue s Hf) as H.
  destruct (ac3_loop cw fuel queue s) as [o s']. by exists o, s'.
Qed.

Lemma ac3_loop_bounded_witness :
  length (all_arcs crossing)
  + size (variables crossing)
    * total_size (domains (after_node_consistency crossing)) < 15
  ∧ ∃ o s', ac3_loop crossing 15 (all_arcs crossing)
              (after_node_consistency crossing) = (o, s')
            ∧ o ≠ OutOfFuel.
Proof.
  assert (length (all_arcs crossing)
          + size (variables crossing)
            * total_size (domains (after_node_consistency crossing)) < 15)
    as H by (vm_compute; lia).
  split; [exact H|].
  exact (ac3_loop_bounded crossing 15 _ _ H).
Defined.

(** ** [ac3] keeps every arc-consistent family of candidates *)

(** X5. On node-consistent domains [ac3] removes no word of an
    arc-consistent family: if the sets [F] are arc consistent for every
    pair of slots and lie inside the domains before the call, they lie
    inside the domains after it, whatever the arcs given. When the queue
    holds every arc of the problem and [ac3] returns [True], the domains
    it leaves are arc consistent themselves, so they are the largest
    arc-consistent family inside the domains it started from. *)
Theorem ac3_keeps_arc_consistent cw arcs s b s' (F : gmap Var (gset string)) :
  overlaps_in_bounds cw → overlaps_total cw →
  node_consistent s → domains_cover cw s →
  valid_arcs cw (ac3_queue cw arcs) →
  ac3 cw arcs s = (Ok b, s') →
  (∀ x y, x ∈ variables cw → y ∈ variables cw → x ≠ y →
          arc_consistent cw F x y) →
  (∀ v, dom_at F v ⊆ dom_at (domains s) v) →
  (∀ v, dom_at F v ⊆ dom_at (domains s') v)
  ∧ (overlaps_symmetric cw → all_arcs cw ⊆ ac3_queue cw arcs → b = true →
     (∀ v, dom_at (domains s') v ⊆ dom_at (domains s) v)
     ∧ ∀ x y, x ∈ variables cw → y ∈ variables cw → x ≠ y →
              arc_consistent cw (domains s') x y).
Proof.
  intros Hb Ht Hn Hc Hq Hrun HF Hsub.
  apply ac3_loop_run in Hrun. split.
  - exact (ac3_run_above cw Hb Ht F _ s b s' Hrun Hn Hc Hq HF Hsub).
  - intros Hsym Hfull ->. split.
    + by destruct (ac3_run_shrinks cw Hb Ht _ s true s' Hrun Hn Hc Hq)
        as (_ & _ & _ & ?).
    + intros x y Hx Hy Hxy.
      apply (ac3_run_consistent cw Hb Ht Hsym _ s s' Hrun Hn Hc Hq); try done.
      by apply pending_full.
Qed.

Lemma ac3_keeps_arc_consistent_witness :
  let s := after_node_consistency crossing in
  let s' := (ac3 crossing None s).2 in
  let F : gmap Var (gset string) :=
    <[ across3 := {[ "cat" ]}%string ]> (<[ down3 := {[ "art" ]}%string ]> ∅) in
  overlaps_in_bounds crossing ∧ overlaps_total crossing
  ∧ node_consistent s ∧ domains_cover crossing s
  ∧ valid_arcs crossing (ac3_queue crossing None)
  ∧ ac3 crossing None s = (Ok true, s')
  ∧ (∀ x y, x ∈ variables crossing → y ∈ variables crossing → x ≠ y →
            arc_consistent crossing F x y)
  ∧ (∀ v, dom_at F v ⊆ dom_at (domains s) v)
  ∧ overlaps_symmetric crossing
  ∧ all_arcs crossing ⊆ ac3_queue crossing None
  ∧ (∀ v, dom_at F v ⊆ dom_at (domains s') v)
  ∧ (∀ v, dom_at (domains s') v ⊆ dom_at (domains s) v)
  ∧ ∀ x y, x ∈ variables crossing → y ∈ variables crossing → x ≠ y →
           arc_consistent crossing (domains s') x y.
Proof.
  intros s s' F.
  assert (overlaps_in_bounds crossing) as H1 by decide_by_computation.
  assert (overlaps_total crossing) as H2 by decide_by_computation.
  assert (node_consistent s) as H3 by decide_by_computation.
  assert (domains_cover crossing s) as H4 by decide_by_computation.
  assert (valid_arcs crossing (ac3_queue crossing None)) as H5
    by decide_by_computation.
  assert (ac3 crossing None s = (Ok true, s')) as H6
    by (vm_compute; reflexivity).
  assert (∀ x y, x ∈ variables crossing → y ∈ variables crossing → x ≠ y →
                 arc_consistent crossing F x y) as H7.
  { intros x y Hx Hy _. revert x Hx y Hy.
    change (set_Forall (λ x, set_Forall (λ y, arc_consistent crossing F x y)
                               (variables crossing)) (variables crossing)).
    decide_by_computation. }
  assert (∀ v, dom_at F v ⊆ dom_at (domains s) v) as H8.
  { intros v. unfold dom_at, F.
    destruct (decide (v = across3)) as [->|Ha];
      [apply (bool_decide_unpack _); vm_compute; exact I|].
    rewrite lookup_insert_ne by done.
    destruct (decide (v = down3)) as [->|Hd];
      [apply (bool_decide_unpack _); vm_compute; exact I|].
    rewrite lookup_insert_ne by done. rewrite lookup_empty. simpl.
    apply empty_subseteq. }
  assert (overlaps_symmetric crossing) as H9 by decide_by_computation.
  assert (all_arcs crossing ⊆ ac3_queue crossing None) as H10 by done.
  repeat (split; [assumption|]).
  destruct (ac3_keeps_arc_consistent crossing None s true s' F
              H1 H2 H3 H4 H5 H6 H7 H8) as [Hkeep Hmax].
  split; [exact Hkeep|]. exact (Hmax H9 H10 eq_refl).
Defined.

(** ** What [consistent] accepts *)

Lemma consistent_inner_compatible cw x word1 ys :
  consistent_inner cw x word1 ys = Ok true ↔ compatible cw x word1 ys.
Proof.
  split; [intros H; exact (consistent_inner_true _ _ _ _ H)|].
  induction ys as [|[y word2] ys IH]; intros Hc; simpl; [done|].
  assert (compatible cw x word1 ys) as Hrest.
  { intros y' w' Hin. apply Hc. by right. }
  destruct (decide (x ≠ y)) as [Hxy|_]; [|by apply IH].
  destruct (Hc y word2 ltac:(left) Hxy) as (Hne & o & Ho & Hov).
  rewrite decide_False by done. unfold overlaps_get. rewrite Ho. simpl.
  destruct o as [[p q]|]; [|by apply IH].
  destruct (Hov p q eq_refl) as (c & Hp & Hq).
  unfold index. rewrite Hp, Hq. simpl.
  rewrite decide_False by (intros Hn; by apply Hn). by apply IH.
Qed.

Lemma consistent_outer_compatible cw xs all :
  consistent_outer cw xs all = Ok true ↔
  ∀ x word1, (x, word1) ∈ xs →
    String.length word1 = v_length x ∧ compatible cw x word1 all.
Proof.
  split.
  - intros H x word1 Hin.
    destruct (consistent_outer_true cw xs all H x word1 Hin) as [Hlen Hinner].
    split; [done|]. by apply consistent_inner_compatible.
  - induction xs as [|[x word1] xs IH]; intros Hc; simpl; [done|].
    destruct (Hc x word1 ltac:(left)) as [Hlen Hcomp].
    rewrite decide_False by (intros Hn; by apply Hn).
    apply consistent_inner_compatible in Hcomp. rewrite Hcomp. simpl.
    apply IH. intros y w Hin. apply Hc. by right.
Qed.

(** X6. [consistent] returns [True] exactly for the assignments in which
    every word has the length of its slot, distinct slots hold distinct
    words, every pair of distinct assigned slots has an entry in
    [crossword.overlaps], and at every overlap the two letters agree. It
    reads the state and does not change it. *)
Theorem consistent_True_iff cw assignment s :
  (consistent cw assignment s).2 = s
  ∧ ((consistent cw assignment s).1 = Ok true ↔
     ∀ x word1, (x, word1) ∈ contents s assignment →
       String.length word1 = v_length x
       ∧ ∀ y word2, (y, word2) ∈ contents s assignment → x ≠ y →
           word1 ≠ word2
           ∧ ∃ o, overlaps cw !! (x, y) = Some o
                  ∧ ∀ p q, o = Some (p, q) →
                           ∃ c, String.get p word1 = Some c
                                ∧ String.get q word2 = Some c).
Proof.
  split; [done|]. unfold consistent, bind, deref, lift. simpl.
  apply consistent_outer_compatible.
Qed.

(** ** [consistent] on words that fit *)

Lemma consistent_inner_safe cw x word1 ys :
  overlaps_in_bounds cw → overlaps_total cw →
  x ∈ variables cw → fits x word1 →
  (∀ y word2, (y, word2) ∈ ys → y ∈ variables cw ∧ fits y word2) →
  ∃ b, consistent_inner cw x word1 ys = Ok b.
Proof.
  intros Hb Ht Hx Hfx. induction ys as [|[y word2] ys IH]; intros Hys; simpl;
    [by eexists|].
  assert (∃ b, consistent_inner cw x word1 ys = Ok b) as Hrest.
  { apply IH. intros y' w' Hin. apply Hys. by right. }
  destruct (decide (x ≠ y)) as [Hxy|_]; [|done].
  destruct (decide (word1 = word2)); [by eexists|].
  destruct (Hys y word2 ltac:(left)) as [Hy Hfy].
  destruct (Ht x Hx y Hy Hxy) as [o Ho].
  unfold overlaps_get. rewrite Ho. simpl.
  destruct o as [[p q]|]; [|done].
  pose proof (Hb (x, y) _ Ho) as [Hp Hq]. simpl in Hp, Hq.
  unfold fits in Hfx, Hfy.
  destruct (index_in_bounds word1 p ltac:(lia)) as (c1 & -> & _).
  destruct (index_in_bounds word2 q ltac:(lia)) as (c2 & -> & _).
  simpl. destruct (decide (c1 ≠ c2)); [by eexists|done].
Qed.

Lemma consistent_outer_safe cw xs all :
  overlaps_in_bounds cw → overlaps_total cw →
  (∀ x w, (x, w) ∈ xs → x ∈ variables cw ∧ fits x w) →
  (∀ x w, (x, w) ∈ all → x ∈ variables cw ∧ fits x w) →
  ∃ b, consistent_outer cw xs all = Ok b.
Proof.
  intros Hb Ht Hxs Hall. induction xs as [|[x word1] xs IH]; simpl;
    [by eexists|].
  destruct (decide (v_length x ≠ String.length word1)); [by eexists|].
  destruct (Hxs x word1 ltac:(left)) as [Hx Hfx].
  destruct (consistent_inner_safe cw x word1 all Hb Ht Hx Hfx Hall) as [b ->].
  simpl. destruct b; [|by eexists].
  apply IH. intros y w Hin. apply Hxs. by right.
Qed.

(** X7. On an assignment that gives slots of the crossword words of their
    own length, [consistent] raises nothing, neither [KeyError] nor
    [IndexError]: it returns a boolean. The offsets of the overlaps lie
    inside the slots, and distinct slots have an entry in
    [crossword.overlaps]. *)
Theorem consistent_returns cw assignment s :
  overlaps_in_bounds cw → overlaps_total cw →
  (∀ x w, (x, w) ∈ contents s assignment → x ∈ variables cw ∧ fits x w) →
  ∃ b, consistent cw assignment s = (Ok b, s).
Proof.
  intros Hb Ht Ha. unfold consistent, bind, deref, lift.
  destruct (consistent_outer_safe cw _ _ Hb Ht Ha Ha) as [b ->].
  by exists b.
Qed.

Lemma consistent_returns_witness :
  let s := push_dict [(across3, "cat"); (down3, "art")]%string
             (after_node_consistency crossing) in
  overlaps_in_bounds crossing ∧ overlaps_total crossing
  ∧ (∀ x w, (x, w) ∈ contents s 0 → x ∈ variables crossing ∧ fits x w)
  ∧ ∃ b, consistent crossing 0 s = (Ok b, s).
Proof.
  intros s.
  assert (overlaps_in_bounds crossing) as H1 by decide_by_computation.
  assert (overlaps_total crossing) as H2 by decide_by_computation.
  assert (∀ x w, (x, w) ∈ contents s 0 → x ∈ variables crossing ∧ fits x w)
    as H3.
  { intros x w Hin. revert x w Hin.
    change (∀ x w, (x, w) ∈ [(across3, "cat"); (down3, "art")]%string →
                   x ∈ variables crossing ∧ fits x w).
    intros x w Hin.
    apply elem_of_cons in Hin as [[= -> ->]|Hin];
      [split; [decide_by_computation|reflexivity]|].
    apply elem_of_cons in Hin as [[= -> ->]|Hin];
      [split; [decide_by_computation|reflexivity]|].
    by apply elem_of_nil in Hin. }
  repeat (split; [assumption|]).
  exact (consistent_returns crossing 0 s H1 H2 H3).
Defined.

(** A word that is too short for its slot makes [consistent] fail on the
    subscript before the length of that word is looked at. *)
Lemma consistent_short_word_raises :
  consistent crossing 0
    (push_dict [(across3, "cat"); (down3, "")]%string
       (after_node_consistency crossing))
  = (Raise IndexError,
     push_dict [(across3, "cat"); (down3, "")]%string
       (after_node_consistency crossing)).
Proof. vm_compute. reflexivity. Qed.

(** ** [select_unassigned_variable] *)

Lemma list_of_variables_Ok cw a vars s l s' :
  list_of_variables cw a vars s = (Ok l, s') →
  s' = s
  ∧ l = (λ v, (v, size (dom_at (domains s) v), size (neighbors cw v)))
        <$> filter (λ v, dict_get a v = None) vars.
Proof.
  revert l. induction vars as [|var vars IH]; intros l; simpl.
  - by intros [= <- <-].
  - destruct (decide (dict_get a var = None)) as [Hn|Hn].
    + intros H. apply bind_inv_Ok in H as (d & s0 & Hd & H).
      unfold domain_of in Hd.
      destruct (domains s !! var) as [d'|] eqn:Hvar; [|done].
      injection Hd as <- <-.
      apply bind_inv_Ok in H as (rest & s0 & Hrest & [= <- <-]).
      apply IH in Hrest as [-> ->]. split; [done|].
      rewrite filter_cons_True by done. simpl.
      by rewrite (dom_at_Some _ _ _ Hvar).
    + intros H. apply IH in H as [-> ->]. split; [done|].
      by rewrite filter_cons_False by done.
Qed.

Lemma list_of_variables_all_assigned cw a vars s :
  (∀ v, v ∈ vars → dict_get a v ≠ None) →
  list_of_variables cw a vars s = (Ok [], s).
Proof.
  induction vars as [|var vars IH]; intros Hall; simpl; [done|].
  rewrite decide_False by (apply Hall; left).
  apply IH. intros v Hv. apply Hall. by right.
Qed.

Lemma elem_of_unassigned cw a v :
  v ∈ unassigned cw a ↔ v ∈ variables cw ∧ dict_get a v = None.
Proof. unfold unassigned. rewrite elem_of_filter. tauto. Qed.

Lemma mrv_le_spec p q :
  mrv_le p q = true ↔ p.1.2 < q.1.2 ∨ (p.1.2 = q.1.2 ∧ q.2 ≤ p.2).
Proof.
  unfold mrv_le. rewrite bool_decide_eq_true.
  destruct p as [[? n1] d1], q as [[? n2] d2]. unfold mrv_key. simpl. lia.
Qed.

(** X8. The slot that [select_unassigned_variable] returns is an unassigned
    slot of the crossword with the fewest candidates; among the unassigned
    slots with as few candidates, none has more neighbours. *)
Theorem select_unassigned_variable_least cw assignment s var s' :
  select_unassigned_variable cw assignment s = (Ok (Some var), s') →
  var ∈ unassigned cw (contents s assignment)
  ∧ ∀ v, v ∈ unassigned cw (contents s assignment) →
      size (dom_at (domains s) var) < size (dom_at (domains s) v)
      ∨ (size (dom_at (domains s) var) = size (dom_at (domains s) v)
         ∧ size (neighbors cw v) ≤ size (neighbors cw var)).
Proof.
  unfold select_unassigned_variable. intros H.
  apply bind_inv_Ok in H as (a & s0 & [= <- <-] & H).
  apply bind_inv_Ok in H as (l & s0 & Hl & H).
  apply list_of_variables_Ok in Hl as [-> ->].
  set (key := λ v, (v, size (dom_at (domains s) v), size (neighbors cw v))) in *.
  set (l := key <$> _) in *.
  destruct (sort_by mrv_le l) as [|t0 ts] eqn:Hsort; [done|].
  injection H as <- <-.
  assert (∀ t, t ∈ l ↔ ∃ v, t = key v ∧ v ∈ unassigned cw (contents s assignment))
    as Hin.
  { intros t. unfold l. rewrite list_elem_of_fmap.
    split; intros (v & -> & Hv); exists v; (split; [done|]).
    - apply list_elem_of_filter in Hv as [Hn Hv].
      apply elem_of_unassigned. by rewrite <- elem_of_elements.
    - apply elem_of_unassigned in Hv as [Hv Hn].
      apply list_elem_of_filter. by rewrite elem_of_elements. }
  assert (t0 ∈ l) as Ht0.
  { rewrite <- (sort_by_perm mrv_le l), Hsort. left. }
  apply Hin in Ht0 as (v0 & -> & Hv0). simpl. split; [done|].
  intros v Hv.
  pose proof (sort_by_head mrv_le mrv_le_total mrv_le_trans _ ts l Hsort (key v))
    as Hle.
  apply mrv_le_spec in Hle; [done|]. apply Hin. by exists v.
Qed.

Lemma select_unassigned_variable_least_witness :
  let s := push_dict [] (after_node_consistency fork) in
  select_unassigned_variable fork 0 s = (Ok (Some leg4), s)
  ∧ leg4 ∈ unassigned fork (contents s 0)
  ∧ ∀ v, v ∈ unassigned fork (contents s 0) →
      size (dom_at (domains s) leg4) < size (dom_at (domains s) v)
      ∨ (size (dom_at (domains s) leg4) = size (dom_at (domains s) v)
         ∧ size (neighbors fork v) ≤ size (neighbors fork leg4)).
Proof.
  intros s.
  assert (select_unassigned_variable fork 0 s = (Ok (Some leg4), s)) as H
    by (vm_compute; reflexivity).
  split; [exact H|].
  exact (select_unassigned_variable_least fork 0 s leg4 s H).
Defined.

(** X9. [select_unassigned_variable] returns [None] exactly when the
    assignment has a word for every slot of the crossword; it raises
    nothing when every unassigned slot has a domain. *)
Theorem select_unassigned_variable_None cw assignment s :
  ((select_unassigned_variable cw assignment s).1 = Ok None
   ↔ unassigned cw (contents s assignment) = ∅)
  ∧ ((∀ v, v ∈ unassigned cw (contents s assignment) →
           is_Some (domains s !! v)) →
     ∃ o, select_unassigned_variable cw assignment s = (Ok o, s)).
Proof.
  unfold select_unassigned_variable, bind at 1, bind at 2, deref.
  set (a := contents s assignment). split; [split|].
  - destruct (list_of_variables cw a (elements (variables cw)) s)
      as [[l| |] s0] eqn:Hl; unfold bind; rewrite Hl; try done.
    apply list_of_variables_Ok in Hl as [-> ->]. simpl.
    set (l := _ <$> _).
    destruct (sort_by mrv_le l) as [|t0 ts] eqn:Hsort; [|done]. intros _.
    pose proof (sort_by_perm mrv_le l) as Hp. rewrite Hsort in Hp.
    apply Permutation_nil_l in Hp. unfold l in Hp.
    symmetry in Hp. apply fmap_nil_inv in Hp.
    apply set_eq. intros v. rewrite elem_of_unassigned.
    split; [|set_solver]. intros [Hv Hn].
    assert (v ∈ filter (λ v, dict_get a v = None) (elements (variables cw)))
      as Hin by (apply list_elem_of_filter; by rewrite elem_of_elements).
    rewrite Hp in Hin. by apply elem_of_nil in Hin.
  - intros He. unfold bind. rewrite list_of_variables_all_assigned; [done|].
    intros v Hv Hn. apply elem_of_elements in Hv.
    assert (v ∈ unassigned cw a) as Hin by by apply elem_of_unassigned.
    rewrite He in Hin. set_solver.
  - intros Hd.
    assert (∀ vars, (∀ v, v ∈ vars → v ∈ variables cw) →
              ∃ l, list_of_variables cw a vars s = (Ok l, s)) as Hlist.
    { induction vars as [|var vars IH]; intros Hvars; simpl;
        [by eexists|].
      destruct IH as [l Hl]; [intros v Hv; apply Hvars; by right|].
      destruct (decide (dict_get a var = None)) as [Hn|Hn]; [|by exists l].
      destruct (Hd var) as [d Hvar].
      { apply elem_of_unassigned. split; [apply Hvars; left|done]. }
      eexists. unfold bind at 1, domain_of. rewrite Hvar.
      unfold bind at 1. rewrite Hl. reflexivity. }
    destruct (Hlist (elements (variables cw))) as [l Hl].
    { intros v. by rewrite elem_of_elements. }
    unfold bind. rewrite Hl. by eexists.
Qed.

(** ** [order_domain_values] *)

Lemma unassigned_neighbors_spec cw var a :
  unassigned_neighbors cw var a
  = neighbors cw var ∖ list_to_set (dict_keys a).
Proof.
  unfold unassigned_neighbors. generalize (neighbors cw var) as ns.
  induction (dict_keys a) as [|i keys IH]; intros ns; simpl.
  - by rewrite difference_empty_L.
  - rewrite IH. destruct (decide (i ∈ ns)); set_solver.
Qed.

Lemma ruled_out_in_Ok cw var var2 val vals2 t r :
  ruled_out_in cw var var2 val vals2 t = Ok r →
  r = t + match overlaps cw !! (var, var2) with
          | Some (Some (a, b)) =>
              length (filter (λ val2, String.get a val ≠ String.get b val2)
                             vals2)
          | _ => 0
          end.
Proof.
  revert t. induction vals2 as [|val2 vals2 IH]; intros t; simpl.
  - intros [= <-]. destruct (overlaps cw !! (var, var2)) as [[[a b]|]|]; simpl; lia.
  - unfold overlaps_get.
    destruct (overlaps cw !! (var, var2)) as [[[a b]|]|] eqn:Ho; simpl;
      [|by intros H; apply IH in H|done].
    unfold index.
    destruct (String.get a val) as [c1|] eqn:H1; simpl; [|done].
    destruct (String.get b val2) as [c2|] eqn:H2; simpl; [|done].
    intros H. apply IH in H. rewrite ?Ho, ?H1 in H. rewrite H.
    destruct (decide (c1 ≠ c2)) as [Hc|Hc].
    + rewrite filter_cons_True by (rewrite ?H1, H2; congruence). simpl. lia.
    + rewrite filter_cons_False; [done|]. rewrite ?H1, H2. intros Hn. apply Hn.
      f_equal. destruct (decide (c1 = c2)); [done|by destruct Hc].
Qed.

Lemma ruled_out_Ok cw var val var2s t s r s' :
  ruled_out cw var val var2s t s = (Ok r, s') →
  s' = s ∧ r = t + conflicts cw (domains s) var var2s val.
Proof.
  revert t. induction var2s as [|var2 var2s IH]; intros t; simpl.
  - intros [= <- <-]. split; [done|]. unfold conflicts. simpl. lia.
  - intros H. apply bind_inv_Ok in H as (d2 & s0 & Hd & H).
    unfold domain_of in Hd.
    destruct (domains s !! var2) as [d|] eqn:Hvar2; [|done].
    injection Hd as <- <-.
    apply bind_inv_Ok in H as (t1 & s0 & Ht & H).
    unfold lift in Ht. injection Ht as Ht <-.
    apply ruled_out_in_Ok in Ht. apply IH in H as [-> ->]. split; [done|].
    unfold conflicts. simpl. fold (conflicts cw (domains s) var var2s val).
    rewrite (dom_at_Some _ _ _ Hvar2). rewrite Ht. lia.
Qed.

Lemma lcv_scan_Ok cw var ns vals s result s' :
  lcv_scan cw var ns vals s = (Ok result, s') →
  s' = s
  ∧ result = (λ val, (val, conflicts cw (domains s) var ns val)) <$> vals.
Proof.
  revert result. induction vals as [|val vals IH]; intros result; simpl.
  - by intros [= <- <-].
  - intros H. apply bind_inv_Ok in H as (t & s0 & Ht & H).
    apply ruled_out_Ok in Ht as [-> ->].
    apply bind_inv_Ok in H as (rest & s0 & Hrest & [= <- <-]).
    apply IH in Hrest as [-> ->]. done.
Qed.

Lemma sorted_by_key {A} (f : A → nat) (l : list (A * nat)) :
  Forall (λ p, p.2 = f p.1) l →
  StronglySorted (λ p q, bool_decide (p.2 ≤ q.2) = true) l →
  StronglySorted (λ v1 v2, f v1 ≤ f v2) (fst <$> l).
Proof.
  intros Hkey Hs. induction Hs as [|p l Hs IH Hall]; simpl; [constructor|].
  apply Forall_cons in Hkey as [Hp Hkey].
  constructor; [by apply IH|].
  apply Forall_fmap. rewrite Forall_forall in Hall, Hkey.
  apply Forall_forall. intros q Hq. simpl.
  specialize (Hall q Hq). apply bool_decide_eq_true in Hall.
  rewrite <- Hp, <- (Hkey q Hq). exact Hall.
Qed.

(** X10. [order_domain_values] returns every word of the slot's domain
    once, in ascending order of the number of candidates it rules out:
    the words [val2] of the unassigned neighbours whose letter at the
    overlap differs from the letter of the value. *)
Theorem order_domain_values_sorted cw var assignment s vals s' :
  order_domain_values cw var assignment s = (Ok vals, s') →
  let ns := elements (neighbors cw var
                      ∖ list_to_set (dict_keys (contents s assignment))) in
  vals ≡ₚ elements (dom_at (domains s) var)
  ∧ StronglySorted
      (λ v1 v2, conflicts cw (domains s) var ns v1
                ≤ conflicts cw (domains s) var ns v2) vals.
Proof.
  intros H ns.
  split.
  { apply order_domain_values_spec in H as (d & Hd & Hperm).
    by rewrite (dom_at_Some _ _ _ Hd). }
  unfold order_domain_values in H.
  apply bind_inv_Ok in H as (a & s0 & [= <- <-] & H).
  apply bind_inv_Ok in H as (d & s0 & Hd & H).
  apply (read_only_inv _ _ _ _ (read_only_domain_of var)) in Hd as Hs0.
  subst s0.
  apply bind_inv_Ok in H as (result & s0 & Hscan & [= <- <-]).
  apply lcv_scan_Ok in Hscan as [-> ->].
  rewrite unassigned_neighbors_spec. fold ns.
  set (result := _ <$> elements d).
  apply (sorted_by_key (conflicts cw (domains s) var ns)).
  - rewrite (sort_by_perm _ result). unfold result.
    apply Forall_fmap, Forall_forall. by intros v _.
  - apply sort_by_sorted.
    + intros p q. rewrite !bool_decide_eq_true. lia.
    + intros p q r. rewrite !bool_decide_eq_true. lia.
Qed.

Lemma order_domain_values_sorted_witness :
  let s := push_dict [] (after_node_consistency crossing) in
  let ns := elements (neighbors crossing across3
                      ∖ list_to_set (dict_keys (contents s 0))) in
  let vals := [ "cat"; "art"; "dog" ]%string in
  order_domain_values crossing across3 0 s = (Ok vals, s)
  ∧ vals ≡ₚ elements (dom_at (domains s) across3)
  ∧ StronglySorted
      (λ v1 v2, conflicts crossing (domains s) across3 ns v1
                ≤ conflicts crossing (domains s) across3 ns v2) vals.
Proof.
  intros s ns vals.
  assert (order_domain_values crossing across3 0 s = (Ok vals, s)) as H
    by (vm_compute; reflexivity).
  split; [exact H|].
  exact (order_domain_values_sorted crossing across3 0 s vals s H).
Defined.

(** ** What [backtrack] returns extends what it was given *)

Lemma dict_get_set a k w x :
  dict_get (dict_set a k w) x = if decide (k = x) then Some w else dict_get a x.
Proof.
  induction a as [|[k' w'] a IH]; simpl.
  - done.
  - destruct (decide (k' = k)) as [->|Hk]; simpl.
    + by destruct (decide (k = x)).
    + destruct (decide (k' = x)) as [->|Hx].
      * by rewrite decide_False.
      * by rewrite IH.
Qed.

Lemma completes_refl cw s a : completes cw s a a.
Proof. split; [done|]. intros x w Hx. by left. Qed.

Lemma completes_trans cw s a1 a2 a3 :
  completes cw s a1 a2 → completes cw s a2 a3 → completes cw s a1 a3.
Proof.
  intros [H1 H1'] [H2 H2']. split.
  - intros x w Hx. by apply H2, H1.
  - intros x w Hx. destruct (H2' x w Hx) as [Hx2|?]; [by apply H1'|by right].
Qed.

Lemma completes_domains cw s s' a a' :
  domains s' = domains s → completes cw s' a a' → completes cw s a a'.
Proof. intros Hd [H1 H2]. split; [done|]. by rewrite <- Hd. Qed.

Lemma completes_set cw s a var val :
  dict_get a var = None → var ∈ variables cw →
  val ∈ dom_at (domains s) var →
  completes cw s a (dict_set a var val).
Proof.
  intros Hfree Hvar Hval. split.
  - intros x w Hx. rewrite dict_get_set.
    destruct (decide (var = x)) as [->|Hne]; [congruence|done].
  - intros x w. rewrite dict_get_set.
    destruct (decide (var = x)) as [->|Hne]; [|by left].
    intros [= <-]. by right.
Qed.

Lemma try_values_completes cw rec r var vals s r' s' :
  (∀ r s, extends s (rec r s).2) →
  (∀ r s r' s', r < length (heap s) → rec r s = (Ok (Some r'), s') →
                r' < length (heap s')
                ∧ completes cw s (contents s r) (contents s' r')) →
  r < length (heap s) → dict_get (contents s r) var = None →
  var ∈ variables cw → (∀ val, val ∈ vals → val ∈ dom_at (domains s) var) →
  try_values cw rec r var vals s = (Ok (Some r'), s') →
  r' < length (heap s') ∧ completes cw s (contents s r) (contents s' r').
Proof.
  intros Hext Hrec. revert s.
  induction vals as [|val vals IH]; intros s Hr Hfree Hvar Hvals; [done|].
  rewrite try_values_cons. cbv zeta.
  set (a1 := dict_set (contents s r) var val).
  set (s1 := push_dict a1 s). set (new := length (heap s)).
  assert (extends s s1) as H1 by apply push_dict_extends.
  assert (new < length (heap s1)) as Hnew.
  { unfold s1, new. simpl. rewrite length_app. simpl. lia. }
  assert (contents s1 new = a1) as Hc1 by apply push_dict_contents.
  assert (∀ s2, extends s s2 →
            try_values cw rec r var vals s2 = (Ok (Some r'), s') →
            r' < length (heap s')
            ∧ completes cw s (contents s r) (contents s' r')) as Hnext.
  { intros s2 H2 Htry. pose proof (extends_length _ _ H2).
    pose proof H2 as [Hd2 _].
    rewrite <- (extends_contents s s2 r H2 Hr).
    destruct (IH s2) as [? Hc]; try done.
    - lia.
    - by rewrite (extends_contents s s2 r H2 Hr).
    - intros v Hv. rewrite Hd2. apply Hvals. by right.
    - split; [done|]. by apply (completes_domains cw s s2). }
  destruct (consistent_outer cw a1 a1) as [[]| |]; try done.
  - pose proof (Hext new s1) as H2.
    destruct (rec new s1) as [[result| |] s2] eqn:Hres; simpl in H2; try done.
    destruct result as [r''|].
    + case_bool_decide as Hne.
      * intros [= -> ->].
        destruct (Hrec new s1 r' s' Hnew Hres) as [Hv Hc].
        split; [done|]. rewrite Hc1 in Hc.
        destruct H1 as [Hd1 _].
        apply (completes_domains cw s s1) in Hc; [|done].
        eapply completes_trans; [|exact Hc].
        apply completes_set; [done..|]. apply Hvals. left.
      * apply Hnext. by eapply extends_trans.
    + apply Hnext. by eapply extends_trans.
  - by apply Hnext.
Qed.

Lemma backtrack_completes cw fuel r s r' s' :
  r < length (heap s) →
  backtrack cw fuel r s = (Ok (Some r'), s') →
  r' < length (heap s') ∧ completes cw s (contents s r) (contents s' r').
Proof.
  revert r s r' s'. induction fuel as [|fuel IH]; intros r s r' s' Hr; simpl;
    [done|].
  intros H. apply bind_inv_Ok in H as ([] & s1 & Henter & H).
  injection Henter as <-.
  apply bind_inv_Ok in H as (complete & s2 & Hcomp & H).
  unfold assignment_complete, deref, bind, ret in Hcomp.
  injection Hcomp as <- <-.
  destruct (complete_items cw _) eqn:Hci.
  - injection H as <- <-. split; [done|]. apply completes_refl.
  - apply bind_inv_Ok in H as (var & s3 & Hsel & H).
    pose proof (read_only_inv _ _ _ _
                  (read_only_select_unassigned_variable cw r) Hsel) as ->.
    destruct var as [var|]; [|done].
    apply select_unassigned_variable_spec in Hsel as [Hvar Hfree].
    apply bind_inv_Ok in H as (vals & s4 & Hord & H).
    pose proof (read_only_inv _ _ _ _
                  (read_only_order_domain_values cw var r) Hord) as ->.
    apply order_domain_values_spec in Hord as (d & Hd & Hperm).
    apply (try_values_completes cw (backtrack cw fuel) r var vals _ r' s'
             (backtrack_extends cw fuel) IH) in H; try done.
    intros val Hval. rewrite Hperm in Hval. apply elem_of_elements in Hval.
    by rewrite (dom_at_Some _ _ _ Hd).
Qed.

(** X11. The dict that [backtrack] returns extends the dict it was given:
    every entry of the argument is in the result with the same word, and
    every other entry of the result gives a slot of the crossword a word
    of that slot's current domain. *)
Theorem backtrack_extends_assignment cw fuel assignment s result s' :
  assignment < length (heap s) →
  backtrack cw fuel assignment s = (Ok (Some result), s') →
  (∀ x w, dict_get (contents s assignment) x = Some w →
          dict_get (contents s' result) x = Some w)
  ∧ (∀ x w, dict_get (contents s' result) x = Some w →
            dict_get (contents s assignment) x = Some w
            ∨ (x ∈ variables cw ∧ w ∈ dom_at (domains s) x)).
Proof.
  intros Hr H. by destruct (backtrack_completes cw fuel _ s _ s' Hr H).
Qed.

Lemma backtrack_extends_assignment_witness :
  let s := push_dict [(across3, "cat")]%string
             (after_node_consistency crossing) in
  let s' := (backtrack crossing 3 0 s).2 in
  0 < length (heap s)
  ∧ backtrack crossing 3 0 s = (Ok (Some 2), s')
  ∧ (∀ x w, dict_get (contents s 0) x = Some w →
            dict_get (contents s' 2) x = Some w)
  ∧ (∀ x w, dict_get (contents s' 2) x = Some w →
            dict_get (contents s 0) x = Some w
            ∨ (x ∈ variables crossing ∧ w ∈ dom_at (domains s) x)).
Proof.
  intros s s'.
  assert (0 < length (heap s)) as H1 by (vm_compute; lia).
  assert (backtrack crossing 3 0 s = (Ok (Some 2), s')) as H2
    by (vm_compute; reflexivity).
  split; [exact H1|]. split; [exact H2|].
  exact (backtrack_extends_assignment crossing 3 0 s 2 s' H1 H2).
Defined.

(** ** The depth of the recursion *)

Lemma unassigned_keys cw a :
  variables cw ∖ list_to_set (dict_keys a) = unassigned cw a.
Proof.
  apply set_eq. intros v.
  rewrite elem_of_difference, elem_of_list_to_set, elem_of_unassigned,
    dict_get_None. done.
Qed.

(** X12. [backtrack] recurses at most once per unassigned slot: a depth of
    one more than the number of slots without a word is never exceeded, so
    the call ends, with a result or an exception. *)
Theorem backtrack_depth_bounded cw fuel assignment s :
  assignment < length (heap s) →
  size (unassigned cw (contents s assignment)) < fuel →
  ∃ o s', backtrack cw fuel assignment s = (o, s') ∧ o ≠ OutOfFuel.
Proof.
  intros Hr Hsize. rewrite <- unassigned_keys in Hsize.
  pose proof (backtrack_fueled cw fuel assignment s Hr Hsize) as H.
  destruct (backtrack cw fuel assignment s) as [o s']. by exists o, s'.
Qed.

Lemma backtrack_depth_bounded_witness :
  let s := push_dict [] (after_node_consistency crossing) in
  0 < length (heap s)
  ∧ size (unassigned crossing (contents s 0)) < 3
  ∧ ∃ o s', backtrack crossing 3 0 s = (o, s') ∧ o ≠ OutOfFuel.
Proof.
  intros s.
  assert (0 < length (heap s)) as H1 by (vm_compute; lia).
  assert (size (unassigned crossing (contents s 0)) < 3) as H2
    by (vm_compute; lia).
  split; [exact H1|]. split; [exact H2|].
  exact (backtrack_depth_bounded crossing 3 0 s H1 H2).
Defined.

(** ** The search raises nothing *)

Lemma ready_domains cw s s' : domains s' = domains s → ready cw s → ready cw s'.
Proof.
  intros Hd (Hn & Hc & Hw). unfold ready, node_consistent, domains_cover,
    domains_in_words in *. by rewrite Hd.
Qed.

Lemma drawn_domains cw s s' a :
  domains s' = domains s → drawn cw s a → drawn cw s' a.
Proof. intros Hd Ha x w Hin. rewrite Hd. by apply Ha. Qed.

Lemma ready_pruned cw s s' : pruned s s' → ready cw s → ready cw s'.
Proof.
  intros (_ & _ & Hk & Hsub) (Hn & Hc & Hw). split; [|split].
  - intros v d Hd w Hin.
    destruct (proj1 (Hk v) ltac:(by eexists)) as [d0 Hd0].
    apply (Hn v d0 Hd0). specialize (Hsub v).
    rewrite (dom_at_Some _ _ _ Hd), (dom_at_Some _ _ _ Hd0) in Hsub.
    by apply Hsub.
  - intros v Hv. apply Hk. by apply Hc.
  - intros v d Hd w Hin.
    destruct (proj1 (Hk v) ltac:(by eexists)) as [d0 Hd0].
    apply (Hw v d0 Hd0). specialize (Hsub v).
    rewrite (dom_at_Some _ _ _ Hd), (dom_at_Some _ _ _ Hd0) in Hsub.
    by apply Hsub.
Qed.

Lemma ready_after_node_consistency cw : ready cw (after_node_consistency cw).
Proof.
  split; [apply after_node_consistency_node_consistent|].
  split; [apply after_node_consistency_cover|].
  intros v d. simpl. rewrite node_consistent_domains_lookup.
  case_decide; [|done]. intros [= <-] w Hw.
  by apply elem_of_filter in Hw as [_ ?].
Qed.

Lemma ready_fits cw s x w : ready cw s → w ∈ dom_at (domains s) x → fits x w.
Proof.
  intros (Hn & _ & _). unfold dom_at.
  destruct (domains s !! x) as [d|] eqn:Hd; simpl; [|set_solver].
  by apply (Hn x d Hd).
Qed.

Lemma ready_words cw s x w :
  ready cw s → w ∈ dom_at (domains s) x → w ∈ words cw.
Proof.
  intros (_ & _ & Hw). unfold dom_at.
  destruct (domains s !! x) as [d|] eqn:Hd; simpl; [|set_solver].
  by apply (Hw x d Hd).
Qed.

Lemma select_some cw r s :
  ready cw s → drawn cw s (contents s r) →
  complete_items cw (contents s r) = false →
  ∃ var, select_unassigned_variable cw r s = (Ok (Some var), s).
Proof.
  intros Hready Hdrawn Hinc. pose proof Hready as (_ & Hc & _).
  destruct (list_of_variables_total cw (contents s r) (elements (variables cw)) s)
    as (l & Hl & Hin).
  { intros x Hx. apply elem_of_elements in Hx. by apply Hc. }
  unfold select_unassigned_variable, bind at 1, deref.
  unfold bind at 1. rewrite Hl.
  destruct (sort_by mrv_le l) as [|t0 ts] eqn:Hsort; [|by eexists].
  pose proof (sort_by_perm mrv_le l) as Hp. rewrite Hsort in Hp.
  apply Permutation_nil_l in Hp. subst l.
  assert (complete_items cw (contents s r) = true) as Habs; [|congruence].
  apply complete_items_spec. intros x Hx.
  destruct (dict_get (contents s r) x) as [w|] eqn:Hget.
  - exists w. split; [done|]. apply dict_get_elem in Hget.
    destruct (Hdrawn x w Hget) as [_ Hw]. by eapply ready_words.
  - destruct (Hin x ltac:(by apply elem_of_elements) Hget) as (t & Ht & _).
    by apply elem_of_nil in Ht.
Qed.

Lemma ruled_out_in_safe cw var var2 val vals2 t :
  overlaps_in_bounds cw → is_Some (overlaps cw !! (var, var2)) →
  fits var val → Forall (fits var2) vals2 →
  ∃ r, ruled_out_in cw var var2 val vals2 t = Ok r.
Proof.
  intros Hb [o Ho] Hval Hall. revert t.
  induction Hall as [|val2 vals2 Hval2 Hall IH]; intros t; simpl;
    [by eexists|].
  unfold overlaps_get. rewrite Ho. simpl.
  destruct o as [[a b]|]; [|apply IH].
  pose proof (Hb (var, var2) _ Ho) as [Ha Hb']. simpl in Ha, Hb'.
  unfold fits in Hval, Hval2.
  destruct (index_in_bounds val a ltac:(lia)) as (c1 & -> & _).
  destruct (index_in_bounds val2 b ltac:(lia)) as (c2 & -> & _).
  simpl. apply IH.
Qed.

Lemma ruled_out_safe cw var val var2s t s :
  overlaps_in_bounds cw → overlaps_total cw → ready cw s →
  var ∈ variables cw → fits var val →
  (∀ var2, var2 ∈ var2s → var2 ∈ variables cw ∧ var2 ≠ var) →
  ∃ r, ruled_out cw var val var2s t s = (Ok r, s).
Proof.
  intros Hb Ht Hready Hvar Hval. pose proof Hready as (Hn & Hc & _).
  revert t. induction var2s as [|var2 var2s IH]; intros t Hns; simpl;
    [by eexists|].
  destruct (Hns var2 ltac:(left)) as [Hvar2 Hne].
  destruct (Hc var2 Hvar2) as [d2 Hd2].
  unfold bind at 1, domain_of. rewrite Hd2.
  destruct (ruled_out_in_safe cw var var2 val (elements d2) t Hb) as [r Hr];
    [by apply Ht|done| |].
  { apply Forall_forall. intros w Hw. apply elem_of_elements in Hw.
    by apply (Hn var2 d2 Hd2). }
  unfold bind at 1, lift. rewrite Hr.
  apply IH. intros v Hv. apply Hns. by right.
Qed.

Lemma lcv_scan_safe cw var ns vals s :
  overlaps_in_bounds cw → overlaps_total cw → ready cw s →
  var ∈ variables cw → Forall (fits var) vals →
  (∀ var2, var2 ∈ ns → var2 ∈ variables cw ∧ var2 ≠ var) →
  ∃ result, lcv_scan cw var ns vals s = (Ok result, s).
Proof.
  intros Hb Ht Hready Hvar Hall Hns.
  induction Hall as [|val vals Hval Hall IH]; simpl; [by eexists|].
  destruct (ruled_out_safe cw var val ns 0 s Hb Ht Hready Hvar Hval Hns)
    as [t Hr].
  unfold bind at 1. rewrite Hr. destruct IH as [result Hres].
  unfold bind at 1. rewrite Hres. by eexists.
Qed.

Lemma order_returns cw var r s :
  overlaps_in_bounds cw → overlaps_total cw → ready cw s →
  var ∈ variables cw →
  ∃ vals, order_domain_values cw var r s = (Ok vals, s).
Proof.
  intros Hb Ht Hready Hvar. pose proof Hready as (Hn & Hc & _).
  destruct (Hc var Hvar) as [d Hd].
  unfold order_domain_values, bind at 1, deref.
  unfold bind at 1, domain_of. rewrite Hd.
  destruct (lcv_scan_safe cw var
              (elements (unassigned_neighbors cw var (contents s r)))
              (elements d) s Hb Ht Hready Hvar) as [result Hres].
  { apply Forall_forall. intros w Hw. apply elem_of_elements in Hw.
    by apply (Hn var d Hd). }
  { intros var2 Hin. apply elem_of_elements in Hin.
    rewrite unassigned_neighbors_spec in Hin.
    apply elem_of_difference in Hin as [Hin _].
    by apply neighbors_variables in Hin. }
  unfold bind at 1. rewrite Hres. by eexists.
Qed.

Lemma drawn_dict_set cw s a var val :
  drawn cw s a → var ∈ variables cw → val ∈ dom_at (domains s) var →
  drawn cw s (dict_set a var val).
Proof.
  intros Ha Hvar Hval x w Hin.
  apply dict_set_elem in Hin as [Hin|[= -> ->]]; [by apply Ha|done].
Qed.

Lemma try_values_safe cw rec r var vals s :
  overlaps_in_bounds cw → overlaps_total cw →
  (∀ r s, extends s (rec r s).2) →
  (∀ r' s', r' < length (heap s') → ready cw s' →
            drawn cw s' (contents s' r') → no_raise (rec r' s').1) →
  r < length (heap s) → ready cw s → drawn cw s (contents s r) →
  var ∈ variables cw → (∀ val, val ∈ vals → val ∈ dom_at (domains s) var) →
  no_raise (try_values cw rec r var vals s).1.
Proof.
  intros Hb Ht Hext Hrec. revert s.
  induction vals as [|val vals IH]; intros s Hr Hready Hdrawn Hvar Hvals;
    [done|].
  rewrite try_values_cons. cbv zeta.
  set (a1 := dict_set (contents s r) var val).
  set (s1 := push_dict a1 s). set (new := length (heap s)).
  assert (extends s s1) as H1 by apply push_dict_extends.
  assert (new < length (heap s1)) as Hnew.
  { unfold s1, new. simpl. rewrite length_app. simpl. lia. }
  assert (contents s1 new = a1) as Hc1 by apply push_dict_contents.
  assert (drawn cw s a1) as Hdrawn1.
  { apply drawn_dict_set; [done..|]. apply Hvals. left. }
  assert (∀ s2, extends s s2 →
            no_raise (try_values cw rec r var vals s2).1) as Hnext.
  { intros s2 H2. pose proof (extends_length _ _ H2).
    pose proof H2 as [Hd2 _].
    apply IH; [lia|by apply (ready_domains cw s)| |done|].
    - rewrite (extends_contents s s2 r H2 Hr). by apply (drawn_domains cw s).
    - intros v Hv. rewrite Hd2. apply Hvals. by right. }
  destruct (consistent_outer_safe cw a1 a1 Hb Ht) as [b Hcons].
  { intros x w Hin. destruct (Hdrawn1 x w Hin) as [Hx Hw].
    split; [done|]. by eapply ready_fits. }
  { intros x w Hin. destruct (Hdrawn1 x w Hin) as [Hx Hw].
    split; [done|]. by eapply ready_fits. }
  rewrite Hcons. destruct b; [|by apply Hnext].
  pose proof (Hext new s1) as H2.
  pose proof (Hrec new s1 Hnew) as Hsafe.
  destruct H1 as [Hd1 Hh1].
  specialize (Hsafe (ready_domains cw s s1 Hd1 Hready)).
  rewrite Hc1 in Hsafe.
  specialize (Hsafe (drawn_domains cw s s1 a1 Hd1 Hdrawn1)).
  destruct (rec new s1) as [[result|e|] s2] eqn:Hres; simpl in H2, Hsafe.
  - destruct (match result with None => false | Some _ => _ end); [done|].
    apply Hnext. eapply extends_trans; [|exact H2]. by split.
  - by destruct (Hsafe e).
  - done.
Qed.

Lemma backtrack_safe cw fuel r s :
  overlaps_in_bounds cw → overlaps_total cw →
  r < length (heap s) → ready cw s → drawn cw s (contents s r) →
  no_raise (backtrack cw fuel r s).1.
Proof.
  intros Hb Ht. revert r s.
  induction fuel as [|fuel IH]; intros r s Hr Hready Hdrawn; [done|].
  cbn [backtrack]. unfold bind at 1, enter_backtrack.
  set (s1 := mkState (domains s) (heap s) (S (backtrack_calls s))).
  assert (ready cw s1) as Hready1 by by apply (ready_domains cw s).
  assert (drawn cw s1 (contents s1 r)) as Hdrawn1 by done.
  unfold bind at 1, assignment_complete, bind at 1, deref, ret.
  destruct (complete_items cw (contents s1 r)) eqn:Hci; [done|].
  destruct (select_some cw r s1 Hready1 Hdrawn1 Hci) as [var Hsel].
  unfold bind at 1. rewrite Hsel.
  apply select_unassigned_variable_spec in Hsel as [Hvar Hfree].
  destruct (order_returns cw var r s1 Hb Ht Hready1 Hvar) as [vals Hord].
  unfold bind at 1. rewrite Hord.
  apply order_domain_values_spec in Hord as (d & Hd & Hperm).
  apply (try_values_safe cw (backtrack cw fuel) r var vals s1 Hb Ht
           (backtrack_extends cw fuel)); try done.
  intros val Hval. rewrite Hperm in Hval. apply elem_of_elements in Hval.
  by rewrite (dom_at_Some _ _ _ Hd).
Qed.

(** X13. [backtrack] raises nothing when every slot has a domain of words
    of the list that fit it and the assignment gives slots of the crossword
    words of their domains: with a depth of one more than the number of
    unassigned slots it returns a dict or [None]. *)
Theorem backtrack_returns cw fuel assignment s :
  overlaps_in_bounds cw → overlaps_total cw →
  node_consistent s → domains_cover cw s →
  (∀ v d, domains s !! v = Some d → d ⊆ words cw) →
  assignment < length (heap s) →
  (∀ x w, (x, w) ∈ contents s assignment →
          x ∈ variables cw ∧ w ∈ dom_at (domains s) x) →
  size (unassigned cw (contents s assignment)) < fuel →
  ∃ result s', backtrack cw fuel assignment s = (Ok result, s').
Proof.
  intros Hb Ht Hn Hc Hw Hr Hdrawn Hsize.
  assert (ready cw s) as Hready by done.
  pose proof (backtrack_safe cw fuel assignment s Hb Ht Hr Hready Hdrawn)
    as Hsafe.
  rewrite <- unassigned_keys in Hsize.
  pose proof (backtrack_fueled cw fuel assignment s Hr Hsize) as Hfuel.
  destruct (backtrack cw fuel assignment s) as [[result|e|] s']; simpl in *.
  - by exists result, s'.
  - by destruct (Hsafe e).
  - done.
Qed.

Lemma backtrack_returns_witness :
  let s := push_dict [] (after_node_consistency crossing) in
  overlaps_in_bounds crossing ∧ overlaps_total crossing
  ∧ node_consistent s ∧ domains_cover crossing s
  ∧ (∀ v d, domains s !! v = Some d → d ⊆ words crossing)
  ∧ 0 < length (heap s)
  ∧ (∀ x w, (x, w) ∈ contents s 0 →
            x ∈ variables crossing ∧ w ∈ dom_at (domains s) x)
  ∧ size (unassigned crossing (contents s 0)) < 3
  ∧ ∃ result s', backtrack crossing 3 0 s = (Ok result, s').
Proof.
  intros s.
  assert (overlaps_in_bounds crossing) as H1 by decide_by_computation.
  assert (overlaps_total crossing) as H2 by decide_by_computation.
  assert (node_consistent s) as H3 by decide_by_computation.
  assert (domains_cover crossing s) as H4 by decide_by_computation.
  assert (∀ v d, domains s !! v = Some d → d ⊆ words crossing) as H5.
  { change (map_Forall (λ _ d, d ⊆ words crossing) (domains s)).
    decide_by_computation. }
  assert (0 < length (heap s)) as H6 by (vm_compute; lia).
  assert (∀ x w, (x, w) ∈ contents s 0 →
                 x ∈ variables crossing ∧ w ∈ dom_at (domains s) x) as H7.
  { intros x w Hin. by apply elem_of_nil in Hin. }
  assert (size (unassigned crossing (contents s 0)) < 3) as H8
    by (vm_compute; lia).
  repeat (split; [assumption|]).
  exact (backtrack_returns crossing 3 0 s H1 H2 H3 H4 H5 H6 H7 H8).
Defined.

(** ** [solve] decides the puzzle *)

Lemma solve_Ok cw :
  overlaps_in_bounds cw → overlaps_total cw →
  ∃ res s', solve cw (init cw) = (Ok res, s').
Proof.
  intros Hb Ht. unfold solve.
  unfold bind at 1. rewrite enforce_node_consistency_init.
  fold (after_node_consistency cw).
  pose proof (ready_after_node_consistency cw) as Hready.
  pose proof Hready as (Hn & Hc & _).
  destruct (ac3_returns cw None _ Hb Ht Hn Hc (all_arcs_valid cw))
    as (b & s2 & Hac3 & _).
  unfold bind at 1. rewrite Hac3.
  assert (ready cw s2) as Hready2.
  { apply (ready_pruned cw (after_node_consistency cw)); [|done].
    assert (pruned (after_node_consistency cw)
              (ac3 cw None (after_node_consistency cw)).2) as Hp
      by apply ac3_loop_pruned.
    by rewrite Hac3 in Hp. }
  unfold bind at 1, new_dict.
  set (s3 := push_dict [] s2).
  assert (length (heap s2) < length (heap s3)) as Hnew.
  { simpl. rewrite length_app. simpl. lia. }
  assert (contents s3 (length (heap s2)) = []) as Hc3
    by apply push_dict_contents.
  pose proof (backtrack_safe cw (S (size (variables cw))) (length (heap s2)) s3
                Hb Ht Hnew) as Hsafe.
  pose proof (backtrack_fueled cw (S (size (variables cw))) (length (heap s2))
                s3 Hnew) as Hfuel.
  rewrite Hc3 in Hsafe, Hfuel.
  specialize (Hsafe (ready_domains cw s2 s3 eq_refl Hready2)).
  specialize (Hsafe ltac:(intros x w Hin; by apply elem_of_nil in Hin)).
  specialize (Hfuel ltac:(simpl; rewrite difference_empty_L; lia)).
  destruct (backtrack cw _ _ s3) as [[res|e|] s']; simpl in *.
  - by exists res, s'.
  - by destruct (Hsafe e).
  - done.
Qed.

(** X14. On a fresh creator, when the offsets of the overlaps lie inside
    the slots and every pair of distinct slots has an entry in
    [crossword.overlaps], [solve] raises nothing: it returns an assignment
    or [None], and it returns [None] exactly when no complete assignment
    satisfies the constraints. *)
Theorem solve_decides cw :
  overlaps_in_bounds cw → overlaps_total cw →
  ∃ res s', solve cw (init cw) = (Ok res, s')
            ∧ (res = None ↔ ¬ ∃ σ, valid_solution cw σ).
Proof.
  intros Hb Ht. destruct (solve_Ok cw Hb Ht) as (res & s' & H).
  exists res, s'. split; [done|]. destruct res as [r|].
  - split; [done|]. intros Hno. exfalso. apply Hno.
    apply solve_returned in H as (a & _ & Hcomp & Hcons).
    pose proof (consistent_outer_true cw a a Hcons) as Hall.
    exists (λ x, default EmptyString (dict_get a x)). intros x Hx.
    destruct (proj1 (complete_items_spec cw a) Hcomp x Hx) as (w & Hw & Hin).
    rewrite Hw. simpl.
    destruct (Hall x w (dict_get_elem _ _ _ Hw)) as [Hlen Hinner].
    split; [done|]. split; [done|]. intros y Hy Hxy.
    destruct (proj1 (complete_items_spec cw a) Hcomp y Hy) as (wy & Hwy & _).
    rewrite Hwy. simpl.
    destruct (consistent_inner_true cw x w a Hinner y wy
                (dict_get_elem _ _ _ Hwy) Hxy) as (Hne & o & Ho & Hov).
    split; [done|]. intros p q Hpq. rewrite Hpq in Ho. injection Ho as <-.
    by apply Hov.
  - split; [|done]. intros _ [σ Hσ].
    apply solve_steps in H as (s1 & b & s2 & Hnode & Hac3 & Hback).
    rewrite enforce_node_consistency_init in Hnode. injection Hnode as <-.
    assert (ac3_run cw (all_arcs cw) (after_node_consistency cw) b s2) as Hrun.
    { eapply ac3_loop_run. exact Hac3. }
    pose proof (ac3_run_keeps cw σ Hσ _ _ _ _ Hrun
                  (after_node_consistency_cover cw) (all_arcs_valid cw)
                  (after_node_consistency_keeps cw σ Hσ)) as Hk.
    eapply (backtrack_complete cw σ Hσ _ _ (push_dict [] s2)); [..|exact Hback].
    + simpl. rewrite length_app. simpl. lia.
    + rewrite push_dict_contents. intros x w Hin. by apply elem_of_nil in Hin.
    + exact Hk.
Qed.

Lemma solve_decides_witness :
  overlaps_in_bounds crossing ∧ overlaps_total crossing
  ∧ ∃ res s', solve crossing (init crossing) = (Ok res, s')
              ∧ (res = None ↔ ¬ ∃ σ, valid_solution crossing σ).
Proof.
  assert (overlaps_in_bounds crossing) as H1 by decide_by_computation.
  assert (overlaps_total crossing) as H2 by decide_by_computation.
  repeat (split; [assumption|]).
  exact (solve_decides crossing H1 H2).
Defined.

(** ** [letter_grid] *)

Lemma get_Some_lt (w : string) (k : nat) c :
  String.get k w = Some c → k < String.length w.
Proof.
  revert k. induction w as [|a w IH]; intros k; simpl; [done|].
  destruct k as [|k]; [lia|]. intros H. apply IH in H. lia.
Qed.

Lemma cell_of_inj v k k' : cell_of v k = cell_of v k' → k = k'.
Proof.
  unfold cell_of. destruct (v_direction v); simpl; intros H; inversion H; lia.
Qed.

Lemma grid_shape_replicate g :
  grid_shape g (replicate (height g) (replicate (width g) None)
                : list (list (option Ascii.ascii))).
Proof.
  split; [by rewrite length_replicate|].
  apply Forall_forall. intros row Hrow.
  apply elem_of_replicate in Hrow as [-> _]. by rewrite length_replicate.
Qed.

Lemma grid_shape_insert {A} g (letters : list (list A)) i j c row :
  grid_shape g letters → letters !! i = Some row →
  grid_shape g (<[i := <[j := c]> row]> letters).
Proof.
  intros [Hlen Hrows] Hrow. split; [by rewrite length_insert|].
  rewrite Forall_lookup in Hrows. apply Forall_lookup. intros i' row' Hi'.
  apply list_lookup_insert_Some in Hi' as [(<- & <- & _)|[_ Hi']].
  - rewrite length_insert. by apply (Hrows i row).
  - by apply (Hrows i' row').
Qed.

Lemma cell_at_insert {A} (letters : list (list A)) i j c row ij :
  letters !! i = Some row → j < length row →
  cell_at (<[i := <[j := c]> row]> letters) ij
  = if decide (ij = (i, j)) then Some c else cell_at letters ij.
Proof.
  intros Hrow Hj. pose proof (lookup_lt_Some _ _ _ Hrow) as Hi.
  destruct ij as [i' j']. unfold cell_at. simpl.
  rewrite list_lookup_insert.
  destruct (decide (i = i' ∧ i < length letters)) as [[<- _]|Hn]; simpl.
  - rewrite list_lookup_insert, Hrow. simpl.
    destruct (decide (j = j' ∧ j < length row)) as [[<- _]|Hn].
    + by rewrite decide_True.
    + rewrite decide_False; [done|]. intros [= <-]. by apply Hn.
  - rewrite decide_False; [done|]. intros [= <- <-]. by apply Hn.
Qed.

Lemma grid_set_run {A} g (letters : list (list A)) i j c :
  grid_shape g letters →
  (in_range g (i, j) →
   ∃ row, letters !! i = Some row ∧ j < length row
          ∧ grid_set letters i j c = Ok (<[i := <[j := c]> row]> letters))
  ∧ (¬ in_range g (i, j) → grid_set letters i j c = Raise IndexError).
Proof.
  intros [Hlen Hrows]. unfold grid_set, in_range. simpl.
  rewrite Forall_lookup in Hrows. split.
  - intros [Hi Hj].
    destruct (lookup_lt_is_Some_2 letters i ltac:(lia)) as [row Hrow].
    pose proof (Hrows i row Hrow) as Hw.
    exists row. rewrite Hrow. rewrite decide_True by lia. split; [done|].
    split; [lia|done].
  - intros Hn. destruct (letters !! i) as [row|] eqn:Hrow; [|done].
    pose proof (Hrows i row Hrow) as Hw.
    pose proof (lookup_lt_Some _ _ _ Hrow) as Hi.
    rewrite decide_False; [done|]. lia.
Qed.

Lemma place_word_run g v word ks letters :
  grid_shape g letters → Forall (λ k, k < String.length word) ks →
  (Forall (λ k, in_range g (cell_of v k)) ks →
   ∃ letters', place_word v word ks letters = Ok letters'
               ∧ grid_shape g letters')
  ∧ (¬ Forall (λ k, in_range g (cell_of v k)) ks →
     place_word v word ks letters = Raise IndexError).
Proof.
  intros Hshape Hks. revert letters Hshape.
  induction Hks as [|k ks Hk Hks IH]; intros letters Hshape; cbn [place_word].
  - split; [by eexists|]. intros Hn. destruct Hn. constructor.
  - destruct (index_in_bounds word k Hk) as (c & -> & _). cbn [obind].
    destruct (grid_set_run g letters (cell_of v k).1 (cell_of v k).2 (Some c)
                Hshape) as [Hin Hout].
    destruct (decide (in_range g (cell_of v k))) as [Hr|Hr].
    + destruct Hin as (row & Hrow & Hj & ->); [by destruct (cell_of v k)|].
      cbn [obind].
      destruct (IH _ (grid_shape_insert g letters _ (cell_of v k).2 (Some c)
                        row Hshape Hrow)) as [IHin IHout].
      split.
      * intros Hall. apply Forall_cons in Hall as [_ Hall]. by apply IHin.
      * intros Hn. apply IHout. intros Hall. apply Hn. by constructor.
    + split.
      * intros Hall. by apply Forall_cons in Hall as [? _].
      * intros _. rewrite Hout; [done|]. by destruct (cell_of v k).
Qed.

Lemma place_items_run g a letters :
  grid_shape g letters →
  (Forall (in_grid g) a →
   ∃ letters', place_items a letters = Ok letters' ∧ grid_shape g letters')
  ∧ (¬ Forall (in_grid g) a → place_items a letters = Raise IndexError).
Proof.
  revert letters. induction a as [|[v w] a IH]; intros letters Hshape; simpl.
  - split; [by eexists|]. intros Hn. destruct Hn. constructor.
  - destruct (place_word_run g v w (seq 0 (String.length w)) letters Hshape)
      as [Hin Hout].
    { apply Forall_forall. intros k Hk. apply elem_of_seq in Hk. lia. }
    destruct (decide (in_grid g (v, w))) as [Hg|Hg].
    + destruct (Hin Hg) as (letters1 & -> & Hshape1). simpl.
      destruct (IH letters1 Hshape1) as [IHin IHout]. split.
      * intros Hall. apply Forall_cons in Hall as [_ Hall]. by apply IHin.
      * intros Hn. apply IHout. intros Hall. apply Hn. by constructor.
    + split.
      * intros Hall. by apply Forall_cons in Hall as [? _].
      * intros _. by rewrite (Hout Hg).
Qed.

(** X15. [letter_grid] returns a grid of [height] rows of [width] cells
    when every word of the assignment, written from the first cell of its
    slot, stays inside the grid; otherwise it raises [IndexError]. The
    length that counts is the length of the word, not of the slot. *)
Theorem letter_grid_in_grid g assignment s :
  (Forall (in_grid g) (contents s assignment) →
   ∃ letters, letter_grid g assignment s = (Ok letters, s)
              ∧ length letters = height g
              ∧ Forall (λ row, length row = width g) letters)
  ∧ (¬ Forall (in_grid g) (contents s assignment) →
     letter_grid g assignment s = (Raise IndexError, s)).
Proof.
  unfold letter_grid, bind, deref, lift.
  destruct (place_items_run g (contents s assignment) _
              (grid_shape_replicate g)) as [Hin Hout].
  split.
  - intros Hall. destruct (Hin Hall) as (letters & -> & Hlen & Hrows).
    by exists letters.
  - intros Hn. by rewrite (Hout Hn).
Qed.

(** *** What the cells hold *)

Lemma shows_equiv g (P Q : nat * nat → Ascii.ascii → Prop) letters :
  (∀ ij c, P ij c ↔ Q ij c) → shows g P letters → shows g Q letters.
Proof.
  intros HPQ Hs ij Hij. destruct (Hs ij Hij) as [[Hc Hn]|(c & Hc & Hp)].
  - left. split; [done|]. intros c Hq. by apply (Hn c), HPQ.
  - right. exists c. split; [done|]. by apply HPQ.
Qed.

Lemma shows_insert g (P : nat * nat → Ascii.ascii → Prop) letters i j c row :
  shows g P letters → letters !! i = Some row → j < length row →
  shows g (λ ij' c', P ij' c' ∨ (ij' = (i, j) ∧ c' = c))
    (<[i := <[j := Some c]> row]> letters).
Proof.
  intros Hs Hrow Hj ij Hij. rewrite (cell_at_insert letters i j _ row ij Hrow Hj).
  destruct (decide (ij = (i, j))) as [->|Hne].
  - right. exists c. split; [done|]. by right.
  - destruct (Hs ij Hij) as [[Hc Hn]|(c' & Hc & Hp)].
    + left. split; [done|]. intros c' [Hp|[? _]]; [by apply (Hn c')|done].
    + right. exists c'. split; [done|]. by left.
Qed.

Lemma place_word_shows g v word ks (P : nat * nat → Ascii.ascii → Prop)
  letters letters' :
  shows g P letters → place_word v word ks letters = Ok letters' →
  shows g (λ ij c, P ij c ∨ ∃ k, k ∈ ks ∧ cell_of v k = ij
                                 ∧ String.get k word = Some c) letters'.
Proof.
  revert P letters. induction ks as [|k ks IH]; intros P letters Hs;
    cbn [place_word].
  - intros [= <-]. apply (shows_equiv g P); [|done].
    intros ij c. split; [by left|]. intros [?|(k & Hk & _)]; [done|].
    by apply elem_of_nil in Hk.
  - unfold index. destruct (String.get k word) as [c|] eqn:Hget;
      cbn [obind]; [|done].
    unfold grid_set.
    destruct (letters !! (cell_of v k).1) as [row|] eqn:Hrow;
      cbn [obind]; [|done].
    destruct (decide ((cell_of v k).2 < length row)) as [Hj|];
      cbn [obind]; [|done].
    intros H.
    apply (IH _ _ (shows_insert g P letters _ _ c row Hs Hrow Hj)) in H.
    eapply shows_equiv; [|exact H]. cbv beta.
    intros ij c'. split.
    + intros [[Hp|[-> ->]]|(k' & Hk' & Hcell & Hc')].
      * by left.
      * right. exists k. split; [left|]. split; [by destruct (cell_of v k)|done].
      * right. exists k'. split; [by right|done].
    + intros [Hp|(k' & Hk' & Hcell & Hc')]; [by left; left|].
      apply elem_of_cons in Hk' as [->|Hk'].
      * left. right. split; [by destruct (cell_of v k); subst|congruence].
      * right. by exists k'.
Qed.

Lemma place_items_shows g a (P : nat * nat → Ascii.ascii → Prop)
  letters letters' :
  shows g P letters → place_items a letters = Ok letters' →
  shows g (λ ij c, P ij c ∨ puts a ij c) letters'.
Proof.
  revert P letters. induction a as [|[v w] a IH]; intros P letters Hs; simpl.
  - intros [= <-]. apply (shows_equiv g P); [|done].
    intros ij c. split; [by left|]. intros [?|(v & w & k & Hin & _)]; [done|].
    by apply elem_of_nil in Hin.
  - destruct (place_word v w (seq 0 (String.length w)) letters)
      as [letters1| |] eqn:Hword; simpl; [|done..].
    intros H. apply (place_word_shows g v w _ P letters letters1 Hs) in Hword.
    apply (IH _ _ Hword) in H.
    eapply shows_equiv; [|exact H]. cbv beta.
    intros ij c. split.
    + intros [[Hp|(k & Hk & Hcell & Hc)]|(v' & w' & k & Hin & Hcell & Hc)].
      * by left.
      * right. exists v, w, k. split; [left|done].
      * right. exists v', w', k. split; [by right|done].
    + intros [Hp|(v' & w' & k & Hin & Hcell & Hc)]; [by left; left|].
      apply elem_of_cons in Hin as [[= -> ->]|Hin].
      * left. right. exists k. split; [|done].
        apply elem_of_seq. apply get_Some_lt in Hc. lia.
      * right. by exists v', w', k.
Qed.

Lemma letter_grid_shows g r s letters s' :
  letter_grid g r s = (Ok letters, s') →
  shows g (puts (contents s r)) letters.
Proof.
  unfold letter_grid, bind, deref, lift. intros [= H _].
  apply (place_items_shows g _ (λ _ _, False)) in H.
  - eapply shows_equiv; [|exact H]. cbv beta.
    intros ij c. tauto.
  - intros ij [Hi Hj]. left. split; [|tauto].
    unfold cell_at. rewrite lookup_replicate_2 by done. simpl.
    by rewrite lookup_replicate_2.
Qed.

(** X16. In the grid that [letter_grid] returns, a cell that no word of
    the assignment covers holds [None], and a covered cell holds a letter
    that some word of the assignment puts there: the [k]-th letter of a
    word lies [k] cells right of (ACROSS) or below (DOWN) the first cell
    of its slot. *)
Theorem letter_grid_cells g assignment s letters s' :
  letter_grid g assignment s = (Ok letters, s') →
  ∀ ij, ij.1 < height g → ij.2 < width g →
    (cell_at letters ij = Some None
     ∧ ∀ v w k c, (v, w) ∈ contents s assignment → cell_of v k = ij →
                  String.get k w ≠ Some c)
    ∨ ∃ c, cell_at letters ij = Some (Some c)
           ∧ ∃ v w k, (v, w) ∈ contents s assignment ∧ cell_of v k = ij
                      ∧ String.get k w = Some c.
Proof.
  intros H ij Hi Hj.
  destruct (letter_grid_shows g _ s letters s' H ij (conj Hi Hj))
    as [[Hc Hn]|(c & Hc & Hp)].
  - left. split; [done|]. intros v w k c Hin Hcell Hget.
    apply (Hn c). by exists v, w, k.
  - right. by exists c.
Qed.

Lemma letter_grid_cells_witness :
  let s := push_dict [(across3, "cat"); (down3, "art")]%string
             (after_node_consistency crossing) in
  let g := mkGrid 3 3 in
  let letters := [ [String.get 0 "cat"; String.get 1 "cat"; String.get 2 "cat"];
                   [None; String.get 1 "art"; None];
                   [None; String.get 2 "art"; None] ]%string in
  letter_grid g 0 s = (Ok letters, s)
  ∧ ∀ ij, ij.1 < height g → ij.2 < width g →
      (cell_at letters ij = Some None
       ∧ ∀ v w k c, (v, w) ∈ contents s 0 → cell_of v k = ij →
                    String.get k w ≠ Some c)
      ∨ ∃ c, cell_at letters ij = Some (Some c)
             ∧ ∃ v w k, (v, w) ∈ contents s 0 ∧ cell_of v k = ij
                        ∧ String.get k w = Some c.
Proof.
  intros s g letters.
  assert (letter_grid g 0 s = (Ok letters, s)) as H
    by (vm_compute; reflexivity).
  split; [exact H|].
  exact (letter_grid_cells g 0 s letters s H).
Defined.

(** *** A consistent assignment is shown in full *)

Lemma NoDup_keys_unique (a : list (Var * string)) v w w' :
  NoDup (dict_keys a) → (v, w) ∈ a → (v, w') ∈ a → w = w'.
Proof.
  unfold dict_keys. induction a as [|[k x] a IH]; simpl; intros Hnd H1 H2.
  - by apply elem_of_nil in H1.
  - apply NoDup_cons in Hnd as [Hk Hnd].
    apply elem_of_cons in H1 as [H1|H1]; apply elem_of_cons in H2 as [H2|H2].
    + congruence.
    + injection H1 as -> ->. destruct Hk. apply list_elem_of_fmap.
      by exists (k, w').
    + injection H2 as -> ->. destruct Hk. apply list_elem_of_fmap.
      by exists (k, w).
    + by apply IH.
Qed.

(** X17. When the entries of [crossword.overlaps] are the offsets of the
    shared cells, the grid of an assignment that [consistent] accepts shows
    every word in full: the cell of the [k]-th letter of each assigned
    slot holds the [k]-th letter of its word, whatever the order of the
    entries. *)
Theorem letter_grid_shows_words cw g assignment s letters s' :
  overlaps_geometric cw →
  NoDup (dict_keys (contents s assignment)) →
  (∀ x w, (x, w) ∈ contents s assignment → x ∈ variables cw) →
  consistent cw assignment s = (Ok true, s) →
  letter_grid g assignment s = (Ok letters, s') →
  ∀ v w k c, (v, w) ∈ contents s assignment → String.get k w = Some c →
             cell_at letters (cell_of v k) = Some (Some c).
Proof.
  intros Hgeo Hnd Hvars Hcons Hgrid v w k c Hin Hget.
  set (a := contents s assignment) in *.
  assert (consistent_outer cw a a = Ok true) as Hco.
  { unfold consistent, bind, deref, lift in Hcons. by injection Hcons. }
  pose proof (proj1 (consistent_outer_compatible cw a a) Hco) as Hall.
  assert (in_range g (cell_of v k)) as Hrange.
  { destruct (place_items_run g a _ (grid_shape_replicate g)) as [_ Hout].
    destruct (decide (Forall (in_grid g) a)) as [Hg|Hg]; last first.
    { unfold letter_grid, bind, deref, lift in Hgrid. fold a in Hgrid.
      by rewrite (Hout Hg) in Hgrid. }
    rewrite Forall_forall in Hg. specialize (Hg (v, w) Hin).
    unfold in_grid in Hg. rewrite Forall_forall in Hg. apply Hg.
    apply elem_of_seq. apply get_Some_lt in Hget. simpl. lia. }
  destruct (letter_grid_shows g _ s letters s' Hgrid _ Hrange)
    as [[_ Hn]|(c' & Hc & v' & w' & k' & Hin' & Hcell & Hget')].
  { destruct (Hn c). by exists v, w, k. }
  rewrite Hc. do 2 f_equal.
  destruct (decide (v' = v)) as [->|Hne].
  - rewrite (NoDup_keys_unique a v w' w Hnd Hin' Hin) in Hget'.
    apply cell_of_inj in Hcell. subst k'. congruence.
  - destruct (Hall v' w' Hin') as [Hlen' Hcomp'].
    destruct (Hall v w Hin) as [Hlen _].
    destruct (Hcomp' v w Hin Hne) as (_ & o & Ho & Hov).
    pose proof (Hgeo v' (Hvars v' w' Hin') v (Hvars v w Hin) Hne) as Hk.
    rewrite Forall_forall in Hk. specialize (Hk k').
    rewrite Forall_forall in Hk. specialize (Hk ltac:(
      apply elem_of_seq; apply get_Some_lt in Hget'; lia) k).
    rewrite Hk in Ho; [|apply elem_of_seq; apply get_Some_lt in Hget; lia
                       |done].
    injection Ho as <-.
    destruct (Hov k' k eq_refl) as (c0 & H1 & H2). congruence.
Qed.

Lemma letter_grid_shows_words_witness :
  let s := push_dict [(across3, "cat"); (down3, "art")]%string
             (after_node_consistency crossing) in
  let g := mkGrid 3 3 in
  let letters := [ [String.get 0 "cat"; String.get 1 "cat"; String.get 2 "cat"];
                   [None; String.get 1 "art"; None];
                   [None; String.get 2 "art"; None] ]%string in
  overlaps_geometric crossing
  ∧ NoDup (dict_keys (contents s 0))
  ∧ (∀ x w, (x, w) ∈ contents s 0 → x ∈ variables crossing)
  ∧ consistent crossing 0 s = (Ok true, s)
  ∧ letter_grid g 0 s = (Ok letters, s)
  ∧ ∀ v w k c, (v, w) ∈ contents s 0 → String.get k w = Some c →
               cell_at letters (cell_of v k) = Some (Some c).
Proof.
  intros s g letters.
  assert (overlaps_geometric crossing) as H1 by decide_by_computation.
  assert (NoDup (dict_keys (contents s 0))) as H2 by decide_by_computation.
  assert (∀ x w, (x, w) ∈ contents s 0 → x ∈ variables crossing) as H3.
  { intros x w Hin.
    change ((x, w) ∈ [(across3, "cat"); (down3, "art")]%string) in Hin.
    apply elem_of_cons in Hin as [[= -> ->]|Hin]; [decide_by_computation|].
    apply elem_of_cons in Hin as [[= -> ->]|Hin]; [decide_by_computation|].
    by apply elem_of_nil in Hin. }
  assert (consistent crossing 0 s = (Ok true, s)) as H4
    by (vm_compute; reflexivity).
  assert (letter_grid g 0 s = (Ok letters, s)) as H5
    by (vm_compute; reflexivity).
  repeat (split; [assumption|]).
  exact (letter_grid_shows_words crossing g 0 s letters s H1 H2 H3 H4 H5).
Defined.

(** ** [assignment_complete] *)

(** X18. [assignment_complete] raises nothing and changes nothing. It
    returns [True] exactly when every slot of the crossword is a key of the
    assignment whose word is in the word list; keys that are not slots of
    the crossword do not count. *)
Theorem assignment_complete_iff cw assignment s :
  ∃ b, assignment_complete cw assignment s = (Ok b, s)
       ∧ (b = true ↔
          ∀ x, x ∈ variables cw →
               ∃ w, dict_get (contents s assignment) x = Some w
                    ∧ w ∈ words cw).
Proof.
  exists (complete_items cw (contents s assignment)). split; [done|].
  apply complete_items_spec.
Qed.

(** ** The test [if result:] of [backtrack] *)

(** X19. A dict that [backtrack] returns for a non-empty assignment is not
    empty, so the test [if result:] on the result of the recursive call,
    which is false for an empty dict, never discards a solution. *)
Theorem backtrack_result_truthy cw fuel assignment s result s' :
  assignment < length (heap s) → contents s assignment ≠ [] →
  backtrack cw fuel assignment s = (Ok (Some result), s') →
  truthy (Some result) s' = (Ok true, s').
Proof.
  intros Hr Hne H.
  destruct (backtrack_completes cw fuel _ s _ s' Hr H) as [_ [Hkeep _]].
  unfold truthy, bind, deref, ret. do 2 f_equal.
  apply bool_decide_eq_true. intros Hnil.
  destruct (contents s assignment) as [|[x w] a] eqn:Ha; [done|].
  specialize (Hkeep x w). rewrite Hnil in Hkeep. simpl in Hkeep.
  rewrite decide_True in Hkeep by done. by specialize (Hkeep eq_refl).
Qed.

Lemma backtrack_result_truthy_witness :
  let s := push_dict [(across3, "cat")]%string
             (after_node_consistency crossing) in
  let s' := (backtrack crossing 3 0 s).2 in
  0 < length (heap s) ∧ contents s 0 ≠ []
  ∧ backtrack crossing 3 0 s = (Ok (Some 2), s')
  ∧ truthy (Some 2) s' = (Ok true, s').
Proof.
  intros s s'.
  assert (0 < length (heap s)) as H1 by (vm_compute; lia).
  assert (contents s 0 ≠ []) as H2 by done.
  assert (backtrack crossing 3 0 s = (Ok (Some 2), s')) as H3
    by (vm_compute; reflexivity).
  repeat (split; [assumption|]).
  exact (backtrack_result_truthy crossing 3 0 s 2 s' H1 H2 H3).
Defined.

(** ** A crossword without slots *)

(** X20. For a crossword without slots [solve] returns the empty dict, not
    [None]: nothing is pruned, and the first call of [backtrack] finds the
    empty assignment complete. *)
Theorem solve_no_slots cw s :
  variables cw = ∅ →
  solve cw s
  = (Ok (Some (length (heap s))),
     mkState (domains s) (heap s ++ [[]]) (S (backtrack_calls s))).
Proof.
  intros Hv. unfold solve, enforce_node_consistency.
  rewrite Hv, elements_empty. cbn [for_each]. unfold bind at 1, ret.
  assert (ac3 cw None s = (Ok true, s)) as Hac3.
  { unfold ac3, ac3_queue, all_arcs, ac3_fuel.
    rewrite Hv, elements_empty. reflexivity. }
  unfold bind at 1. rewrite Hac3.
  unfold bind at 1, new_dict. rewrite size_empty. cbn [backtrack].
  unfold bind at 1, enter_backtrack.
  unfold bind at 1, assignment_complete, bind at 1, deref, ret.
  unfold complete_items. rewrite Hv, elements_empty. reflexivity.
Qed.

Lemma solve_no_slots_witness :
  let cw := mkCrossword ∅ {[ "cat" ]}%string ∅ in
  variables cw = ∅
  ∧ solve cw (init cw)
    = (Ok (Some (length (heap (init cw)))),
       mkState (domains (init cw)) (heap (init cw) ++ [[]])
               (S (backtrack_calls (init cw)))).
Proof.
  intros cw.
  assert (variables cw = ∅) as H by reflexivity.
  split; [exact H|].
  exact (solve_no_slots cw (init cw) H).
Defined.

(** ** [enforce_node_consistency] from any domains *)

Lemma node_inner_Ok (variable : Var) (l : list string) s s' :
  for_each l (λ word,
      if decide (String.length word ≠ v_length variable)
      then domain_remove variable word else ret tt) s = (Ok tt, s') →
  heap s' = heap s
  ∧ (∀ u, u ≠ variable → domains s' !! u = domains s !! u)
  ∧ dom_at (domains s') variable
    = dom_at (domains s) variable
      ∖ list_to_set (filter (λ w, ¬ fits variable w) l).
Proof.
  revert s. induction l as [|w l IH]; intros s; simpl.
  - intros [= <-]. split; [done|]. split; [done|].
    by rewrite difference_empty_L.
  - destruct (decide (String.length w ≠ v_length variable)) as [Hlen|Hlen].
    + intros H. apply bind_inv_Ok in H as ([] & s1 & Hrem & H).
      unfold domain_remove in Hrem.
      apply bind_inv_Ok in Hrem as (d & s0 & Hd & Hrem).
      unfold domain_of in Hd.
      destruct (domains s !! variable) as [d0|] eqn:Hvar; [|done].
      injection Hd as <- <-.
      destruct (decide (w ∈ d0)); [|done]. injection Hrem as <-.
      apply IH in H as (Hh & Hother & Hdom). simpl in *.
      split; [done|]. split.
      * intros u Hu. rewrite (Hother u Hu). by rewrite lookup_insert_ne.
      * rewrite Hdom, dom_at_insert, decide_True by done.
        rewrite (dom_at_Some _ _ _ Hvar).
        rewrite filter_cons_True by done. simpl. set_solver.
    + intros H. apply bind_inv_Ok in H as ([] & s1 & [= <-] & H).
      apply IH in H as (Hh & Hother & Hdom).
      split; [done|]. split; [done|]. rewrite Hdom.
      rewrite filter_cons_False; [done|]. unfold fits. intros Hn. apply Hn. lia.
Qed.

Lemma node_outer_Ok (cw : Crossword) (l : list Var) s s' :
  NoDup l →
  for_each l (λ variable,
    for_each (elements (words cw)) (λ word,
      if decide (String.length word ≠ v_length variable)
      then domain_remove variable word else ret tt)) s = (Ok tt, s') →
  heap s' = heap s
  ∧ ∀ u, dom_at (domains s') u
         = if decide (u ∈ l)
           then dom_at (domains s) u
                ∖ list_to_set (filter (λ w, ¬ fits u w) (elements (words cw)))
           else dom_at (domains s) u.
Proof.
  intros Hnd. revert s. induction Hnd as [|v l Hv Hnd IH]; intros s; simpl.
  - intros [= <-]. split; [done|]. intros u. done.
  - intros H. apply bind_inv_Ok in H as ([] & s1 & Hin & H).
    apply node_inner_Ok in Hin as (Hh1 & Hother & Hdom).
    apply IH in H as (Hh & Hrest). split; [congruence|].
    intros u. rewrite Hrest.
    destruct (decide (u = v)) as [->|Hne].
    + destruct (decide (v ∈ l)) as [Hin|_]; [by destruct Hv|].
      destruct (decide (v ∈ v :: l)) as [_|Hn]; [done|].
      destruct Hn. apply elem_of_cons. by left.
    + assert (dom_at (domains s1) u = dom_at (domains s) u) as ->
        by (unfold dom_at; by rewrite (Hother u Hne)).
      destruct (decide (u ∈ l)) as [Hin|Hin].
      * destruct (decide (u ∈ v :: l)) as [_|Hn]; [done|].
        destruct Hn. by right.
      * destruct (decide (u ∈ v :: l)) as [Hn|_]; [|done].
        apply elem_of_cons in Hn as [?|?]; done.
Qed.

(** X21. When [enforce_node_consistency] completes, from whatever domains
    it started, a word is in the domain of a slot afterwards exactly when
    it was there before and is not a word of the list with another length
    than the slot. Slots outside the crossword keep their domains, and no
    assignment dict is touched. *)
Theorem enforce_node_consistency_result cw s s' :
  enforce_node_consistency cw s = (Ok tt, s') →
  heap s' = heap s
  ∧ ∀ v w, w ∈ dom_at (domains s') v
           ↔ w ∈ dom_at (domains s) v
             ∧ (v ∈ variables cw → w ∈ words cw → fits v w).
Proof.
  intros H. unfold enforce_node_consistency in H.
  apply node_outer_Ok in H as [Hh Hdom]; [|apply NoDup_elements].
  split; [done|]. intros v w. rewrite Hdom.
  destruct (decide (v ∈ elements (variables cw))) as [Hv|Hv];
    rewrite elem_of_elements in Hv.
  - rewrite elem_of_difference, elem_of_list_to_set, list_elem_of_filter,
      elem_of_elements.
    split.
    + intros [Hw Hn]. split; [done|]. intros _ Hin.
      destruct (decide (fits v w)); [done|]. destruct Hn. done.
    + intros [Hw Hfit]. split; [done|]. intros [Hn Hin]. apply Hn.
      by apply Hfit.
  - split; [by intros ?|by intros [? _]].
Qed.

Lemma enforce_node_consistency_result_witness :
  let s := init single3 in
  let s' := after_node_consistency single3 in
  enforce_node_consistency single3 s = (Ok tt, s')
  ∧ heap s' = heap s
  ∧ ∀ v w, w ∈ dom_at (domains s') v
           ↔ w ∈ dom_at (domains s) v
             ∧ (v ∈ variables single3 → w ∈ words single3 → fits v w).
Proof.
  intros s s'.
  assert (enforce_node_consistency single3 s = (Ok tt, s')) as H
    by (vm_compute; reflexivity).
  split; [exact H|].
  exact (enforce_node_consistency_result single3 s s' H).
Defined.

(** ** Failure answers are right *)

(** X22. When [ac3], run after [enforce_node_consistency] on a fresh
    creator, returns [False], the puzzle has no solution: no complete
    assignment satisfies the constraints. *)
Theorem ac3_False_unsolvable cw s' :
  overlaps_in_bounds cw → overlaps_total cw →
  ac3 cw None (after_node_consistency cw) = (Ok false, s') →
  ¬ ∃ σ, valid_solution cw σ.
Proof.
  intros Hb Ht Hac3 [σ Hσ].
  assert (ac3_run cw (all_arcs cw) (after_node_consistency cw) false s')
    as Hrun by (eapply ac3_loop_run; exact Hac3).
  pose proof (ac3_run_keeps cw σ Hσ _ _ _ _ Hrun
                (after_node_consistency_cover cw) (all_arcs_valid cw)
                (after_node_consistency_keeps cw σ Hσ)) as Hk.
  destruct (ac3_run_result cw Hb Ht _ _ _ _ Hrun
              (after_node_consistency_node_consistent cw)
              (after_node_consistency_cover cw) (all_arcs_valid cw))
    as (v & Hne & Hempty).
  assert (v ∈ variables cw) as Hv.
  { unfold dom_at in Hne. simpl in Hne.
    rewrite node_consistent_domains_lookup in Hne.
    by destruct (decide (v ∈ variables cw)). }
  specialize (Hk v Hv). rewrite Hempty in Hk. set_solver.
Qed.

Lemma ac3_False_unsolvable_witness :
  let s' := (ac3 arch None (after_node_consistency arch)).2 in
  overlaps_in_bounds arch ∧ overlaps_total arch
  ∧ ac3 arch None (after_node_consistency arch) = (Ok false, s')
  ∧ ¬ ∃ σ, valid_solution arch σ.
Proof.
  intros s'.
  assert (overlaps_in_bounds arch) as H1 by decide_by_computation.
  assert (overlaps_total arch) as H2 by decide_by_computation.
  assert (ac3 arch None (after_node_consistency arch) = (Ok false, s')) as H3
    by (vm_compute; reflexivity).
  repeat (split; [assumption|]).
  exact (ac3_False_unsolvable arch s' H1 H2 H3).
Defined.

(** X23. [backtrack] gives up only when it must: if a complete assignment
    that satisfies the constraints agrees with the dict on the slots it
    assigns and gives every slot a word of its current domain, the call
    does not return [None]. *)
Theorem backtrack_None_complete cw σ fuel assignment s s' :
  valid_solution cw σ →
  assignment < length (heap s) →
  (∀ x w, (x, w) ∈ contents s assignment → x ∈ variables cw ∧ w = σ x) →
  (∀ x, x ∈ variables cw → σ x ∈ dom_at (domains s) x) →
  backtrack cw fuel assignment s ≠ (Ok None, s').
Proof.
  intros Hσ Hr Hin Hk H.
  exact (backtrack_complete cw σ Hσ fuel assignment s s' Hr Hin Hk H).
Qed.

Lemma backtrack_None_complete_witness :
  let s := push_dict [(across3, "cat")]%string
             (after_node_consistency crossing) in
  let σ := λ x, if decide (x = across3) then "cat"%string else "art"%string in
  valid_solution crossing σ
  ∧ 0 < length (heap s)
  ∧ (∀ x w, (x, w) ∈ contents s 0 → x ∈ variables crossing ∧ w = σ x)
  ∧ (∀ x, x ∈ variables crossing → σ x ∈ dom_at (domains s) x)
  ∧ backtrack crossing 3 0 s ≠ (Ok None, (backtrack crossing 3 0 s).2).
Proof.
  intros s σ.
  assert (∀ x, x ∈ variables crossing → x = across3 ∨ x = down3) as Hvars.
  { intros x Hx. unfold crossing in Hx. simpl in Hx. set_solver. }
  assert (valid_solution crossing σ) as H1.
  { intros x Hx. destruct (Hvars x Hx) as [-> | ->].
    - split; [decide_by_computation|]. split; [reflexivity|].
      intros y Hy Hxy. destruct (Hvars y Hy) as [-> | ->]; [done|].
      split; [done|]. intros p q Hpq. vm_compute in Hpq.
      injection Hpq as <- <-. by eexists.
    - split; [decide_by_computation|]. split; [reflexivity|].
      intros y Hy Hxy. destruct (Hvars y Hy) as [-> | ->]; [|done].
      split; [done|]. intros p q Hpq. vm_compute in Hpq.
      injection Hpq as <- <-. by eexists. }
  assert (0 < length (heap s)) as H2 by (vm_compute; lia).
  assert (∀ x w, (x, w) ∈ contents s 0 → x ∈ variables crossing ∧ w = σ x)
    as H3.
  { intros x w Hin.
    change ((x, w) ∈ [(across3, "cat")]%string) in Hin.
    apply list_elem_of_singleton in Hin as [= -> ->].
    split; [decide_by_computation|reflexivity]. }
  assert (∀ x, x ∈ variables crossing → σ x ∈ dom_at (domains s) x) as H4.
  { intros x Hx. destruct (Hvars x Hx) as [-> | ->];
      apply (bool_decide_unpack _); vm_compute; exact I. }
  repeat (split; [assumption|]).
  exact (backtrack_None_complete crossing σ 3 0 s _ H1 H2 H3 H4).
Defined.
